(** * Leela Zero (alreadydone/lz): parallel MCTS controller and GTP options

    A shallow embedding of the parts of [UCTSearch.cpp] and [GTP.cpp] that
    drive the search: the root reader/writer lock, virtual-loss accounting on
    backup, time-management pruning, best-move heuristics, root advance and
    lazy tree destruction, and the memory / playout options.

    Conventions.
    - C++ [int] and [size_t] values are [Z]; where a computation can wrap,
      the wrap-around is written out.
    - [float] values are kept abstract (a type with the comparisons and the
      arithmetic the code uses); a rational instance is used to run the
      definitions on concrete inputs.
    - Objects that are mutated in place ([UCTNode]s reached through
      pointers) live in a store indexed by node identifiers. *)

From Stdlib Require Import ZArith List Bool Lia String Ascii QArith DecimalString.
From stdpp Require Import base option list gmap.

Local Open Scope Z_scope.

(* ===================================================================== *)
(** * Machine types *)
(* ===================================================================== *)

(** A value passed as [uint16_t]. *)
Definition to_uint16 (x : Z) : Z := x mod 65536.

(** The cast [(int)x] / [int(x)] of an integer value (two's complement,
    32 bits). *)
Definition to_int (x : Z) : Z := (x + 2147483648) mod 4294967296 - 2147483648.

(** Single-precision arithmetic is not fixed here: the code is read over
    any type [F] of floats that offers the operations it uses. [flt a b]
    is [a < b] and [feqb a b] is [a == b]; [a > b] is written [flt b a].
    The named constants are the literals that occur in the source. *)
Class FloatOps (F : Type) : Type := {
  f_of_int : Z -> F;
  f_0 : F;            (* 0.0f *)
  f_half : F;         (* 0.5f *)
  f_1 : F;            (* 1.0f *)
  f_0_01 : F;         (* 0.01f *)
  f_0_6 : F;          (* 0.6f *)
  fadd : F -> F -> F;
  fsub : F -> F -> F;
  fmul : F -> F -> F;
  fdiv : F -> F -> F;
  flt : F -> F -> bool;
  feqb : F -> F -> bool;
  flt_asym : forall a b, flt a b = true -> flt b a = false
}.

(** [std::min(a, b)] is [(b < a) ? b : a]. *)
Definition fmin {F : Type} `{FloatOps F} (a b : F) : F := if flt b a then b else a.

(** Exact rational arithmetic, to run the definitions on concrete inputs. *)
Definition Qlt_bool (a b : Q) : bool := negb (Qle_bool b a).

Lemma Qlt_bool_asym (a b : Q) : Qlt_bool a b = true -> Qlt_bool b a = false.
Proof.
  unfold Qlt_bool. intros H.
  apply negb_true_iff in H. apply negb_false_iff.
  apply Qle_bool_iff.
  destruct (Qlt_le_dec a b) as [Hlt|Hle].
  - apply Qlt_le_weak. exact Hlt.
  - apply Qle_bool_iff in Hle. congruence.
Qed.

#[export] Instance Q_FloatOps : FloatOps Q := {|
  f_of_int := inject_Z;
  f_0 := 0%Q;
  f_half := (1 # 2)%Q;
  f_1 := 1%Q;
  f_0_01 := (1 # 100)%Q;
  f_0_6 := (6 # 10)%Q;
  fadd := Qplus;
  fsub := Qminus;
  fmul := Qmult;
  fdiv := Qdiv;
  flt := Qlt_bool;
  feqb := Qeq_bool;
  flt_asym := Qlt_bool_asym
|}.

Inductive color : Type :=
| BLACK
| WHITE.

(* ===================================================================== *)
(** * The root lock: [acquire_reader], [release_reader], [acquire_writer],
      [release_writer] *)
(* ===================================================================== *)

Module RootLock.

(** Where a worker thread stands in
<<
    void UCTSearch::acquire_reader() {
        while (true) {
            if (m_root_lock >= 128) continue;        // RLoop
            if (m_root_lock.fetch_add(1) >= 128) {   // RAdd
                --m_root_lock;                       // RUndo
                continue;
            }
            return;                                  // RHeld
        }
    }
>>
    [ROut] is a thread that is not inside the lock. Every access to the
    atomic [m_root_lock] is one step. *)
Inductive reader_pc : Type :=
| ROut
| RLoop
| RAdd
| RUndo
| RHeld.

(** The single controller thread ("only the main thread may attempt this"):
<<
    m_root_lock += 128;                 // WOut  -> WSpin
    while (m_root_lock != 128) {}       // WSpin -> WHeld
>> *)
Inductive writer_pc : Type :=
| WOut
| WSpin
| WHeld.

Record state : Type := mkState {
  lock : Z;
  readers : list reader_pc;
  writer : writer_pc
}.

Inductive event : Type :=
| RCall (i : nat)      (* thread i enters acquire_reader *)
| RTest (i : nat)      (* if (m_root_lock >= 128) continue; *)
| RFetchAdd (i : nat)  (* if (m_root_lock.fetch_add(1) >= 128) *)
| RUndoDec (i : nat)   (* --m_root_lock; continue; *)
| RRelease (i : nat)   (* release_reader: --m_root_lock *)
| WAdd                 (* m_root_lock += 128 *)
| WTest                (* while (m_root_lock != 128) {} *)
| WRelease.            (* release_writer: m_root_lock -= 128 *)

Definition set_reader (i : nat) (pc : reader_pc) (s : state) : state :=
  mkState (lock s) (<[i := pc]> (readers s)) (writer s).

Definition set_lock (v : Z) (s : state) : state :=
  mkState v (readers s) (writer s).

Definition set_writer (w : writer_pc) (s : state) : state :=
  mkState (lock s) (readers s) w.

(** One atomic step. [None]: the event is not the next instruction of that
    thread. [fetch_add] returns the value held before the addition. *)
Definition step (e : event) (s : state) : option state :=
  match e with
  | RCall i =>
      match readers s !! i with
      | Some ROut => Some (set_reader i RLoop s)
      | _ => None
      end
  | RTest i =>
      match readers s !! i with
      | Some RLoop =>
          if 128 <=? lock s then Some s else Some (set_reader i RAdd s)
      | _ => None
      end
  | RFetchAdd i =>
      match readers s !! i with
      | Some RAdd =>
          let old := lock s in
          let s1 := set_lock (old + 1) s in
          if 128 <=? old then Some (set_reader i RUndo s1)
          else Some (set_reader i RHeld s1)
      | _ => None
      end
  | RUndoDec i =>
      match readers s !! i with
      | Some RUndo => Some (set_reader i RLoop (set_lock (lock s - 1) s))
      | _ => None
      end
  | RRelease i =>
      match readers s !! i with
      | Some RHeld => Some (set_reader i ROut (set_lock (lock s - 1) s))
      | _ => None
      end
  | WAdd =>
      match writer s with
      | WOut => Some (set_writer WSpin (set_lock (lock s + 128) s))
      | _ => None
      end
  | WTest =>
      match writer s with
      | WSpin => if lock s =? 128 then Some (set_writer WHeld s) else Some s
      | _ => None
      end
  | WRelease =>
      match writer s with
      | WHeld => Some (set_writer WOut (set_lock (lock s - 128) s))
      | _ => None
      end
  end.

Fixpoint exec (es : list event) (s : state) : option state :=
  match es with
  | [] => Some s
  | e :: es' =>
      match step e s with
      | Some s' => exec es' s'
      | None => None
      end
  end.

(** [n] worker threads, nobody in the lock. *)
Definition init (n : nat) : state := mkState 0 (replicate n ROut) WOut.

Definition reachable (n : nat) (s : state) : Prop :=
  exists es, exec es (init n) = Some s.

(** What each thread currently contributes to the counter. *)
Definition reader_units (pc : reader_pc) : Z :=
  match pc with
  | RUndo | RHeld => 1
  | _ => 0
  end.

Definition holds_read (pc : reader_pc) : Z :=
  match pc with
  | RHeld => 1
  | _ => 0
  end.

Definition writer_units (w : writer_pc) : Z :=
  match w with
  | WOut => 0
  | _ => 128
  end.

Fixpoint total (f : reader_pc -> Z) (l : list reader_pc) : Z :=
  match l with
  | [] => 0
  | pc :: l' => f pc + total f l'
  end.

Definition inv (s : state) : Prop :=
  lock s = writer_units (writer s) + total reader_units (readers s)
  /\ (writer s = WHeld -> total holds_read (readers s) = 0).

(** The full acquisition of thread [i] when no other thread moves. *)
Definition acquire_reader_alone (i : nat) : list event :=
  [RCall i; RTest i; RFetchAdd i].

Definition acquire_all (n : nat) : list event :=
  flat_map acquire_reader_alone (seq 0 n).

End RootLock.

(* ===================================================================== *)
(** * GTP options: [GTP::set_max_memory], [GTP::execute_setoption],
      [UCTSearch::set_playout_limit], [UCTSearch::set_visit_limit] *)
(* ===================================================================== *)

Module GTP.

Section WithPlatform.

(** Declarations that live in headers outside this translation unit are
    taken as they come: the range of [size_t] ([size_range] is 2^32 or
    2^64), [MiB], [Utils::remove_overhead], the [NNCache] and [UCTSearch]
    constants, and what [get_base_memory()] reports for the loaded
    network. *)
Variable size_range : Z.
Variable MiB : Z.
Variable remove_overhead : Z -> Z.
Variable ENTRY_SIZE : Z.
Variable MIN_CACHE_COUNT : Z.
Variable MIN_TREE_SPACE : Z.
Variable DEFAULT_MAX_MEMORY : Z.
Variable UNLIMITED_PLAYOUTS : Z.
Variable base_memory : Z.

(** Unsigned arithmetic on [size_t] wraps. *)
Definition to_size_t (x : Z) : Z := x mod size_range.

(** [std::to_string] on an integer. *)
Definition to_string (x : Z) : string := DecimalString.NilZero.string_of_int (Z.to_int x).

(** The globals written by the option commands, the cache capacity last
    passed to [nncache_resize], and the two limits held by the search
    object. *)
Record globals : Type := mkGlobals {
  cfg_max_memory : Z;
  cfg_max_cache_ratio_percent : Z;
  cfg_max_tree_size : Z;
  nncache_size : Z;
  cfg_max_playouts : Z;
  cfg_max_visits : Z;
  cfg_allow_pondering : bool;
  cfg_lagbuffer_cs : Z;
  cfg_resignpct : Z;
  m_maxplayouts : Z;
  m_maxvisits : Z
}.

Definition with_memory (mm pct tree cache : Z) (g : globals) : globals :=
  mkGlobals mm pct tree cache (cfg_max_playouts g) (cfg_max_visits g)
    (cfg_allow_pondering g) (cfg_lagbuffer_cs g) (cfg_resignpct g)
    (m_maxplayouts g) (m_maxvisits g).

Definition with_cfg_max_playouts (v : Z) (g : globals) : globals :=
  mkGlobals (cfg_max_memory g) (cfg_max_cache_ratio_percent g) (cfg_max_tree_size g)
    (nncache_size g) v (cfg_max_visits g)
    (cfg_allow_pondering g) (cfg_lagbuffer_cs g) (cfg_resignpct g)
    (m_maxplayouts g) (m_maxvisits g).

Definition with_cfg_max_visits (v : Z) (g : globals) : globals :=
  mkGlobals (cfg_max_memory g) (cfg_max_cache_ratio_percent g) (cfg_max_tree_size g)
    (nncache_size g) (cfg_max_playouts g) v
    (cfg_allow_pondering g) (cfg_lagbuffer_cs g) (cfg_resignpct g)
    (m_maxplayouts g) (m_maxvisits g).

Definition with_cfg_allow_pondering (b : bool) (g : globals) : globals :=
  mkGlobals (cfg_max_memory g) (cfg_max_cache_ratio_percent g) (cfg_max_tree_size g)
    (nncache_size g) (cfg_max_playouts g) (cfg_max_visits g)
    b (cfg_lagbuffer_cs g) (cfg_resignpct g)
    (m_maxplayouts g) (m_maxvisits g).

Definition with_cfg_lagbuffer_cs (v : Z) (g : globals) : globals :=
  mkGlobals (cfg_max_memory g) (cfg_max_cache_ratio_percent g) (cfg_max_tree_size g)
    (nncache_size g) (cfg_max_playouts g) (cfg_max_visits g)
    (cfg_allow_pondering g) v (cfg_resignpct g)
    (m_maxplayouts g) (m_maxvisits g).

Definition with_cfg_resignpct (v : Z) (g : globals) : globals :=
  mkGlobals (cfg_max_memory g) (cfg_max_cache_ratio_percent g) (cfg_max_tree_size g)
    (nncache_size g) (cfg_max_playouts g) (cfg_max_visits g)
    (cfg_allow_pondering g) (cfg_lagbuffer_cs g) v
    (m_maxplayouts g) (m_maxvisits g).

(** [m_maxplayouts = std::min(playouts, UNLIMITED_PLAYOUTS)] *)
Definition set_playout_limit (playouts : Z) (g : globals) : globals :=
  mkGlobals (cfg_max_memory g) (cfg_max_cache_ratio_percent g) (cfg_max_tree_size g)
    (nncache_size g) (cfg_max_playouts g) (cfg_max_visits g)
    (cfg_allow_pondering g) (cfg_lagbuffer_cs g) (cfg_resignpct g)
    (Z.min playouts UNLIMITED_PLAYOUTS) (m_maxvisits g).

(** [m_maxvisits = std::min(visits, UNLIMITED_PLAYOUTS)] *)
Definition set_visit_limit (visits : Z) (g : globals) : globals :=
  mkGlobals (cfg_max_memory g) (cfg_max_cache_ratio_percent g) (cfg_max_tree_size g)
    (nncache_size g) (cfg_max_playouts g) (cfg_max_visits g)
    (cfg_allow_pondering g) (cfg_lagbuffer_cs g) (cfg_resignpct g)
    (m_maxplayouts g) (Z.min visits UNLIMITED_PLAYOUTS).

(** [std::pair<bool, std::string> GTP::set_max_memory(size_t max_memory,
    int cache_size_ratio_percent)], together with the globals it leaves. *)
Definition set_max_memory (max_memory : Z) (cache_size_ratio_percent : Z) (g : globals)
  : globals * (bool * string) :=
  let max_memory := if max_memory =? 0 then DEFAULT_MAX_MEMORY else max_memory in
  if max_memory <? base_memory then
    (g, (false, String.append "Not enough memory for network. "
                  (String.append (to_string (base_memory / MiB)) " MiB required.")))
  else
    let max_memory_for_search := max_memory - base_memory in
    let max_cache_size :=
      to_size_t (max_memory_for_search * to_size_t cache_size_ratio_percent) / 100 in
    let max_cache_count := to_int (remove_overhead max_cache_size / ENTRY_SIZE) in
    if max_cache_count <? MIN_CACHE_COUNT then
      (g, (false, "Not enough memory for cache."%string))
    else
      let max_tree_size := to_size_t (max_memory_for_search - max_cache_size) in
      if max_tree_size <? MIN_TREE_SPACE then
        (g, (false, "Not enough memory for search tree."%string))
      else
        (with_memory max_memory cache_size_ratio_percent
           (remove_overhead max_tree_size) max_cache_count g,
         (true, String.append "Setting max tree size to "
                  (String.append (to_string (max_tree_size / MiB))
                     (String.append " MiB and cache size to "
                        (String.append (to_string (max_cache_size / MiB)) " MiB."))))).

(** [s.find(p) == 0]: the text [s] begins with [p]. *)
Fixpoint starts_with (p s : string) : bool :=
  match p, s with
  | EmptyString, _ => true
  | String a p', String b s' => Ascii.eqb a b && starts_with p' s'
  | String _ _, EmptyString => false
  end.

(** ** Reading an [int] with [operator>>] *)

Definition digit_of (c : ascii) : option Z :=
  let n := Z.of_nat (nat_of_ascii c) in
  if (48 <=? n) && (n <=? 57) then Some (n - 48) else None.

(** The digits at the front of [s]: their value and whether there was one. *)
Fixpoint read_digits (s : string) (acc : Z) (seen : bool) : Z * bool :=
  match s with
  | String c s' =>
      match digit_of c with
      | Some d => read_digits s' (10 * acc + d) true
      | None => (acc, seen)
      end
  | EmptyString => (acc, seen)
  end.

Definition INT_MAX : Z := 2147483647.
Definition INT_MIN : Z := -2147483648.

(** [valuestream >> n] on the text [s]: the value stored in [n] and the
    stream's fail bit. No digits: 0 and failure; out of range: the nearest
    bound and failure. *)
Definition read_int (s : string) : Z * bool :=
  let '(neg, body) :=
    match s with
    | String "-"%char s' => (true, s')
    | String "+"%char s' => (false, s')
    | _ => (false, s)
    end in
  let '(v, seen) := read_digits body 0 false in
  if negb seen then (0, true)
  else
    let v := if neg then - v else v in
    if INT_MAX <? v then (INT_MAX, true)
    else if v <? INT_MIN then (INT_MIN, true)
    else (v, false).

(** ** [lz-setoption] *)

Inductive response : Type :=
| gtp_printf (text : string)
| gtp_fail_printf (text : string).

Fixpoint join_tokens (ts : list string) : string :=
  match ts with
  | [] => EmptyString
  | [t] => t
  | t :: ts' => String.append t (String.append " " (join_tokens ts'))
  end.

(** [GTP::parse_option]: the tokens up to the word [value] are the name,
    those after it are the value, each joined by single blanks. *)
Fixpoint split_at_value (ts : list string) : list string * list string :=
  match ts with
  | [] => ([], [])
  | t :: ts' =>
      if String.eqb t "value" then ([], ts')
      else let '(n, v) := split_at_value ts' in (t :: n, v)
  end.

Definition parse_option (ts : list string) : string * string :=
  let '(n, v) := split_at_value ts in (join_tokens n, join_tokens v).

(** The first blank-separated word of the value, which is what
    [operator>>] reads from. *)
Definition first_word (s : string) : string :=
  (fix go (s : string) : string :=
     match s with
     | String c s' => if Ascii.eqb c " " then EmptyString else String c (go s')
     | EmptyString => EmptyString
     end) s.

(** [void GTP::execute_setoption(UCTSearch& search, int id, const
    std::string& command)]. The command is given as the blank-separated
    words that [cmdstream >> ...] extracts one at a time; [options_text] is
    what the bare command prints (the table [s_options]). *)
Definition execute_setoption (options_text : string) (command : list string) (g : globals)
  : globals * response :=
  match command with
  | _tmp :: name_token :: rest =>
      if negb (starts_with "name" name_token) then
        (g, gtp_fail_printf "incorrect syntax for lz-setoption")
      else
        let '(name, value) := parse_option rest in
        if String.eqb name "maximum memory use (mib)" then
          let '(max_memory_in_mib, failed) := read_int (first_word value) in
          if negb failed then
            if (max_memory_in_mib <? 128) || (131072 <? max_memory_in_mib) then
              (g, gtp_fail_printf "incorrect value")
            else
              let '(g', (result, reason)) :=
                set_max_memory (to_size_t (max_memory_in_mib * MiB))
                  (cfg_max_cache_ratio_percent g) g in
              if result then (g', gtp_printf reason) else (g', gtp_fail_printf reason)
          else (g, gtp_fail_printf "incorrect value")
        else if String.eqb name "percentage of memory for cache" then
          let '(cache_size_ratio_percent, _) := read_int (first_word value) in
          if (cache_size_ratio_percent <? 1) || (99 <? cache_size_ratio_percent) then
            (g, gtp_fail_printf "incorrect value")
          else
            let '(g', (result, reason)) :=
              set_max_memory (cfg_max_memory g) cache_size_ratio_percent g in
            if result then (g', gtp_printf reason) else (g', gtp_fail_printf reason)
        else if String.eqb name "visits" then
          let '(visits, _) := read_int (first_word value) in
          let g1 := with_cfg_max_visits visits g in
          let g2 := if cfg_max_visits g1 =? 0
                    then with_cfg_max_visits UNLIMITED_PLAYOUTS g1 else g1 in
          (set_visit_limit (cfg_max_visits g2) g2, gtp_printf "")
        else if String.eqb name "playouts" then
          let '(playouts, _) := read_int (first_word value) in
          let g1 := with_cfg_max_playouts playouts g in
          if cfg_max_playouts g1 =? 0 then
            let g2 := with_cfg_max_playouts UNLIMITED_PLAYOUTS g1 in
            (set_playout_limit (cfg_max_visits g2) g2, gtp_printf "")
          else if cfg_allow_pondering g1 then
            (g1, gtp_fail_printf "incorrect value")
          else
            (set_playout_limit (cfg_max_visits g1) g1, gtp_printf "")
        else if String.eqb name "lagbuffer" then
          let '(lagbuffer, _) := read_int (first_word value) in
          (with_cfg_lagbuffer_cs lagbuffer g, gtp_printf "")
        else if String.eqb name "pondering" then
          let toggle := first_word value in
          if String.eqb toggle "true" then
            if negb (cfg_max_playouts g =? UNLIMITED_PLAYOUTS) then
              (g, gtp_fail_printf "incorrect value")
            else (with_cfg_allow_pondering true g, gtp_printf "")
          else if String.eqb toggle "false" then
            (with_cfg_allow_pondering false g, gtp_printf "")
          else (g, gtp_fail_printf "incorrect value")
        else if String.eqb name "resign percentage" then
          let '(resignpct, _) := read_int (first_word value) in
          (with_cfg_resignpct resignpct g, gtp_printf "")
        else (g, gtp_fail_printf "Unknown option")
  | _ => (g, gtp_printf options_text)
  end.

End WithPlatform.

(** Globals before any option has been set. *)
Definition no_settings : globals := mkGlobals 0 0 0 0 0 0 false 0 0 0 0.

End GTP.

(* ===================================================================== *)
(** * Choosing the move: [UCTSearch::should_resign],
      [UCTSearch::get_best_move], the end of [UCTSearch::think] *)
(* ===================================================================== *)

Module BestMove.

Section WithFloats.

Context {F : Type} `{FloatOps F}.

(** What [get_best_move] reads from a root child. *)
Record child : Type := mkChild {
  get_move : Z;
  first_visit : bool;
  get_raw_eval : color -> F
}.

(** What it reads from [m_rootstate]. *)
Record rootstate : Type := mkRootstate {
  get_to_move : color;
  get_movenum : Z;
  get_boardsize : Z;
  get_handicap : Z;
  get_last_move : Z;
  final_score : F
}.

(** The search object and the globals as [get_best_move] sees them.
    [FastBoard::PASS], [FastBoard::RESIGN] and the [passflag_t] bits are
    declared in headers outside this translation unit; so are the
    [UCTNode] methods that order the children and look for a move other
    than a pass: they are fields of the environment. *)
Record search : Type := mkSearch {
  PASS : Z;
  RESIGN : Z;
  NOPASS : Z;
  NORESIGN : Z;
  sort_children : color -> list child -> list child;
  randomize_first_proportionally : list child -> list child;
  get_nopass_child : rootstate -> list child -> option child;
  cfg_resignpct : Z;
  cfg_random_cnt : Z;
  cfg_dumbpass : bool;
  m_rootstate : rootstate
}.

Variable S : search.

Let PASS := PASS S.
Let RESIGN := RESIGN S.
Let NOPASS := NOPASS S.
Let NORESIGN := NORESIGN S.
Let sort_children := sort_children S.
Let randomize_first_proportionally := randomize_first_proportionally S.
Let get_nopass_child := get_nopass_child S.
Let cfg_resignpct := cfg_resignpct S.
Let cfg_random_cnt := cfg_random_cnt S.
Let cfg_dumbpass := cfg_dumbpass S.
Let m_rootstate := m_rootstate S.

(** [passflag & flag] as a condition. *)
Definition has_flag (passflag flag : Z) : bool := negb (Z.land passflag flag =? 0).

Definition num_intersections : Z := get_boardsize m_rootstate * get_boardsize m_rootstate.

Definition is_default_cfg_resign : bool := cfg_resignpct <? 0.

(** [0.01f * (is_default_cfg_resign ? 10 : cfg_resignpct)] *)
Definition resign_threshold : F :=
  fmul f_0_01 (f_of_int (if is_default_cfg_resign then 10 else cfg_resignpct)).

(** [resign_threshold / (1 + m_rootstate.get_handicap())] *)
Definition handicap_resign_threshold : F :=
  fdiv resign_threshold (f_of_int (1 + get_handicap m_rootstate)).

(** [std::min(1.0f, movenum / (0.6f * num_intersections))] *)
Definition blend_ratio : F :=
  fmin f_1 (fdiv (f_of_int (get_movenum m_rootstate))
                 (fmul f_0_6 (f_of_int num_intersections))).

(** [blend_ratio * resign_threshold
     + (1 - blend_ratio) * handicap_resign_threshold] *)
Definition blended_resign_threshold : F :=
  fadd (fmul blend_ratio resign_threshold)
       (fmul (fsub (f_of_int 1) blend_ratio) handicap_resign_threshold).

Definition white_in_handicap_game : bool :=
  (0 <? get_handicap m_rootstate)
  && match get_to_move m_rootstate with WHITE => true | BLACK => false end
  && is_default_cfg_resign.

(** [bool UCTSearch::should_resign(passflag_t passflag, float besteval)] *)
Definition should_resign (passflag : Z) (besteval : F) : bool :=
  if has_flag passflag NORESIGN then false
  else if cfg_resignpct =? 0 then false
  else
    let move_threshold := num_intersections / 4 in
    let movenum := get_movenum m_rootstate in
    if movenum <=? move_threshold then false
    else if flt resign_threshold besteval then false
    else if white_in_handicap_game then
      if flt blended_resign_threshold besteval then false else true
    else true.

(** The eval that goes with a substituted child:
    [nopass->first_visit() ? 1.0f : nopass->get_raw_eval(color)]. *)
Definition nopass_eval (c : color) (nopass : child) : F :=
  if first_visit nopass then f_1 else get_raw_eval nopass c.

(** [m_root]'s children once [sort_children(color)] and, early in the game,
    [randomize_first_proportionally()] have run. *)
Definition ordered_children (root_children : list child) : list child :=
  let sorted := sort_children (get_to_move m_rootstate) root_children in
  let movenum := to_int (get_movenum m_rootstate) in
  if movenum <? cfg_random_cnt then randomize_first_proportionally sorted else sorted.

(** [(color == FastBoard::BLACK ? 1 : -1) * m_rootstate.final_score()] *)
Definition relative_score : F :=
  fmul (f_of_int (match get_to_move m_rootstate with BLACK => 1 | WHITE => -1 end))
       (final_score m_rootstate).

(** The first part of [get_best_move]: [bestmove] and [besteval] as they
    stand when the resign test is reached. [None] is the failed
    [assert(first_child != nullptr)]. *)
Definition pass_rules (passflag : Z) (root_children : list child) : option (Z * F) :=
  let c := get_to_move m_rootstate in
  let children := ordered_children root_children in
  match children with
  | [] => None
  | first_child :: _ =>
      let bestmove := get_move first_child in
      let besteval :=
        if first_visit first_child then f_half else get_raw_eval first_child c in
      if has_flag passflag NOPASS then
        if bestmove =? PASS then
          match get_nopass_child m_rootstate children with
          | Some nopass => Some (get_move nopass, nopass_eval c nopass)
          | None => Some (bestmove, besteval)
          end
        else Some (bestmove, besteval)
      else if negb cfg_dumbpass then
        if bestmove =? PASS then
          if flt relative_score f_0 then
            (* Passing loses *)
            match get_nopass_child m_rootstate children with
            | Some nopass => Some (get_move nopass, nopass_eval c nopass)
            | None => Some (bestmove, besteval)
            end
          else if flt f_0 relative_score then
            (* Passing wins *)
            Some (bestmove, besteval)
          else
            (* Passing draws *)
            match get_nopass_child m_rootstate children with
            | Some nopass =>
                if negb (first_visit nopass)
                   && flt f_half (get_raw_eval nopass c)
                then Some (get_move nopass, get_raw_eval nopass c)
                else Some (bestmove, besteval)
            | None => Some (bestmove, besteval)
            end
        else if get_last_move m_rootstate =? PASS then
          if flt relative_score f_0 then Some (bestmove, besteval)
          else if flt f_0 relative_score then Some (PASS, besteval)
          else if flt besteval f_half then Some (PASS, besteval)
          else Some (bestmove, besteval)
        else Some (bestmove, besteval)
      else Some (bestmove, besteval)
  end.

(** [int UCTSearch::get_best_move(passflag_t passflag)] *)
Definition get_best_move (passflag : Z) (root_children : list child) : option Z :=
  match pass_rules passflag root_children with
  | None => None
  | Some (bestmove, besteval) =>
      if negb (bestmove =? PASS) then
        if should_resign passflag besteval then Some RESIGN else Some bestmove
      else Some bestmove
  end.

(** The end of [UCTSearch::think]:
<<
    if (!m_root->has_children()) { return FastBoard::PASS; }
    ...
    int bestmove = get_best_move(passflag);
    return bestmove;
>> *)
Definition think_result (has_children : bool) (passflag : Z) (root_children : list child)
  : option Z :=
  if negb has_children then Some PASS else get_best_move passflag root_children.

End WithFloats.

Arguments child F : clear implicits.
Arguments rootstate F : clear implicits.
Arguments search F : clear implicits.

End BestMove.

(** Concrete positions on which the move choice is run, over the rational
    instance: [PASS] is -1 and [RESIGN] is -2, the flags are the bits 1 and
    2, the children come already sorted, and the move other than a pass is
    the first such child. *)
Module BestMoveDemo.
Import BestMove.

Definition first_non_pass (cs : list (child Q)) : option (child Q) :=
  List.find (fun ch => negb (get_move ch =? -1)) cs.

Definition demo_search (resignpct : Z) (rs : rootstate Q) : search Q :=
  mkSearch (-1) (-2) 1 2 (fun _ l => l) (fun l => l) (fun _ l => first_non_pass l)
    resignpct 0 false rs.

Definition visited (move : Z) (black_winrate : Q) : child Q :=
  mkChild move false
    (fun c => match c with BLACK => black_winrate | WHITE => (1 - black_winrate)%Q end).

(** Black to move at move 200 on 19x19, White has just passed, and the
    final score is +10 for Black. *)
Definition passing_wins : rootstate Q := mkRootstate BLACK 200 19 0 (-1) 10%Q.

(** The same position with a final score of 0. *)
Definition passing_draws : rootstate Q := mkRootstate BLACK 200 19 0 (-1) 0%Q.

(** Black to move at move 100 on 19x19, no handicap, last move a board
    move, Black behind on the board. *)
Definition black_is_lost : rootstate Q := mkRootstate BLACK 100 19 0 72 (-30)%Q.

(** White to move in a four-stone handicap game on 19x19 at a given move
    number. *)
Definition white_gives_four (movenum : Z) : rootstate Q :=
  mkRootstate WHITE movenum 19 4 72 0%Q.

End BestMoveDemo.

(* ===================================================================== *)
(** * Time management: [UCTSearch::est_playouts_left],
      [UCTSearch::prune_noncontenders], [UCTSearch::have_alternate_moves] *)
(* ===================================================================== *)

Module TimeManage.

(** [TimeManagement::enabled_t] *)
Inductive enabled_t : Type :=
| AUTO
| OFF
| ON
| FAST
| NO_PRUNING.

Definition enabled_eqb (a b : enabled_t) : bool :=
  match a, b with
  | AUTO, AUTO | OFF, OFF | ON, ON | FAST, FAST | NO_PRUNING, NO_PRUNING => true
  | _, _ => false
  end.

(** A root child as the pruning reads and writes it. Visit counts are
    whole numbers (every backup adds a factor of 1). *)
Record node : Type := mkNode {
  get_visits : Z;
  valid : bool;
  active : bool
}.

Definition set_active (b : bool) (n : node) : node :=
  mkNode (get_visits n) (valid n) b.

Record search : Type := mkSearch {
  cfg_timemanage : enabled_t;
  m_playouts : Z;
  m_maxplayouts : Z;
  m_maxvisits : Z;
  root_visits : Z;                 (* m_root->get_visits() *)
  children : list node;            (* m_root->get_children() *)
  can_accumulate_time : bool       (* tc.can_accumulate_time(my_color) *)
}.

Definition with_children (cs : list node) (s : search) : search :=
  mkSearch (cfg_timemanage s) (m_playouts s) (m_maxplayouts s) (m_maxvisits s)
    (root_visits s) cs (can_accumulate_time s).

Section WithRate.

(** [UCTSearch::UNLIMITED_PLAYOUTS] comes from the class declaration.
    [playouts_in playouts elapsed_centis time_left] stands for the
    single-precision computation
    [static_cast<int>(std::ceil(1.0f * playouts / elapsed_centis * time_left))]. *)
Variable UNLIMITED_PLAYOUTS : Z.
Variable playouts_in : Z -> Z -> Z -> Z.

(** [int UCTSearch::est_playouts_left(int elapsed_centis, int time_for_move)] *)
Definition est_playouts_left (s : search) (elapsed_centis time_for_move : Z) : Z :=
  let playouts := m_playouts s in
  let playouts_left :=
    Z.max 0 (Z.min (m_maxplayouts s - playouts) (m_maxvisits s - to_int (root_visits s))) in
  if (elapsed_centis <? 100) || (playouts <? 100) then playouts_left
  else
    let time_left := Z.max 0 (time_for_move - elapsed_centis) in
    Z.min playouts_left (playouts_in playouts elapsed_centis time_left).

(** The first loop of [prune_noncontenders]. *)
Fixpoint most_visits (Nfirst : Z) (cs : list node) : Z :=
  match cs with
  | [] => Nfirst
  | n :: cs' =>
      most_visits (if valid n then Z.max Nfirst (to_int (get_visits n)) else Nfirst) cs'
  end.

(** Its second loop: the children as it leaves them, and [pruned_nodes]. *)
Fixpoint mark_noncontenders (min_required_visits : Z) (prune : bool) (cs : list node)
  : list node * Z :=
  match cs with
  | [] => ([], 0)
  | n :: cs' =>
      let '(rest, pruned_nodes) := mark_noncontenders min_required_visits prune cs' in
      if valid n then
        let has_enough_visits := min_required_visits <=? get_visits n in
        let n' := if prune then set_active has_enough_visits n else n in
        (n' :: rest, if has_enough_visits then pruned_nodes else pruned_nodes + 1)
      else (n :: rest, pruned_nodes)
  end.

Definition min_required_visits (s : search) (elapsed_centis time_for_move : Z) : Z :=
  most_visits 0 (children s) - est_playouts_left s elapsed_centis time_for_move.

(** The valid children whose visits are below the bar. *)
Definition noncontenders (required : Z) (cs : list node) : list node :=
  List.filter (fun n => valid n && (get_visits n <? required)) cs.

(** The children with the [active] flag of every valid one set to whether
    it reaches the bar. *)
Definition deactivate_noncontenders (required : Z) (cs : list node) : list node :=
  List.map (fun n => if valid n then set_active (required <=? get_visits n) n else n) cs.

(** [size_t UCTSearch::prune_noncontenders(int elapsed_centis,
    int time_for_move, bool prune)] *)
Definition prune_noncontenders (s : search) (elapsed_centis time_for_move : Z) (prune : bool)
  : search * Z :=
  let '(cs, pruned_nodes) :=
    mark_noncontenders (min_required_visits s elapsed_centis time_for_move) prune
      (children s) in
  (with_children cs s, pruned_nodes).

(** [bool UCTSearch::have_alternate_moves(int elapsed_centis,
    int time_for_move)]; [false] ends the loop of [think]. *)
Definition have_alternate_moves (s : search) (elapsed_centis time_for_move : Z)
  : search * bool :=
  if enabled_eqb (cfg_timemanage s) OFF then (s, true)
  else
    let prune := negb (enabled_eqb (cfg_timemanage s) NO_PRUNING) in
    if Z.of_nat (length (children s)) =? 0 then (s, true)
    else
      let '(s', pruned) := prune_noncontenders s elapsed_centis time_for_move prune in
      let size := Z.of_nat (length (children s')) in
      if pruned <? size - 1 then (s', true)
      else if (negb (can_accumulate_time s') || (m_maxplayouts s' <? UNLIMITED_PLAYOUTS))
              && negb (enabled_eqb (cfg_timemanage s') FAST)
      then (s', true)
      else (s', false).

End WithRate.

(** A run: self-play style settings ([NO_PRUNING]), unlimited playouts and
    visits, a clock that can accumulate time; 1000 playouts in 5 s of a
    5.1 s budget; two children with 900 and 100 visits. The rate estimate
    is computed exactly. *)
Definition exact_playouts_in (playouts elapsed_centis time_left : Z) : Z :=
  (playouts * time_left + elapsed_centis - 1) / elapsed_centis.

Definition self_play_search : search :=
  mkSearch NO_PRUNING 1000 1073741823 1073741823 1001
    [mkNode 900 true true; mkNode 100 true true] true.

End TimeManage.

(* ===================================================================== *)
(** * Simulations: [UCTSearch::play_simulation], [eval_from_score], the
      two [UCTSearch::backup]s, [UCTSearch::failed_simulation] *)
(* ===================================================================== *)

Module Search.

(** The answer of [UCTNode::get_action]. *)
Inductive Action : Type :=
| WRITE
| FAIL
| READ
| BACKUP.

Inductive expand_state_t : Type :=
| IDLE
| WRITING
| READY
| INVALID.

Section WithFloats.

Context {F : Type} `{FloatOps F}.

(** Modelled from the spec: the class [UCTNode] ([UCTNode.h] and
    [UCTNode.cpp] are not among the sources), with the fields of the data
    model: the move, the prior, the visit count, the value sum, the
    virtual-loss counter, the accumulated virtual loss, the children (as
    pointers), the expansion state, the lock and the active flag. *)
Record UCTNode : Type := mkUCTNode {
  get_move : Z;
  get_policy : F;
  get_visits : F;
  value_sum : F;
  m_virtual_loss : Z;
  m_accumulated_vl : Z;
  get_children : list nat;
  expand_state : expand_state_t;
  m_lock : Z;
  active : bool
}.

(** Nodes are reached through pointers; the heap maps a pointer to the
    node it points to. *)
Abbreviation heap := (gmap nat UCTNode).

(** Modelled from the spec: [UCTNode::virtual_loss(vl)] adds [vl] units to
    the node's virtual-loss counter. *)
Definition virtual_loss (vl : Z) (n : UCTNode) : UCTNode :=
  mkUCTNode (get_move n) (get_policy n) (get_visits n) (value_sum n)
    (m_virtual_loss n + vl) (m_accumulated_vl n) (get_children n)
    (expand_state n) (m_lock n) (active n).

(** Modelled from the spec: [UCTNode::virtual_loss_undo(vl)] removes [vl]
    units from the node's virtual-loss counter. *)
Definition virtual_loss_undo (vl : Z) (n : UCTNode) : UCTNode :=
  mkUCTNode (get_move n) (get_policy n) (get_visits n) (value_sum n)
    (m_virtual_loss n - vl) (m_accumulated_vl n) (get_children n)
    (expand_state n) (m_lock n) (active n).

(** Modelled from the spec: [UCTNode::update(eval, vl, factor, sel_factor)],
    the per-node step of the backup: with the accumulated factor of the
    path from this node to the leaf ([sel_factor]),
    [value_sum += eval * accumulated_factor],
    [visits += 1 * accumulated_factor], and [vl] units of virtual loss are
    removed. *)
Definition update (eval : F) (vl : Z) (factor sel_factor : F) (n : UCTNode) : UCTNode :=
  mkUCTNode (get_move n) (get_policy n)
    (fadd (get_visits n) (fmul f_1 sel_factor))
    (fadd (value_sum n) (fmul eval sel_factor))
    (m_virtual_loss n - vl) (m_accumulated_vl n) (get_children n)
    (expand_state n) (m_lock n) (active n).

(** [node->m_accumulated_vl.exchange(0)]: the value held and the node with
    the counter at 0. *)
Definition exchange_accumulated_vl (n : UCTNode) : Z * UCTNode :=
  (m_accumulated_vl n,
   mkUCTNode (get_move n) (get_policy n) (get_visits n) (value_sum n)
     (m_virtual_loss n) 0 (get_children n)
     (expand_state n) (m_lock n) (active n)).

(** What the network hands to the backup. *)
Record Netresult : Type := mkNetresult {
  winrate : F;
  policy : list F
}.

(** The game state and the [UCTNode] methods whose code is elsewhere are
    taken as they come. Methods of a node take its pointer and the heap. *)
Context {GameState : Type}.

Record collaborators : Type := mkCollaborators {
  get_passes : GameState -> Z;
  final_score : GameState -> F;
  get_to_move : GameState -> color;
  play_move : Z -> GameState -> GameState;
  superko : GameState -> bool;
  PASS : Z;
  get_min_psa_ratio : F;
  create_children : Netresult -> Z -> GameState -> F -> nat -> heap -> heap;
  prepare_root_node : GameState -> nat -> heap -> heap;
  release_writer : nat -> heap -> heap;
  release_reader : nat -> heap -> heap;
  invalidate : nat -> heap -> heap;
  get_action : bool -> nat -> heap -> Action * heap;
  uct_select_child : color -> bool -> nat -> heap -> option (nat * F) * heap;
  get_net_eval : color -> nat -> heap -> F
}.

Variable C : collaborators.

Let get_passes := get_passes C.
Let final_score := final_score C.
Let get_to_move := get_to_move C.
Let play_move := play_move C.
Let superko := superko C.
Let PASS := PASS C.
Let get_min_psa_ratio := get_min_psa_ratio C.
Let create_children := create_children C.
Let prepare_root_node := prepare_root_node C.
Let release_writer := release_writer C.
Let release_reader := release_reader C.
Let invalidate := invalidate C.
Let get_action := get_action C.
Let uct_select_child := uct_select_child C.
Let get_net_eval := get_net_eval C.

(** [struct BackupData]: the recorded path of (node, factor) pairs, the
    state handed to the network, the evaluation, the symmetry and the
    pending counter of the search that started the simulation. *)
Record BackupData : Type := mkBackupData {
  path : list (nat * F);
  state : option GameState;
  eval : F;
  symmetry : Z;
  pending_counter : nat
}.

Definition set_eval (e : F) (bd : BackupData) : BackupData :=
  mkBackupData (path bd) (state bd) e (symmetry bd) (pending_counter bd).

Definition set_state (g : GameState) (bd : BackupData) : BackupData :=
  mkBackupData (path bd) (Some g) (eval bd) (symmetry bd) (pending_counter bd).

Definition push_path (node : nat) (factor : F) (bd : BackupData) : BackupData :=
  mkBackupData (path bd ++ [(node, factor)]) (state bd) (eval bd) (symmetry bd)
    (pending_counter bd).

(** The part of the search object the simulations touch: the nodes, the
    pending counters (each search call allocates its own), [m_playouts] and
    [m_root_prepared]. *)
Record world : Type := mkWorld {
  nodes : heap;
  counters : gmap nat Z;
  m_playouts : Z;
  m_root_prepared : bool
}.

Definition on_nodes (f : heap -> heap) (w : world) : world :=
  mkWorld (f (nodes w)) (counters w) (m_playouts w) (m_root_prepared w).

(** [node->method(...)] for a method that changes the node only. *)
Definition on_node (f : UCTNode -> UCTNode) (node : nat) (w : world) : world :=
  on_nodes (alter f node) w.

(** Decrementing the counter behind a [pending_counter] pointer. *)
Definition decrement_pending (pc : nat) (w : world) : world :=
  mkWorld (nodes w) (alter (fun v => v - 1) pc (counters w)) (m_playouts w)
    (m_root_prepared w).

(** The loop of [backup(BackupData&, uint16_t)] over [path.rbegin() + 1 ..
    path.rend()]; [rev_rest] is that range. *)
Fixpoint backup_loop (e : F) (vl : Z) (factor : F) (rev_rest : list (nat * F)) (w : world)
  : world :=
  match rev_rest with
  | [] => w
  | (node, nf_factor) :: rest' =>
      let sel_factor := fmul factor nf_factor in
      backup_loop e vl sel_factor rest' (on_node (update e vl factor sel_factor) node w)
  end.

(** [void UCTSearch::backup(BackupData& bd, uint16_t vl)]. The path is
    never empty when this is called: [play_simulation] records the node
    before anything else. *)
Definition backup_vl (bd : BackupData) (vl : Z) (w : world) : world :=
  let vl := to_uint16 vl in
  match rev (path bd) with
  | [] => decrement_pending (pending_counter bd) w
  | (_, factor) :: rev_rest =>
      decrement_pending (pending_counter bd)
        (backup_loop (eval bd) vl factor rev_rest w)
  end.

(** [void UCTSearch::failed_simulation(BackupData& bd, uint16_t vl,
    bool incr)] ([incr] defaults to [false]). *)
Definition failed_simulation (bd : BackupData) (vl : Z) (incr : bool) (w : world) : world :=
  let vl := to_uint16 vl in
  decrement_pending (pending_counter bd)
    (fold_left
       (fun w nf =>
          if incr then on_node (virtual_loss vl) (fst nf) w
          else on_node (virtual_loss_undo vl) (fst nf) w)
       (rev (path bd)) w).

(** [void UCTSearch::backup(BackupData& bd, Netresult_ptr netresult)], the
    callback run when the evaluation of the node at the end of the path
    arrives. [None]: the path is empty or the node is not on the heap
    (neither happens for a recorded path). *)
Definition backup (bd : BackupData) (netresult : Netresult) (w : world)
  : option (BackupData * world) :=
  match last (path bd), state bd with
  | Some (node, factor), Some st =>
      match nodes w !! node with
      | None => None
      | Some n0 =>
          let is_root := Nat.eqb (length (path bd)) 1 in
          let min_psa_ratio := if is_root then f_0 else get_min_psa_ratio in
          let first_visit := feqb (get_visits n0) f_0 in
          let w1 :=
            on_nodes (create_children netresult (symmetry bd) st min_psa_ratio node) w in
          let vl :=
            match nodes w1 !! node with
            | Some n1 => fst (exchange_accumulated_vl n1)
            | None => 0
            end in
          let w2 := on_node (fun n => snd (exchange_accumulated_vl n)) node w1 in
          let bd1 :=
            if first_visit then
              let e := winrate netresult in
              set_eval (match get_to_move st with
                        | BLACK => e
                        | WHITE => fsub f_1 e
                        end) bd
            else bd in
          let w3 :=
            if first_visit then on_node (update (eval bd1) vl f_1 factor) node w2 else w2 in
          let w4 :=
            if is_root && negb (m_root_prepared w3) then
              mkWorld (prepare_root_node st node (nodes w3)) (counters w3)
                (m_playouts w3) true
            else w3 in
          let w5 := on_nodes (release_writer node) w4 in
          let w6 :=
            if first_visit then backup_vl bd1 vl w5
            else failed_simulation bd1 vl false w5 in
          Some (bd1, mkWorld (nodes w6) (counters w6) (m_playouts w6 + 1)
                       (m_root_prepared w6))
      end
  | _, _ => None
  end.

(** [float eval_from_score(float board_score)] *)
Definition eval_from_score (board_score : F) : F :=
  if flt f_0 board_score then f_1
  else if flt board_score f_0 then f_0
  else f_half.

(** How a call of [play_simulation] ends. *)
Inductive outcome : Type :=
| Submitted (bd : BackupData)   (* WRITE: handed to the network *)
| Bounced                       (* FAIL *)
| BackedUp (bd : BackupData)    (* terminal position, or BACKUP *)
| Superko (bd : BackupData)     (* the move played repeats a position *)
| OutOfFuel.

(** [void UCTSearch::play_simulation(std::unique_ptr<GameState> currstate,
    UCTNode* node, std::atomic<int>* pending_counter, int gnum, int i)]:
    the [while (true)] loop, one iteration per unit of [fuel]. *)
Fixpoint play_loop (fuel : nat) (currstate : GameState) (node : nat) (factor : F)
    (is_root : bool) (bd : BackupData) (w : world) : outcome * world :=
  match fuel with
  | O => (OutOfFuel, w)
  | S fuel' =>
      let bd := push_path node factor bd in
      if 2 <=? get_passes currstate then
        (* end of game *)
        let bd := set_eval (eval_from_score (final_score currstate)) bd in
        let w := on_node (update (eval bd) 1 f_1 factor) node w in
        (BackedUp bd, backup_vl bd 1 w)
      else
        let '(action, h) := get_action (is_root && negb (m_root_prepared w)) node (nodes w) in
        let w := on_nodes (fun _ => h) w in
        let do_backup (w : world) :=
          let bd := set_eval (get_net_eval BLACK node (nodes w)) bd in
          let w := on_node (update (eval bd) 1 f_1 factor) node w in
          (BackedUp bd, backup_vl bd 1 w) in
        match action with
        | WRITE => (Submitted (set_state currstate bd), w)
        | FAIL => (Bounced, decrement_pending (pending_counter bd) w)
        | READ =>
            let '(child_factor, h) :=
              uct_select_child (get_to_move currstate) is_root node (nodes w) in
            let w := on_nodes (fun _ => release_reader node h) w in
            match child_factor with
            | Some (new_node, new_factor) =>
                let move :=
                  match nodes w !! new_node with
                  | Some n => get_move n
                  | None => PASS
                  end in
                let currstate := play_move move currstate in
                if negb (move =? PASS) && superko currstate then
                  let w := on_nodes (invalidate new_node) w in
                  (Superko bd, failed_simulation bd 1 false w)
                else play_loop fuel' currstate new_node new_factor false bd w
            | None => do_backup w
            end
        | BACKUP => do_backup w
        end
  end.

Definition play_simulation (fuel : nat) (currstate : GameState) (node : nat)
    (pending_counter : nat) (w : world) : outcome * world :=
  play_loop fuel currstate node f_1 true
    (mkBackupData [] None f_0 0 pending_counter) w.

(** The virtual loss at a pointer; nothing is counted where there is no node. *)
Definition vloss_at (h : heap) (node : nat) : Z :=
  match h !! node with
  | Some n => m_virtual_loss n
  | None => 0
  end.

Definition accumulated_at (h : heap) (node : nat) : Z :=
  match h !! node with
  | Some n => m_accumulated_vl n
  | None => 0
  end.

Definition vloss (w : world) (node : nat) : Z := vloss_at (nodes w) node.

Definition accumulated (w : world) (node : nat) : Z := accumulated_at (nodes w) node.

Definition pending (w : world) (pc : nat) : Z :=
  match counters w !! pc with
  | Some v => v
  | None => 0
  end.

(** ** In-flight simulations and what they still have to do *)

(** The last steps of a simulation that reached a terminal position or
    got BACKUP: [node->update(bd.eval, 1, 1.0f, factor); backup(bd, 1);] *)
Definition leaf_backup (bd : BackupData) (w : world) : world :=
  match last (path bd) with
  | Some (node, factor) =>
      backup_vl bd 1 (on_node (update (eval bd) 1 f_1 factor) node w)
  | None => w
  end.

(** The step that completes a simulation in flight: the network result
    arrives for a node being expanded, a superko abort unwinds, or a leaf
    value is backed up. *)
Inductive completion : Type :=
| Expansion (bd : BackupData) (netresult : Netresult)
| SuperkoAbort (bd : BackupData)
| LeafBackup (bd : BackupData).

Definition complete (c : completion) (w : world) : world :=
  match c with
  | Expansion bd netresult =>
      match backup bd netresult w with
      | Some (_, w') => w'
      | None => w
      end
  | SuperkoAbort bd => failed_simulation bd 1 false w
  | LeafBackup bd => leaf_backup bd w
  end.

(** How often a node stands on a path (once, on a path in a tree). *)
Fixpoint occurrences (node : nat) (p : list (nat * F)) : Z :=
  match p with
  | [] => 0
  | (n, _) :: p' => (if Nat.eqb n node then 1 else 0) + occurrences node p'
  end.

(** [w'] is [w] with [delta node] units of virtual loss taken off every
    node: no node is freed and the accumulated counts are as they were. *)
Definition takes_off (delta : nat -> Z) (w w' : world) : Prop :=
  (forall node, is_Some (nodes w !! node) -> is_Some (nodes w' !! node))
  /\ (forall node, accumulated w' node = accumulated w node)
  /\ (forall node, vloss w' node = vloss w node - delta node).

(** A node method that removes [vl] units and leaves the accumulated count. *)
Definition removes (vl : Z) (f : UCTNode -> UCTNode) : Prop :=
  forall n, m_virtual_loss (f n) = m_virtual_loss n - vl
            /\ m_accumulated_vl (f n) = m_accumulated_vl n.

(** A method that leaves the two virtual-loss counters of every node as
    they are, frees no node, and creates nodes without virtual loss. *)
Definition keeps_counters (f : heap -> heap) : Prop :=
  forall (h : heap) (node : nat),
    (is_Some (h !! node) -> is_Some (f h !! node))
    /\ vloss_at (f h) node = vloss_at h node
    /\ accumulated_at (f h) node = accumulated_at h node.

(** [n'] is [n] up to the statistics a backup writes: the move, the
    prior, the children, the expansion state, the lock, the active flag
    and the accumulated count are the same. *)
Definition same_shape (n n' : UCTNode) : Prop :=
  get_move n' = get_move n
  /\ get_policy n' = get_policy n
  /\ get_children n' = get_children n
  /\ expand_state n' = expand_state n
  /\ m_lock n' = m_lock n
  /\ active n' = active n
  /\ m_accumulated_vl n' = m_accumulated_vl n.

(** No node is created or freed, and every node keeps its shape. *)
Definition shape_kept (w w' : world) : Prop :=
  forall node,
    match nodes w !! node, nodes w' !! node with
    | Some n, Some n' => same_shape n n'
    | None, None => True
    | _, _ => False
    end.

(** The frame that the expansion relies on. *)
Definition well_behaved : Prop :=
  (forall netresult sym st ratio node,
     keeps_counters (create_children netresult sym st ratio node))
  /\ (forall st node, keeps_counters (prepare_root_node st node))
  /\ (forall node, keeps_counters (release_writer node)).

End WithFloats.

Arguments UCTNode F : clear implicits.
Abbreviation heap F := (gmap nat (UCTNode F)).
Arguments Netresult F : clear implicits.
Arguments world F : clear implicits.
Arguments BackupData F GameState : clear implicits.
Arguments outcome F GameState : clear implicits.
Arguments collaborators F GameState : clear implicits.
Arguments completion F GameState : clear implicits.

End Search.

(** A small tree to run the backups on, over the rational instance: the
    root at pointer 0 and its child at pointer 1, which is being expanded.
    The collaborators do nothing to the heap. *)
Module SearchDemo.
Import Search.

Definition quiet : collaborators Q unit :=
  mkCollaborators
    (fun _ => 0) (fun _ => 0%Q) (fun _ => BLACK) (fun _ g => g) (fun _ => false) (-1)
    0%Q
    (fun _ _ _ _ _ h => h) (fun _ _ h => h) (fun _ h => h) (fun _ h => h) (fun _ h => h)
    (fun _ _ h => (WRITE, h)) (fun _ _ _ h => (None, h)) (fun _ _ _ => (1 # 2)%Q).

Definition a_node (move vl acc : Z) (st : expand_state_t) : UCTNode Q :=
  mkUCTNode move 0%Q 0%Q 0%Q vl acc [] st 0 true.

(** Both nodes carry [vl] units of virtual loss; [acc] is the accumulated
    count of the node under expansion; one simulation is pending. *)
Definition expanding_world (vl acc : Z) : world Q :=
  mkWorld (<[1%nat := a_node 72 vl acc WRITING]> {[0%nat := a_node (-1) vl 0 READY]})
    {[0%nat := 1]} 0 true.

Definition root_to_child : BackupData Q unit :=
  mkBackupData [(0%nat, 1%Q); (1%nat, 1%Q)] (Some tt) 0%Q 0 0.

Definition even_result : Netresult Q := mkNetresult (1 # 2)%Q [].

(** The game is over at the child (two passes) and Black is ahead by 5;
    the child has never been expanded. One simulation has come down to
    it. *)
Definition game_over : collaborators Q unit :=
  mkCollaborators
    (fun _ => 2) (fun _ => 5%Q) (fun _ => BLACK) (fun _ g => g) (fun _ => false) (-1)
    0%Q
    (fun _ _ _ _ _ h => h) (fun _ _ h => h) (fun _ h => h) (fun _ h => h) (fun _ h => h)
    (fun _ _ h => (WRITE, h)) (fun _ _ _ h => (None, h)) (fun _ _ _ => (1 # 2)%Q).

Definition at_terminal_child : world Q :=
  mkWorld (<[1%nat := a_node (-1) 1 0 IDLE]> {[0%nat := a_node 72 1 0 READY]})
    {[0%nat := 1]} 0 true.

Definition came_from_root : BackupData Q unit :=
  mkBackupData [(0%nat, 1%Q)] None 0%Q 0 0.

End SearchDemo.

(* ===================================================================== *)
(** * The root: [UCTSearch::advance_to_new_rootstate],
      [UCTSearch::update_root] and the background deletion it starts *)
(* ===================================================================== *)

Module RootAdvance.

(** Modelled from the spec: the class [UCTNode] as the root advance sees
    it ([UCTNode.h] is not among the sources). The tree owns its nodes
    ([std::unique_ptr] children): a node has its address, the move that
    enters it, and the children it owns. The counters of a node, which the
    workers keep writing, are held apart, by address. *)
#[warnings="-register-all"]
Inductive UCTNode : Type :=
| mkUCTNode (addr : nat) (move : Z) (children : list UCTNode).

Definition addr_of (n : UCTNode) : nat :=
  match n with mkUCTNode a _ _ => a end.

Definition get_move (n : UCTNode) : Z :=
  match n with mkUCTNode _ m _ => m end.

Definition get_children (n : UCTNode) : list UCTNode :=
  match n with mkUCTNode _ _ cs => cs end.

(** The addresses of a node and of everything below it: what
    [delete node] frees. *)
Fixpoint addrs (n : UCTNode) : list nat :=
  match n with
  | mkUCTNode a _ cs => a :: flat_map addrs cs
  end.

Definition addrs_of_root (r : option UCTNode) : list nat :=
  match r with
  | Some n => addrs n
  | None => []
  end.

(** The first child entered by [move], taken out of the list. *)
Fixpoint take_child (move : Z) (cs : list UCTNode) : option UCTNode * list UCTNode :=
  match cs with
  | [] => (None, [])
  | c :: cs' =>
      if get_move c =? move then (Some c, cs')
      else let '(found, rest) := take_child move cs' in (found, c :: rest)
  end.

(** Modelled from the spec: [UCTNode::find_child(move)], which "promotes
    the matched child" ([UCTNode.cpp] is not among the sources): the child
    entered by [move] is handed over to the caller, so that the old root
    no longer owns it; no child when the move is not in the tree. The
    second component is the old root as it is left. *)
Definition find_child (move : Z) (n : UCTNode) : option UCTNode * UCTNode :=
  let '(found, rest) := take_child move (get_children n) in
  (found, mkUCTNode (addr_of n) (get_move n) rest).

(** The argument of the task handed to [m_delete_futures]: the detached
    nodes and the pending counter of the search that used them. *)
Record delete_task : Type := mkDeleteTask {
  to_delete : list UCTNode;
  pending_counter : nat
}.

Section WithGame.

Context {F : Type} `{FloatOps F} {GameState : Type}.

(** The game state is an external collaborator. *)
Record game : Type := mkGame {
  get_komi : GameState -> F;
  get_movenum : GameState -> Z;
  undo_move : GameState -> GameState;
  forward_move : GameState -> GameState;
  get_last_move : GameState -> Z;
  play_move : Z -> GameState -> GameState;
  get_hash : GameState -> Z;
  PASS : Z
}.

Variable G : game.

(** The members of [UCTSearch] that [update_root] reads and writes.
    Pointers to pending counters are addresses; [next_addr] and
    [next_counter] are where [make_unique<UCTNode>] and
    [new std::atomic<int>(0)] allocate next. *)
Record UCTSearch : Type := mkUCTSearch {
  m_root : option UCTNode;
  m_last_rootstate : option GameState;
  m_rootstate : GameState;
  m_gtpstate : GameState;
  m_pending_counter : option nat;
  m_playouts : Z;
  m_positions : Z;
  m_root_prepared : bool;
  m_run : bool;
  m_delete_futures : list delete_task;
  next_addr : nat;
  next_counter : nat
}.

Definition set_root (r : option UCTNode) (s : UCTSearch) : UCTSearch :=
  mkUCTSearch r (m_last_rootstate s) (m_rootstate s) (m_gtpstate s)
    (m_pending_counter s) (m_playouts s) (m_positions s) (m_root_prepared s) (m_run s)
    (m_delete_futures s) (next_addr s) (next_counter s).

Definition set_last_rootstate (g : option GameState) (s : UCTSearch) : UCTSearch :=
  mkUCTSearch (m_root s) g (m_rootstate s) (m_gtpstate s)
    (m_pending_counter s) (m_playouts s) (m_positions s) (m_root_prepared s) (m_run s)
    (m_delete_futures s) (next_addr s) (next_counter s).

Definition set_rootstate (g : GameState) (s : UCTSearch) : UCTSearch :=
  mkUCTSearch (m_root s) (m_last_rootstate s) g (m_gtpstate s)
    (m_pending_counter s) (m_playouts s) (m_positions s) (m_root_prepared s) (m_run s)
    (m_delete_futures s) (next_addr s) (next_counter s).

Definition set_gtpstate (g : GameState) (s : UCTSearch) : UCTSearch :=
  mkUCTSearch (m_root s) (m_last_rootstate s) (m_rootstate s) g
    (m_pending_counter s) (m_playouts s) (m_positions s) (m_root_prepared s) (m_run s)
    (m_delete_futures s) (next_addr s) (next_counter s).

(** [std::make_unique<UCTNode>(FastBoard::PASS, 0.0f)] *)
Definition fresh_root (s : UCTSearch) : UCTNode := mkUCTNode (next_addr s) (PASS G) [].

Definition allocate_root (s : UCTSearch) : UCTSearch :=
  mkUCTSearch (Some (fresh_root s)) (m_last_rootstate s) (m_rootstate s) (m_gtpstate s)
    (m_pending_counter s) (m_playouts s) (m_positions s) (m_root_prepared s) (m_run s)
    (m_delete_futures s) (S (next_addr s)) (next_counter s).

(** The loop [for (i = 0; i < depth; i++)] that replays the moves:
    [test] is moved forward, the child entered by its last move becomes
    the root, the old root goes to [to_delete], and the move is played on
    the last root state. [false] as soon as a move has no child. *)
Fixpoint replay (depth : nat) (test : GameState) (root : UCTNode) (last : GameState)
    (to_delete : list UCTNode)
  : bool * GameState * option UCTNode * GameState * list UCTNode :=
  match depth with
  | O => (true, test, Some root, last, to_delete)
  | S depth' =>
      let test := forward_move G test in
      let move := get_last_move G test in
      let '(child, oldroot) := find_child move root in
      let to_delete := to_delete ++ [oldroot] in
      match child with
      | None => (false, test, None, last, to_delete)
      | Some child => replay depth' test child (play_move G move last) to_delete
      end
  end.

(** [bool UCTSearch::advance_to_new_rootstate(std::list<UCTNode*>&
    to_delete)] *)
Definition advance_to_new_rootstate (s : UCTSearch) (to_delete : list UCTNode)
  : bool * UCTSearch * list UCTNode :=
  match m_root s, m_last_rootstate s with
  | Some root, Some last =>
      if negb (feqb (get_komi G (m_rootstate s)) (get_komi G last)) then
        (false, s, to_delete)
      else
        let depth := to_int (get_movenum G (m_rootstate s) - get_movenum G last) in
        if depth <? 0 then (false, s, to_delete)
        else
          let test := Nat.iter (Z.to_nat depth) (undo_move G) (m_rootstate s) in
          if negb (get_hash G last =? get_hash G test) then (false, s, to_delete)
          else
            let '(ok, test, root', last', to_delete) :=
              replay (Z.to_nat depth) test root last to_delete in
            let s := set_last_rootstate (Some last') (set_root root' s) in
            if negb ok then (false, s, to_delete)
            else if negb (get_hash G last' =? get_hash G test) then (false, s, to_delete)
            else (true, s, to_delete)
  | _, _ => (false, s, to_delete)
  end.

(** ** The ways the new position can fail to match the tree *)

(** The node reached from [root] by the moves that lead from [test] to
    the current position, when each of them has its child. *)
Fixpoint descend (depth : nat) (test : GameState) (root : UCTNode) : option UCTNode :=
  match depth with
  | O => Some root
  | S depth' =>
      let test := forward_move G test in
      match fst (find_child (get_last_move G test) root) with
      | None => None
      | Some child => descend depth' test child
      end
  end.

(** [test] moved forward again, and the last root state with the same
    moves played on it. *)
Fixpoint replayed (depth : nat) (test last : GameState) : GameState * GameState :=
  match depth with
  | O => (test, last)
  | S depth' =>
      let test := forward_move G test in
      replayed depth' test (play_move G (get_last_move G test) last)
  end.

Record comparison : Type := mkComparison {
  depth : Z;                (* moves between the two root states *)
  rewound : GameState       (* the current state with that many moves undone *)
}.

Definition compare (now last : GameState) : comparison :=
  let depth := to_int (get_movenum G now - get_movenum G last) in
  mkComparison depth (Nat.iter (Z.to_nat depth) (undo_move G) now).

Definition komi_changed (now last : GameState) : Prop :=
  feqb (get_komi G now) (get_komi G last) = false.

Definition moved_backwards (now last : GameState) : Prop :=
  depth (compare now last) < 0.

(** The position the tree was searched from is not the one the game went
    through, before or after the moves are replayed. *)
Definition hash_differs (now last : GameState) : Prop :=
  let c := compare now last in
  get_hash G last <> get_hash G (rewound c)
  \/ (let '(test, last') := replayed (Z.to_nat (depth c)) (rewound c) last in
      get_hash G last' <> get_hash G test).

Definition move_not_in_tree (now last : GameState) (root : UCTNode) : Prop :=
  let c := compare now last in
  descend (Z.to_nat (depth c)) (rewound c) root = None.

Definition mismatch (now last : GameState) (root : UCTNode) : Prop :=
  move_not_in_tree now last root
  \/ hash_differs now last
  \/ komi_changed now last
  \/ moved_backwards now last.

(** The first part of [void UCTSearch::update_root()]: from its start to
    [release_writer()], [m_run = true] and [m_cv.notify_all()]. It is the
    state in which the woken workers find the search, not yet the state
    in which the function returns: the closing loop, which waits for the
    workers, is [await_root_prepared] below, and the whole function is
    [update_root_returns]. *)
Definition update_root (s : UCTSearch) : UCTSearch :=
  let s := set_rootstate (m_gtpstate s) s in
  let '(advanced, s, to_delete) := advance_to_new_rootstate s [] in
  let '(s, to_delete) :=
    if negb advanced || negb (bool_decide (is_Some (m_root s))) then
      let to_delete :=
        match m_root s with
        | Some root => to_delete ++ [root]
        | None => to_delete
        end in
      (allocate_root s, to_delete)
    else (s, to_delete) in
  let tasks :=
    match m_pending_counter s, to_delete with
    | Some pc, _ :: _ => m_delete_futures s ++ [mkDeleteTask to_delete pc]
    | _, _ => m_delete_futures s
    end in
  mkUCTSearch (m_root s) None (m_rootstate s) (m_gtpstate s)
    (Some (next_counter s)) 0 0 false true
    tasks (next_addr s) (S (next_counter s)).

(** What the closing loop finds each time it reads [m_root_prepared]: the
    members that the workers and the network callbacks write once the
    writer is released. They write inside the root node (the children
    they grow), never [m_root] itself; they allocate nodes, count playouts
    and positions, and set the flag when the root is expanded. *)
Record progress : Type := mkProgress {
  grown_children : list UCTNode;
  seen_next_addr : nat;
  seen_playouts : Z;
  seen_positions : Z;
  seen_root_prepared : bool
}.

(** The search with the workers' members as a reading finds them. *)
Definition at_reading (p : progress) (s : UCTSearch) : UCTSearch :=
  mkUCTSearch
    (match m_root s with
     | Some root => Some (mkUCTNode (addr_of root) (get_move root) (grown_children p))
     | None => None
     end)
    (m_last_rootstate s) (m_rootstate s) (m_gtpstate s) (m_pending_counter s)
    (seen_playouts p) (seen_positions p) (seen_root_prepared p) (m_run s)
    (m_delete_futures s) (seen_next_addr p) (next_counter s).

(** The closing loop of [update_root]:
<<
    while (!m_root_prepared) {
        std::this_thread::sleep_for(std::chrono::milliseconds(20));
    }
>>
    on the successive readings of its test. It ends at the first reading
    that finds the flag set; [None] when no reading does (the loop is
    still asleep). *)
Fixpoint await_root_prepared (readings : list progress) (s : UCTSearch)
    : option UCTSearch :=
  match readings with
  | [] => None
  | p :: later =>
      if seen_root_prepared p then Some (at_reading p s)
      else await_root_prepared later s
  end.

(** [void UCTSearch::update_root()] as a whole: the state in which it
    returns. *)
Definition update_root_returns (readings : list progress) (s : UCTSearch)
    : option UCTSearch :=
  await_root_prepared readings (update_root s).

End WithGame.

Arguments game F GameState : clear implicits.
Arguments UCTSearch GameState : clear implicits.

(** ** The deletion task
<<
    auto root = to_delete.front();
    to_delete.pop_front();
    while (pending_counter->load() > 0 || root->m_virtual_loss) { sleep }
    for (auto node : to_delete) { tg0.add_task([node]() { delete node; }); }
    delete root;
    delete pending_counter;
>> *)

(** What the task can read each time round its loop: the value behind its
    pending counter and the virtual loss at each address. *)
Record observed : Type := mkObserved {
  pending_value : Z;
  virtual_loss_at : nat -> Z
}.

(** The [while] condition, read on the front of the list (the list is
    not empty: [update_root] starts the task only then). *)
Definition must_wait (t : delete_task) (o : observed) : bool :=
  match to_delete t with
  | [] => false
  | root :: _ =>
      (0 <? pending_value o) || negb (virtual_loss_at o (addr_of root) =? 0)
  end.

(** One turn of the task on what it observes: the addresses it frees
    ([None] while it sleeps). *)
Definition poll (t : delete_task) (o : observed) : option (list nat) :=
  if must_wait t o then None else Some (flat_map addrs (to_delete t)).

(** The task on the successive observations of its turns: the turn at
    which it deletes, with what it frees. *)
Fixpoint run_task (t : delete_task) (turns : list observed) : option (nat * list nat) :=
  match turns with
  | [] => None
  | o :: turns' =>
      match poll t o with
      | Some freed => Some (O, freed)
      | None =>
          match run_task t turns' with
          | Some (k, freed) => Some (S k, freed)
          | None => None
          end
      end
  end.

End RootAdvance.

(** A game to run the root advance on, over the rational instance: a
    position is its komi, the moves played (latest first) and the moves
    undone (next to redo first); the hash is computed from the moves
    played. *)
Module RootAdvanceDemo.
Import RootAdvance.

Record position : Type := mkPosition {
  komi : Q;
  played : list Z;
  undone : list Z
}.

Definition go : game Q position :=
  mkGame
    komi
    (fun p => Z.of_nat (length (played p)))
    (fun p => match played p with
              | m :: ms => mkPosition (komi p) ms (m :: undone p)
              | [] => p
              end)
    (fun p => match undone p with
              | m :: ms => mkPosition (komi p) (m :: played p) ms
              | [] => p
              end)
    (fun p => match played p with
              | m :: _ => m
              | [] => -1
              end)
    (fun m p => mkPosition (komi p) (m :: played p) [])
    (fun p => fold_right (fun m h => h * 512 + (m + 2)) 1 (played p))
    (-1).

(** The tree searched from the empty board: the root (address 0), its
    children for the moves 72 (address 1, with a child for move 60 at
    address 3) and 73 (address 2). *)
Definition old_tree : UCTNode :=
  mkUCTNode 0 (-1) [mkUCTNode 1 72 [mkUCTNode 3 60 []]; mkUCTNode 2 73 []].

Definition empty_board : position := mkPosition (15 # 2) [] [].

Definition searched (gtp : position) : UCTSearch position :=
  mkUCTSearch (Some old_tree) (Some empty_board) empty_board gtp (Some 0%nat)
    1600 1600 true true [] 4 1.

(** The game went on with a move the search never expanded. *)
Definition unexpected_move : position := mkPosition (15 # 2) [100] [].

(** The same position under another komi. *)
Definition other_komi : position := mkPosition (13 # 2) [] [].

(** A search left behind after the move 72, with the game now taken back
    to the empty board. *)
Definition taken_back : UCTSearch position :=
  mkUCTSearch (Some old_tree) (Some (mkPosition (15 # 2) [72] [])) empty_board
    empty_board (Some 0%nat) 1600 1600 true true [] 4 1.

(** The game went on with the move 72, which is in the tree. *)
Definition one_move_on : position := mkPosition (15 # 2) [72] [].

(** The game went on with the moves 72 and 60, both in the tree. *)
Definition two_moves_on : position := mkPosition (15 # 2) [60; 72] [].

(** What is left of the old root and of its child once the root has
    moved two plies down. *)
Definition left_of_root : UCTNode := mkUCTNode 0 (-1) [mkUCTNode 2 73 []].
Definition left_of_child : UCTNode := mkUCTNode 1 72 [].

Definition two_detached : delete_task := mkDeleteTask [left_of_root; left_of_child] 0.

(** All simulations are done and the old root shows no virtual loss, while
    a unit is still on the node at address 1. *)
Definition residue_below : observed :=
  mkObserved 0 (fun a => if Nat.eqb a 1 then 1 else 0).

Definition still_pending : observed := mkObserved 2 (fun _ => 0).
Definition root_still_loaded : observed :=
  mkObserved 0 (fun a => if Nat.eqb a 0 then 1 else 0).
Definition all_quiet : observed := mkObserved 0 (fun _ => 0).

End RootAdvanceDemo.

(* ===================================================================== *)
(** * The controller and the workers: [UCTSearch::is_running],
      [UCTSearch::stop_thinking], [UCTSearch::search], and the loops of
      [UCTSearch::think] and [UCTSearch::ponder] *)
(* ===================================================================== *)

Module Controller.
Import TimeManage.

(** What the run conditions read besides the search limits: the flag
    [m_run] and the tree size against its bound. *)
Record engine : Type := mkEngine {
  tree : TimeManage.search;
  m_run : bool;
  tree_size : Z;                   (* UCTNodePointer::get_tree_size() *)
  cfg_max_tree_size : Z
}.

Definition with_tree (t : TimeManage.search) (e : engine) : engine :=
  mkEngine t (m_run e) (tree_size e) (cfg_max_tree_size e).

Definition with_m_run (b : bool) (e : engine) : engine :=
  mkEngine (tree e) b (tree_size e) (cfg_max_tree_size e).

(** [bool UCTSearch::is_running() const] *)
Definition is_running (e : engine) : bool :=
  m_run e && (tree_size e <? cfg_max_tree_size e).

(** [bool UCTSearch::stop_thinking(int elapsed_centis, int time_for_move) const] *)
Definition stop_thinking (e : engine) (elapsed_centis time_for_move : Z) : bool :=
  (m_maxplayouts (tree e) <=? m_playouts (tree e))
  || (m_maxvisits (tree e) <=? root_visits (tree e))
  || (time_for_move <=? elapsed_centis).

(** [UCTSearch::search]: whether the worker starts a simulation (otherwise
    it waits on the condition variable for the same condition). *)
Definition search_starts_simulation (e : engine) : bool :=
  is_running e && negb (stop_thinking e 0 1).

(** The two time stamps the loop of [think] keeps. *)
Record stamps : Type := mkStamps {
  last_update : Z;
  last_output : Z
}.

(** The argument of [sleep_for] in the loop of [think], in milliseconds
    (a value that is not positive does not sleep). *)
Definition sleep_ms (cfg_analyze_interval_centis : Z) (k : stamps)
    (elapsed_centis time_for_move : Z) : Z :=
  Z.min (Z.min (cfg_analyze_interval_centis - (elapsed_centis - last_output k))
               (250 - (elapsed_centis - last_update k)))
        (time_for_move - elapsed_centis) * 10.

(** The two reports of one round of the loop, after the sleep: the stamps
    as the round leaves them, whether [output_analysis] ran and whether
    [dump_analysis] ran. *)
Definition report (cfg_analyze_interval_centis : Z) (k : stamps) (elapsed_centis : Z)
  : stamps * bool * bool :=
  let output :=
    negb (cfg_analyze_interval_centis =? 0)
    && (cfg_analyze_interval_centis <? elapsed_centis - last_output k) in
  let last_output' := if output then elapsed_centis else last_output k in
  let dump := 250 <? elapsed_centis - last_update k in
  let last_update' := if dump then elapsed_centis else last_update k in
  (mkStamps last_update' last_output', output, dump).

(** The stamps after the rounds whose clock readings (after the sleep) are
    given, starting from [last_update = 0], [last_output = 0]. *)
Definition stamps_after (cfg_analyze_interval_centis : Z) (readings : list Z) : stamps :=
  fold_left (fun k elapsed_centis => fst (fst (report cfg_analyze_interval_centis k elapsed_centis)))
    readings (mkStamps 0 0).

(** The estimate of the rate is never negative for the arguments
    [est_playouts_left] passes: the code rounds a product of non-negative
    numbers up. *)
Definition rate_is_nonnegative (playouts_in : Z -> Z -> Z -> Z) : Prop :=
  forall playouts elapsed_centis time_left,
    0 <= playouts -> 0 < elapsed_centis -> 0 <= time_left ->
    0 <= playouts_in playouts elapsed_centis time_left.

Section WithRate.

Variable UNLIMITED_PLAYOUTS : Z.
Variable playouts_in : Z -> Z -> Z -> Z.

(** The end of one round of the loop of [think]: [keeprunning] is
    assembled with [&=], so [have_alternate_moves] runs (and prunes) in
    every round. *)
Definition think_keeprunning (e : engine) (elapsed_centis time_for_move : Z)
  : engine * bool :=
  let keeprunning := is_running e in
  let keeprunning := keeprunning && negb (stop_thinking e elapsed_centis time_for_move) in
  let '(t, alternates) :=
    have_alternate_moves UNLIMITED_PLAYOUTS playouts_in (tree e) elapsed_centis time_for_move in
  (with_tree t e, keeprunning && alternates).

End WithRate.

(** After the loop, [think] reactivates every root child. *)
Definition reactivate (cs : list node) : list node := List.map (set_active true) cs.

(** The loop of [ponder] and the assignment [m_run = keeprunning] after
    it. Each round sees the engine as the workers have left it and whether
    input is pending; [None] when the rounds given end before the loop
    does. *)
Fixpoint ponder (rounds : list (engine * bool)) : option engine :=
  match rounds with
  | [] => None
  | (e, input_pending) :: later =>
      let keeprunning := is_running e in
      let keeprunning := keeprunning && negb (stop_thinking e 0 1) in
      if negb input_pending && keeprunning then ponder later
      else Some (with_m_run keeprunning e)
  end.

(** The round at which the loop of [ponder] ends. *)
Fixpoint ponder_last_round (rounds : list (engine * bool)) : option (engine * bool) :=
  match rounds with
  | [] => None
  | (e, input_pending) :: later =>
      if negb input_pending && (is_running e && negb (stop_thinking e 0 1))
      then ponder_last_round later
      else Some (e, input_pending)
  end.

(** An engine in the middle of a search: 500 of 1000 playouts done. *)
Definition busy : engine :=
  mkEngine (TimeManage.mkSearch ON 500 1000 1073741823 501
              [mkNode 400 true true; mkNode 100 true true] false)
           true 1000 100000.

(** The same with the playout limit reached. *)
Definition done : engine :=
  mkEngine (TimeManage.mkSearch ON 1000 1000 1073741823 1001
              [mkNode 900 true true; mkNode 100 true true] false)
           true 1000 100000.

End Controller.

(* ===================================================================== *)
(** * What a simulation leaves of the search's bookkeeping *)
(* ===================================================================== *)

Module SearchFrame.
Import Search.

Section WithFloats.

Context {F : Type} `{FloatOps F} {GameState : Type}.

(** The decrements [play_simulation] itself makes on the pending counter:
    none when the leaf went to the network (the callback [backup] makes it
    then) or when the loop has not returned, one otherwise. *)
Definition settles (out : outcome F GameState) : bool :=
  match out with
  | Submitted _ | OutOfFuel => false
  | Bounced | BackedUp _ | Superko _ => true
  end.

(** The path an outcome carries. *)
Definition recorded (out : outcome F GameState) : option (BackupData F GameState) :=
  match out with
  | Submitted bd | BackedUp bd | Superko bd => Some bd
  | Bounced | OutOfFuel => None
  end.

(** Each node of [w'] carries the statistics it carries in [w]: the same
    visits and value sum, and the same shape. *)
Definition statistics_kept (w w' : world F) : Prop :=
  forall node,
    match nodes w !! node, nodes w' !! node with
    | Some n, Some n' =>
        get_visits n' = get_visits n /\ value_sum n' = value_sum n /\ same_shape n n'
    | None, None => True
    | _, _ => False
    end.

(** Simulations started one after the other at the same node of the same
    position, each with its allowance of rounds and its pending counter:
    how they end, and the world they leave. *)
Fixpoint run_simulations (C : collaborators F GameState) (currstate : GameState)
    (node : nat) (sims : list (nat * nat)) (w : world F)
  : list (outcome F GameState) * world F :=
  match sims with
  | [] => ([], w)
  | (fuel, pending_counter) :: sims' =>
      let '(out, w1) := play_simulation C fuel currstate node pending_counter w in
      let '(outs, w2) := run_simulations C currstate node sims' w1 in
      (out :: outs, w2)
  end.

Definition is_backed_up (out : outcome F GameState) : bool :=
  match out with
  | BackedUp _ => true
  | _ => false
  end.

End WithFloats.

End SearchFrame.

(* ===================================================================== *)
(** * The settings the option commands keep consistent *)
(* ===================================================================== *)

Module Options.

(** Pondering is on only while playouts are not limited (the comment in
    [execute_setoption]: limiting playouts while pondering is still
    enabled makes no sense). *)
Definition pondering_is_unlimited (UNLIMITED_PLAYOUTS : Z) (g : GTP.globals) : Prop :=
  GTP.cfg_allow_pondering g = true -> GTP.cfg_max_playouts g = UNLIMITED_PLAYOUTS.

End Options.

(* ===================================================================== *)
(** * The command line: the input filter and the dispatch of
      [GTP::execute], [known_command], [list_commands] *)
(* ===================================================================== *)

Module GTPInput.

(** A [char] as the number it is compared with. Whether [char] is signed
    or not, a character above 127 lies in none of the ranges the filter
    tests, so the unsigned reading gives the same branch. *)
Definition code (c : ascii) : Z := Z.of_nat (nat_of_ascii c).

(** [std::isspace], [std::isdigit] and [std::tolower] in the C locale. *)
Definition isspace (c : ascii) : bool :=
  (code c =? 32) || ((9 <=? code c) && (code c <=? 13)).

Definition isdigit (c : ascii) : bool := (48 <=? code c) && (code c <=? 57).

Definition isupper (c : ascii) : bool := (65 <=? code c) && (code c <=? 90).

Definition tolower (c : ascii) : ascii :=
  if isupper c then ascii_of_nat (nat_of_ascii c + 32) else c.

(** The characters the filter skips:
    [(c > 0 && c <= 9) || (c >= 11 && c <= 31) || c == 127]. *)
Definition skipped (c : ascii) : bool :=
  ((0 <? code c) && (code c <=? 9))
  || ((11 <=? code c) && (code c <=? 31))
  || (code c =? 127).

(** The string [input] under construction is held with its last character
    first, as the filter only ever looks at its end.

    "eat multi whitespace": when the last two characters are both white
    space, the last one is removed. *)
Definition eat_multi_whitespace (input : list ascii) : list ascii :=
  match input with
  | last :: before :: rest =>
      if isspace before && isspace last then before :: rest else input
  | _ => input
  end.

(** One round of the loop over [xinput]. *)
Definition filter_char (transform_lowercase : bool) (input : list ascii) (c : ascii)
  : list ascii :=
  if code c =? 9 then eat_multi_whitespace (" "%char :: input)
  else if skipped c then input
  else eat_multi_whitespace ((if transform_lowercase then tolower c else c) :: input).

Definition filter (transform_lowercase : bool) (xinput : list ascii) : list ascii :=
  rev (fold_left (filter_char transform_lowercase) xinput []).

(** What the filter lets through. *)
Definition passes (transform_lowercase : bool) (c : ascii) : Prop :=
  skipped c = false /\ (code c =? 9) = false
  /\ (transform_lowercase = true -> isupper c = false).

(** No two white-space characters stand next to each other. *)
Fixpoint single_spaced (l : list ascii) : bool :=
  match l with
  | a :: (b :: _) as t => negb (isspace a && isspace b) && single_spaced t
  | _ => true
  end.

(** [hay.find(needle) != std::string::npos] *)
Fixpoint contains (needle hay : string) : bool :=
  GTP.starts_with needle hay
  || match hay with
     | String _ hay' => contains needle hay'
     | EmptyString => false
     end.

(** The string [input] that [GTP::execute] works on. *)
Definition preprocess (xinput : string) : string :=
  let transform_lowercase := negb (contains "loadsgf" xinput) in
  string_of_list_ascii (filter transform_lowercase (list_ascii_of_string xinput)).

(** [GTP::s_commands] *)
Definition s_commands : list string :=
  [ "protocol_version"; "name"; "version"; "quit"; "known_command"; "list_commands";
    "boardsize"; "clear_board"; "komi"; "play"; "genmove"; "showboard"; "undo";
    "final_score"; "final_status_list"; "time_settings"; "time_left"; "fixed_handicap";
    "place_free_handicap"; "set_free_handicap"; "loadsgf"; "printsgf";
    "kgs-genmove_cleanup"; "kgs-time_settings"; "kgs-game_over"; "heatmap";
    "dyn_komi_test"; "lz-analyze"; "lz-genmove_analyze"; "lz-memory_report";
    "lz-setoption"; "" ]%string.

(** The entries of a table that ends with an empty string. *)
Fixpoint entries (table : list string) : list string :=
  match table with
  | [] => []
  | entry :: table' =>
      if (String.length entry =? 0)%nat then [] else entry :: entries table'
  end.

(** The loop of [known_command]:
    [for (i = 0; s_commands[i].size() > 0; i++) if (tmp == s_commands[i]) ...].
    The table ends with an empty string, so the loop stops before the end
    of the array. *)
Fixpoint listed (table : list string) (tmp : string) : bool :=
  match table with
  | [] => false
  | entry :: table' =>
      if (String.length entry =? 0)%nat then false
      else if String.eqb tmp entry then true
      else listed table' tmp
  end.

(** What [known_command] answers for the word [tmp]. *)
Definition known_command (tmp : string) : bool := listed s_commands tmp.

(** What [list_commands] prints: the entries up to the empty one, each on
    its line. *)
Fixpoint append_entries (outtmp : string) (table : list string) : string :=
  match table with
  | [] => outtmp
  | entry :: table' =>
      if (String.length entry =? 0)%nat then outtmp
      else append_entries (String.append outtmp (String (ascii_of_nat 10) entry)) table'
  end.

Definition list_commands : string :=
  match s_commands with
  | first :: table => append_entries first table
  | [] => EmptyString
  end.

(** The branches of the [if] chain of [GTP::execute]. *)
Inductive branch : Type :=
| protocol_version | name | version | quit | known_command_ | list_commands_
| boardsize | clear_board | komi | play | genmove | lz_analyze | kgs_genmove_cleanup
| undo | showboard | final_score | final_status_list | time_settings | time_left
| auto_ | go | heatmap | dyn_komi_test | fixed_handicap | place_free_handicap
| set_free_handicap | loadsgf | kgs_chat | kgs_game_over | kgs_time_settings
| netbench | printsgf | load_training | save_training | dump_training | dump_debug
| dump_supervised | lz_memory_report | lz_setoption
| no_branch.

(** [command.find(p) == 0] *)
Definition begins (command p : string) : bool := GTP.starts_with p command.

(** The chain, in its order: the first four tests are [command == ...],
    the others [command.find(...) == 0]. *)
Definition dispatch (command : string) : branch :=
  if String.eqb command "protocol_version" then protocol_version
  else if String.eqb command "name" then name
  else if String.eqb command "version" then version
  else if String.eqb command "quit" then quit
  else if begins command "known_command" then known_command_
  else if begins command "list_commands" then list_commands_
  else if begins command "boardsize" then boardsize
  else if begins command "clear_board" then clear_board
  else if begins command "komi" then komi
  else if begins command "play" then play
  else if begins command "genmove" || begins command "lz-genmove_analyze" then genmove
  else if begins command "lz-analyze" then lz_analyze
  else if begins command "kgs-genmove_cleanup" then kgs_genmove_cleanup
  else if begins command "undo" then undo
  else if begins command "showboard" then showboard
  else if begins command "final_score" then final_score
  else if begins command "final_status_list" then final_status_list
  else if begins command "time_settings" then time_settings
  else if begins command "time_left" then time_left
  else if begins command "auto" then auto_
  else if begins command "go" then go
  else if begins command "heatmap" then heatmap
  else if begins command "dyn_komi_test" then dyn_komi_test
  else if begins command "fixed_handicap" then fixed_handicap
  else if begins command "place_free_handicap" then place_free_handicap
  else if begins command "set_free_handicap" then set_free_handicap
  else if begins command "loadsgf" then loadsgf
  else if begins command "kgs-chat" then kgs_chat
  else if begins command "kgs-game_over" then kgs_game_over
  else if begins command "kgs-time_settings" then kgs_time_settings
  else if begins command "netbench" then netbench
  else if begins command "printsgf" then printsgf
  else if begins command "load_training" then load_training
  else if begins command "save_training" then save_training
  else if begins command "dump_training" then dump_training
  else if begins command "dump_debug" then dump_debug
  else if begins command "dump_supervised" then dump_supervised
  else if begins command "lz-memory_report" then lz_memory_report
  else if begins command "lz-setoption" then lz_setoption
  else no_branch.

(** Whether control reaches the statement after the chain,
    [gtp_fail_printf(id, "unknown command")]: when no test holds, and after
    the branch of [dyn_komi_test], the only one that does not end in
    [return] (or [exit]). *)
Definition reaches_unknown_command (b : branch) : bool :=
  match b with
  | no_branch | dyn_komi_test => true
  | _ => false
  end.

End GTPInput.

(* ===================================================================== *)
(** * The descent of a simulation, and the simulations in flight *)
(* ===================================================================== *)

Module Descent.
Import Search.

Section WithCollaborators.

Context {F : Type} `{FloatOps F} {GameState : Type}.
Variable C : collaborators F GameState.

(** Where the loop of [play_simulation] stops descending, with the
    variables it holds there: [currstate], [node], [factor] and [bd]. *)
Inductive stop : Type :=
| AtEndOfGame (currstate : GameState) (node : nat) (factor : F)
    (bd : BackupData F GameState)            (* get_passes() >= 2 *)
| AtWrite (currstate : GameState) (node : nat)
    (bd : BackupData F GameState)            (* case UCTNode::WRITE *)
| AtFail (node : nat)
    (bd : BackupData F GameState)            (* case UCTNode::FAIL *)
| AtBackup (node : nat) (factor : F)
    (bd : BackupData F GameState)            (* BACKUP, or READ without a child *)
| AtSuperko (bd : BackupData F GameState)    (* the move repeats a position *)
| NoFuel.

(** The loop of [play_simulation] as far as the node methods take it:
    [bd.path.emplace_back], the test for the end of the game,
    [get_action], and under READ [uct_select_child], [release_reader],
    [play_move], the superko test and [invalidate]. What
    [play_simulation] then does by itself is [settle]. *)
Fixpoint descent (fuel : nat) (currstate : GameState) (node : nat) (factor : F)
    (is_root : bool) (bd : BackupData F GameState) (w : world F) : stop * world F :=
  match fuel with
  | O => (NoFuel, w)
  | S fuel' =>
      let bd := push_path node factor bd in
      if 2 <=? get_passes C currstate then
        (AtEndOfGame currstate node factor bd, w)
      else
        let '(action, h) :=
          get_action C (is_root && negb (m_root_prepared w)) node (nodes w) in
        let w := on_nodes (fun _ => h) w in
        match action with
        | WRITE => (AtWrite currstate node bd, w)
        | FAIL => (AtFail node bd, w)
        | READ =>
            let '(child_factor, h) :=
              uct_select_child C (get_to_move C currstate) is_root node (nodes w) in
            let w := on_nodes (fun _ => release_reader C node h) w in
            match child_factor with
            | Some (new_node, new_factor) =>
                let move :=
                  match nodes w !! new_node with
                  | Some n => get_move n
                  | None => PASS C
                  end in
                let currstate := play_move C move currstate in
                if negb (move =? PASS C) && superko C currstate then
                  (AtSuperko bd, on_nodes (invalidate C new_node) w)
                else descent fuel' currstate new_node new_factor false bd w
            | None => (AtBackup node factor bd, w)
            end
        | BACKUP => (AtBackup node factor bd, w)
        end
  end.

(** What [play_simulation] does by itself where the descent has stopped:
    - end of game: [bd.eval = eval_from_score(...); node->update(bd.eval,
      1, 1.0f, factor); backup(bd, 1);]
    - WRITE: [bd.state = std::move(currstate);] and the position goes to
      the network;
    - FAIL: the pending counter is decremented;
    - BACKUP: [bd.eval = node->get_net_eval(BLACK); node->update(bd.eval,
      1, 1.0f, factor); backup(bd, 1);]
    - superko: [failed_simulation(bd, 1);] *)
Definition settle (s : stop) (w : world F) : outcome F GameState * world F :=
  match s with
  | AtEndOfGame currstate node factor bd =>
      let bd := set_eval (eval_from_score (final_score C currstate)) bd in
      let w := on_node (update (eval bd) 1 f_1 factor) node w in
      (BackedUp bd, backup_vl bd 1 w)
  | AtWrite currstate node bd => (Submitted (set_state currstate bd), w)
  | AtFail node bd => (Bounced, decrement_pending (pending_counter bd) w)
  | AtBackup node factor bd =>
      let bd := set_eval (get_net_eval C BLACK node (nodes w)) bd in
      let w := on_node (update (eval bd) 1 f_1 factor) node w in
      (BackedUp bd, backup_vl bd 1 w)
  | AtSuperko bd => (Superko bd, failed_simulation bd 1 false w)
  | NoFuel => (OutOfFuel, w)
  end.

(** The path recorded when the descent stops. *)
Definition stop_path (s : stop) : list (nat * F) :=
  match s with
  | AtEndOfGame _ _ _ bd | AtWrite _ _ bd | AtFail _ bd | AtBackup _ _ bd
  | AtSuperko bd => path bd
  | NoFuel => []
  end.

(** The node at which the descent stopped with WRITE or FAIL. *)
Definition stopped_at_unexpanded (s : stop) : option nat :=
  match s with
  | AtWrite _ node _ | AtFail node _ => Some node
  | _ => None
  end.

(** The units [play_simulation] itself takes off each recorded node where
    the descent has stopped: the [1] it passes to [update], [backup] and
    [failed_simulation]; none under WRITE and FAIL. *)
Definition own_units (s : stop) : Z :=
  match s with
  | AtEndOfGame _ _ _ _ | AtBackup _ _ _ | AtSuperko _ => 1
  | AtWrite _ _ _ | AtFail _ _ | NoFuel => 0
  end.

(** The node at which the descent has stopped is the last it recorded. *)
Definition ends_its_path (s : stop) : Prop :=
  match s with
  | AtEndOfGame _ node factor bd | AtBackup node factor bd =>
      exists init, path bd = init ++ [(node, factor)]
  | AtWrite _ node bd | AtFail node bd =>
      exists init factor, path bd = init ++ [(node, factor)]
  | AtSuperko bd => path bd <> []
  | NoFuel => True
  end.

(** The empty [BackupData] that [play_simulation] starts with. *)
Definition new_bd (pending_counter : nat) : BackupData F GameState :=
  mkBackupData [] None f_0 0 pending_counter.

(** Modelled from the spec: what the node methods of the descent do to the
    two virtual-loss counters. [UCTNode::get_action],
    [UCTNode::uct_select_child], [UCTNode::release_reader] and
    [UCTNode::invalidate] are in [UCTNode.cpp], which is not among the
    sources; the spec has it that a simulation records its "path" and
    "virtual-loss on every node", that virtual loss is "added to a node
    when a simulation passes through it", each pending simulation
    contributing "1 unit", and that [accumulated_vl] is the sum of the
    units of the simulations that stopped at a node while it was being
    expanded, which the expansion consumes. [w'] is what a descent that
    stopped at [s] has made of [w]: no node is freed, the recorded nodes
    are on the heap, each carries one more unit of virtual loss per
    occurrence on the recorded path, and the node at which the descent
    stopped with WRITE or FAIL counts one more accumulated unit. *)
Definition marks_its_path (w : world F) (s : stop) (w' : world F) : Prop :=
  (forall node, is_Some (nodes w !! node) -> is_Some (nodes w' !! node))
  /\ (forall node factor, In (node, factor) (stop_path s) -> is_Some (nodes w' !! node))
  /\ (forall node, vloss w' node = vloss w node + occurrences node (stop_path s))
  /\ (forall node,
        accumulated w' node
        = accumulated w node
          + (if bool_decide (stopped_at_unexpanded s = Some node) then 1 else 0)).

(** [get_action] answers WRITE or FAIL: the simulation goes no further. *)
Definition stops_there (a : Action) : bool :=
  match a with
  | WRITE | FAIL => true
  | READ | BACKUP => false
  end.

(** Modelled from the spec: the same, method by method, for node methods
    that put the unit on the node as the simulation enters it:
    [get_action] adds one unit of virtual loss to its node, and one
    accumulated unit when it answers WRITE or FAIL; [uct_select_child]
    chooses a child that is on the heap; selecting, releasing the reader
    and invalidating leave the two counters of every node as they are. *)
Definition counts_the_visit : Prop :=
  (forall (b : bool) (node : nat) (h : heap F),
     is_Some (h !! node) ->
     let '(a, h') := get_action C b node h in
     (forall n, is_Some (h !! n) -> is_Some (h' !! n))
     /\ (forall n, vloss_at h' n = vloss_at h n + (if Nat.eqb node n then 1 else 0))
     /\ (forall n,
           accumulated_at h' n
           = accumulated_at h n + (if Nat.eqb node n && stops_there a then 1 else 0)))
  /\ (forall (c : color) (b : bool) (node : nat),
        keeps_counters (fun h => snd (uct_select_child C c b node h)))
  /\ (forall (c : color) (b : bool) (node : nat) (h : heap F) (child : nat) (f : F),
        fst (uct_select_child C c b node h) = Some (child, f) ->
        is_Some (snd (uct_select_child C c b node h) !! child))
  /\ (forall node, keeps_counters (release_reader C node))
  /\ (forall node, keeps_counters (invalidate C node)).

(** ** The simulations in flight *)

(** The search as the workers and the network callbacks see it: the world,
    and the simulations that got WRITE and wait for the network, each with
    its [BackupData]. *)
Definition flight : Type := world F * list (BackupData F GameState).

(** A worker runs a simulation from a node, or the network delivers the
    result for the [i]-th waiting simulation and [backup(bd, netresult)]
    runs. Each runs to its end before the next. *)
Inductive event : Type :=
| Simulate (fuel : nat) (currstate : GameState) (node : nat) (pending_counter : nat)
| Deliver (i : nat) (netresult : Netresult F).

(** One event. [None]: the simulation has not come to an end within its
    fuel, nothing waits at [i], or the callback finds no node to expand. *)
Definition step (e : event) (st : flight) : option flight :=
  let '(w, waiting) := st in
  match e with
  | Simulate fuel currstate node pending_counter =>
      match play_simulation C fuel currstate node pending_counter w with
      | (Submitted bd, w') => Some (w', waiting ++ [bd])
      | (OutOfFuel, _) => None
      | (_, w') => Some (w', waiting)
      end
  | Deliver i netresult =>
      match waiting !! i with
      | Some bd =>
          match backup C bd netresult w with
          | Some (_, w') => Some (w', delete i waiting)
          | None => None
          end
      | None => None
      end
  end.

Fixpoint run (es : list event) (st : flight) : option flight :=
  match es with
  | [] => Some st
  | e :: es' =>
      match step e st with
      | Some st' => run es' st'
      | None => None
      end
  end.

(** The node a waiting simulation is to expand. *)
Definition leaf_of (bd : BackupData F GameState) : option nat :=
  fst <$> last (path bd).

(** The accumulated count of the node a waiting simulation is to expand. *)
Definition count_of (w : world F) (bd : BackupData F GameState) : Z :=
  match leaf_of bd with
  | Some leaf => accumulated w leaf
  | None => 0
  end.

(** What the waiting simulations will take off a node: for each, the
    accumulated count of its leaf, per occurrence of the node on its
    path. *)
Fixpoint in_flight (waiting : list (BackupData F GameState)) (w : world F) (node : nat)
  : Z :=
  match waiting with
  | [] => 0
  | bd :: waiting' =>
      count_of w bd * occurrences node (path bd) + in_flight waiting' w node
  end.

(** Modelled from the spec: the conditions under which an event happens.
    A simulation comes to an end, and its descent has marked its path
    ([marks_its_path]). By the node lock protocol it gets WRITE at a node
    "not yet expanded, nobody writing", so that no waiting simulation is to
    expand that node, and FAIL at a node with "another writer present": a
    waiting simulation is to expand it, and, the nodes forming a tree
    under the root of the search, the two came down the same nodes. The
    network delivers for a simulation that waits, and the count it
    exchanges fits the [uint16_t] it is passed on as. *)
Definition lawful_step (e : event) (st : flight) : Prop :=
  let '(w, waiting) := st in
  match e with
  | Simulate fuel currstate node pending_counter =>
      let '(s, w') := descent fuel currstate node f_1 true (new_bd pending_counter) w in
      marks_its_path w s w'
      /\ match s with
         | AtWrite _ leaf _ =>
             forall bd, bd ∈ waiting -> leaf_of bd <> Some leaf
         | AtFail leaf bd =>
             exists writer,
               writer ∈ waiting
               /\ leaf_of writer = Some leaf
               /\ forall n, occurrences n (path writer) = occurrences n (path bd)
         | NoFuel => False
         | _ => True
         end
  | Deliver i netresult =>
      exists bd, waiting !! i = Some bd /\ count_of w bd < 65536
  end.

(** Every unit is accounted for: no two waiting simulations are to expand
    the same node; each has recorded a path that ends at its leaf, over
    nodes on the heap, and holds the state for the network; an accumulated
    count is never negative, and is 0 at a node that no waiting simulation
    is to expand; and the virtual loss of every node is what the waiting
    simulations will take off it. *)
Definition accounted (st : flight) : Prop :=
  let '(w, waiting) := st in
  NoDup (leaf_of <$> waiting)
  /\ Forall (fun bd =>
               (exists init leaf factor, path bd = init ++ [(leaf, factor)])
               /\ is_Some (state bd)
               /\ forall node factor,
                    In (node, factor) (path bd) -> is_Some (nodes w !! node))
            waiting
  /\ (forall node, 0 <= accumulated w node)
  /\ (forall node,
        accumulated w node <> 0 -> exists bd, bd ∈ waiting /\ leaf_of bd = Some node)
  /\ (forall node, vloss w node = in_flight waiting w node).

Fixpoint lawful (es : list event) (st : flight) : Prop :=
  match es with
  | [] => True
  | e :: es' =>
      lawful_step e st
      /\ match step e st with
         | Some st' => lawful es' st'
         | None => True
         end
  end.

End WithCollaborators.

Arguments stop F GameState : clear implicits.
Arguments event F GameState : clear implicits.
Arguments flight F GameState : clear implicits.

End Descent.

(** Modelled from the spec: the node methods of the descent
    ([UCTNode.cpp] is not among the sources), after the table of the node
    lock protocol and the selection rule. The unit of virtual loss is put
    on a node as the simulation enters it, in [get_action]:
    [play_simulation] removes one unit from each node it has recorded,
    the root included, which no selection chooses, and none from a child
    it has chosen and not entered (the superko abort). *)
Module NodeProtocol.
Import Search.

Section WithFloats.

Context {F : Type} `{FloatOps F}.

(** The node once a simulation has entered it: one more unit of virtual
    loss, one more accumulated unit when the simulation stops there, the
    expansion state and the lock as given. *)
Definition entered (stops : bool) (st : expand_state_t) (lock : Z) (n : UCTNode F)
  : UCTNode F :=
  mkUCTNode (get_move n) (get_policy n) (get_visits n) (value_sum n)
    (m_virtual_loss n + 1) (m_accumulated_vl n + (if stops then 1 else 0))
    (get_children n) st lock (active n).

(** Modelled from the spec: [UCTNode::get_action]. "node not yet
    expanded, nobody writing": WRITE, and the caller is the writer from
    then on; "node not yet expanded, another writer present": FAIL, with 1
    added to [accumulated_vl]; "node expanded": READ, and the caller
    acquires the reader; "node marked invalid": BACKUP. The writer counts
    in [accumulated_vl] like the readers it turns away: the expansion
    backup takes the exchanged count, and nothing else, off the path that
    the writer has marked as well. *)
Definition get_action (unprepared_root : bool) (node : nat) (h : heap F)
  : Action * heap F :=
  match h !! node with
  | Some n =>
      match expand_state n with
      | IDLE => (WRITE, <[node := entered true WRITING (m_lock n) n]> h)
      | WRITING => (FAIL, <[node := entered true WRITING (m_lock n) n]> h)
      | READY => (READ, <[node := entered false READY (m_lock n + 1) n]> h)
      | INVALID => (BACKUP, <[node := entered false INVALID (m_lock n) n]> h)
      end
  | None => (BACKUP, h)
  end.

(** Modelled from the spec: [UCTNode::release_reader], the reader's
    [fetch_sub(1)] on the lock. *)
Definition release_reader (node : nat) (h : heap F) : heap F :=
  alter (fun n =>
           mkUCTNode (get_move n) (get_policy n) (get_visits n) (value_sum n)
             (m_virtual_loss n) (m_accumulated_vl n) (get_children n)
             (expand_state n) (m_lock n - 1) (active n)) node h.

(** Modelled from the spec: [UCTNode::invalidate], "mark child invalid". *)
Definition invalidate (node : nat) (h : heap F) : heap F :=
  alter (fun n =>
           mkUCTNode (get_move n) (get_policy n) (get_visits n) (value_sum n)
             (m_virtual_loss n) (m_accumulated_vl n) (get_children n)
             INVALID (m_lock n) (active n)) node h.

(** The children of a node that are on the heap and not invalid, in
    enumeration order. *)
Definition valid_children (h : heap F) (n : UCTNode F) : list (nat * UCTNode F) :=
  omap (fun p =>
          match h !! p with
          | Some c =>
              match expand_state c with
              | INVALID => None
              | _ => Some (p, c)
              end
          | None => None
          end) (get_children n).

(** The child of the highest value, the first of them in enumeration
    order. *)
Fixpoint pick (value : UCTNode F -> F) (best : nat * UCTNode F)
    (rest : list (nat * UCTNode F)) : nat :=
  match rest with
  | [] => fst best
  | c :: rest' =>
      if flt (value (snd best)) (value (snd c)) then pick value c rest'
      else pick value best rest'
  end.

(** Modelled from the spec: [UCTNode::uct_select_child]. "Pick child with
    maximum q + u", the first in enumeration order among equals, with the
    factor 1.0; "invalidated children are excluded", and without a child
    left there is none to return. The value q + u of a child is taken as
    it comes ([value]). The heap is left as it is: the spec has the
    selection increment the virtual loss of the chosen child, and the unit
    is counted here once, by [get_action] on entering the child, since
    [play_simulation] takes one unit, not two, off a node it has entered
    and none off a child it has chosen and not entered. *)
Definition uct_select_child (value : color -> bool -> UCTNode F -> F)
    (c : color) (is_root : bool) (node : nat) (h : heap F)
  : option (nat * F) * heap F :=
  match h !! node with
  | Some n =>
      match valid_children h n with
      | [] => (None, h)
      | first :: rest => (Some (pick (value c is_root) first rest, f_1), h)
      end
  | None => (None, h)
  end.

End WithFloats.

End NodeProtocol.

(** Two simulations reach the same unexpanded node: the root, at pointer
    0, is expanded and has one child, at pointer 1, which is not. The
    node methods of the descent are those of [NodeProtocol]; the
    expansion marks the node as expanded and creates no child. *)
Module DescentDemo.
Import Search.

Definition expanded (n : UCTNode Q) : UCTNode Q :=
  mkUCTNode (get_move n) (get_policy n) (get_visits n) (value_sum n)
    (m_virtual_loss n) (m_accumulated_vl n) (get_children n)
    READY (m_lock n) (active n).

Definition protocol : collaborators Q unit :=
  mkCollaborators
    (fun _ => 0) (fun _ => 0%Q) (fun _ => BLACK) (fun _ g => g) (fun _ => false) (-1)
    0%Q
    (fun _ _ _ _ node h => alter expanded node h)
    (fun _ _ h => h) (fun _ h => h)
    NodeProtocol.release_reader NodeProtocol.invalidate
    NodeProtocol.get_action
    (NodeProtocol.uct_select_child (fun _ _ n => get_policy n))
    (fun _ _ _ => (1 # 2)%Q).

Definition a_node (move : Z) (children : list nat) (st : expand_state_t) : UCTNode Q :=
  mkUCTNode move 0%Q 0%Q 0%Q 0 0 children st 0 true.

(** Nothing is in flight: no node carries virtual loss. The pending
    counter stands at 3, for the three simulations that [search] is about
    to start. *)
Definition quiet_tree : world Q :=
  mkWorld (<[1%nat := a_node 72 [] IDLE]> {[0%nat := a_node (-1) [1%nat] READY]})
    {[0%nat := 3]} 0 true.

Definition black_wins : Netresult Q := mkNetresult 1%Q [].

(** Two simulations come down to the child, the first gets WRITE and the
    second FAIL; the network delivers for the first; a third simulation
    then finds the child expanded without a child to select, and backs
    up. *)
Definition two_reach_the_leaf : list (Descent.event Q unit) :=
  [Descent.Simulate 3 tt 0 0; Descent.Simulate 3 tt 0 0;
   Descent.Deliver 0 black_wins; Descent.Simulate 3 tt 0 0].

End DescentDemo.

(* ===================================================================== *)
(** * Part II: properties *)
(* ===================================================================== *)

Section RootLockProofs.
Import RootLock.

Lemma total_insert (f : reader_pc -> Z) (l : list reader_pc) (i : nat) (x y : reader_pc) :
  l !! i = Some x -> total f (<[i := y]> l) = total f l - f x + f y.
Proof.
  revert i. induction l as [|a l IH]; intros [|i] H; simpl in *; try discriminate.
  - injection H as ->. lia.
  - rewrite (IH i H). lia.
Qed.

Lemma total_bounds (f : reader_pc -> Z) (l : list reader_pc) :
  (forall pc, 0 <= f pc <= 1) -> 0 <= total f l <= Z.of_nat (length l).
Proof.
  intros Hf. induction l as [|a l IH]; simpl; [lia|].
  specialize (Hf a). lia.
Qed.

Lemma total_zero_lookup (f : reader_pc -> Z) (l : list reader_pc) (i : nat) (x : reader_pc) :
  (forall pc, 0 <= f pc <= 1) -> total f l = 0 -> l !! i = Some x -> f x = 0.
Proof.
  intros Hf. revert i. induction l as [|a l IH]; intros [|i] Ht H; simpl in *; try discriminate.
  - injection H as ->. pose proof (total_bounds f l Hf). specialize (Hf x). lia.
  - apply (IH i); [|exact H]. pose proof (total_bounds f l Hf). specialize (Hf a). lia.
Qed.

Lemma total_replicate_out (f : reader_pc -> Z) (n : nat) :
  f ROut = 0 -> total f (replicate n ROut) = 0.
Proof. intros H. induction n as [|n IH]; simpl; lia. Qed.

Lemma reader_units_01 pc : 0 <= reader_units pc <= 1.
Proof. destruct pc; simpl; lia. Qed.

Lemma holds_read_01 pc : 0 <= holds_read pc <= 1.
Proof. destruct pc; simpl; lia. Qed.

Lemma holds_le_units (l : list reader_pc) : total holds_read l <= total reader_units l.
Proof.
  induction l as [|a l IH]; simpl; [lia|]. destruct a; simpl; lia.
Qed.

Ltac step_cases H :=
  match type of H with
  | context [readers ?s !! ?i] =>
      let pc := fresh "pc" in
      let E := fresh "E" in
      destruct (readers s !! i) as [pc|] eqn:E; [destruct pc|]; try discriminate H
  | context [writer ?s] =>
      let E := fresh "E" in
      destruct (writer s) eqn:E; try discriminate H
  end.

Lemma step_length e s s' :
  step e s = Some s' -> length (readers s') = length (readers s).
Proof.
  intros H. destruct e; simpl in H; step_cases H;
    repeat match type of H with
           | context [if ?b then _ else _] => destruct b
           end;
    injection H as <-; simpl; rewrite ?length_insert; reflexivity.
Qed.

Lemma step_inv e s s' : inv s -> step e s = Some s' -> inv s'.
Proof.
  intros [Hl Hw] H. unfold inv.
  pose proof (total_bounds reader_units (readers s) reader_units_01) as Hb.
  pose proof (total_bounds holds_read (readers s) holds_read_01) as Hh.
  pose proof (holds_le_units (readers s)) as Hle.
  destruct e; simpl in H; step_cases H.
  - (* RCall *)
    injection H as <-; simpl.
    rewrite !(total_insert _ _ _ _ _ E); simpl. split; [lia|]. intros W. specialize (Hw W). lia.
  - (* RTest *)
    destruct (128 <=? lock s); injection H as <-; simpl; [tauto|].
    rewrite !(total_insert _ _ _ _ _ E); simpl. split; [lia|]. intros W. specialize (Hw W). lia.
  - (* RFetchAdd *)
    destruct (Z.leb_spec 128 (lock s)) as [Hge|Hlt]; injection H as <-; simpl;
      rewrite !(total_insert _ _ _ _ _ E); simpl.
    + split; [lia|]. intros W. specialize (Hw W). lia.
    + split; [lia|]. intros W. rewrite W in Hl. simpl in Hl. lia.
  - (* RUndoDec *)
    injection H as <-; simpl.
    rewrite !(total_insert _ _ _ _ _ E); simpl. split; [lia|]. intros W. specialize (Hw W). lia.
  - (* RRelease *)
    injection H as <-; simpl.
    rewrite !(total_insert _ _ _ _ _ E); simpl. split; [lia|]. intros W. specialize (Hw W).
    pose proof (total_zero_lookup holds_read _ _ _ holds_read_01 Hw E) as Hz.
    discriminate Hz.
  - (* WAdd *)
    injection H as <-; simpl. simpl in Hl. split; [lia|]. discriminate.
  - (* WTest *)
    destruct (Z.eqb_spec (lock s) 128) as [He|Hne]; injection H as <-; simpl.
    + simpl in Hl. split; [lia|]. intros _. lia.
    + rewrite E. simpl. split; [exact Hl|]. discriminate.
  - (* WRelease *)
    injection H as <-; simpl. simpl in Hl. split; [lia|]. discriminate.
Qed.

Lemma exec_inv es : forall s s', inv s -> exec es s = Some s' -> inv s'.
Proof.
  induction es as [|e es IH]; simpl; intros s s' Hi H.
  - injection H as <-. exact Hi.
  - destruct (step e s) as [s1|] eqn:E; [|discriminate].
    apply (IH s1); [eapply step_inv; eauto | exact H].
Qed.

Lemma exec_length es : forall s s',
  exec es s = Some s' -> length (readers s') = length (readers s).
Proof.
  induction es as [|e es IH]; simpl; intros s s' H.
  - injection H as <-. reflexivity.
  - destruct (step e s) as [s1|] eqn:E; [|discriminate].
    rewrite (IH _ _ H). eapply step_length; eauto.
Qed.

Lemma init_inv n : inv (init n).
Proof.
  unfold inv, init; simpl. rewrite !total_replicate_out by reflexivity. split; [lia|discriminate].
Qed.

Lemma reachable_inv n s : reachable n s -> inv s /\ length (readers s) = n.
Proof.
  intros [es H]. split.
  - eapply exec_inv; [apply init_inv | exact H].
  - rewrite (exec_length _ _ _ H). simpl. apply length_replicate.
Qed.

(** C2 (as amended). The reader/writer lock held in the single counter
    [m_root_lock], with any number [n] of worker threads and the one
    controller thread, in every reachable state:
    - the counter stays within [0 .. 128 + n];
    - a reader's [fetch_add(1)] adds one, and the reader undoes the
      increment exactly when the value it read (the value BEFORE the
      increment) was at least 128, that is when the new value exceeds 128;
      the undo subtracts one and sends the reader back to the top of its
      loop;
    - a reader that succeeds leaves the counter at most 128 (not: below
      128) and succeeds only while no writer has installed its 128;
    - the writer adds 128 and leaves its spin loop exactly when it reads
      128;
    - while the writer holds the lock no reader holds it. *)
Theorem root_lock_protocol (n : nat) (s : state) :
  reachable n s ->
  0 <= lock s <= 128 + Z.of_nat n
  /\ (forall i s', step (RFetchAdd i) s = Some s' ->
        lock s' = lock s + 1
        /\ (128 <= lock s -> readers s' !! i = Some RUndo /\ 128 < lock s')
        /\ (lock s < 128 ->
              readers s' !! i = Some RHeld /\ lock s' <= 128 /\ writer s' = WOut))
  /\ (forall i s', step (RUndoDec i) s = Some s' ->
        lock s' = lock s - 1 /\ readers s' !! i = Some RLoop)
  /\ (forall s', step WAdd s = Some s' ->
        lock s' = lock s + 128 /\ writer s' = WSpin)
  /\ (forall s', step WTest s = Some s' ->
        (writer s' = WHeld <-> lock s = 128))
  /\ (writer s = WHeld -> forall i, readers s !! i <> Some RHeld).
Proof.
  intros Hr. destruct (reachable_inv n s Hr) as [[Hl Hw] Hn].
  pose proof (total_bounds reader_units (readers s) reader_units_01) as Hb.
  rewrite Hn in Hb.
  repeat split.
  - destruct (writer s); simpl in Hl; lia.
  - destruct (writer s); simpl in Hl; lia.
  - simpl in H. step_cases H. destruct (128 <=? lock s); injection H as <-; reflexivity.
  - simpl in H. step_cases H. destruct (Z.leb_spec 128 (lock s)); [|lia].
    injection H as <-. simpl. apply list_lookup_insert_eq. eapply lookup_lt_Some; eauto.
  - simpl in H. step_cases H. destruct (128 <=? lock s); injection H as <-; simpl; lia.
  - simpl in H. step_cases H. destruct (Z.leb_spec 128 (lock s)); [lia|].
    injection H as <-. simpl. apply list_lookup_insert_eq. eapply lookup_lt_Some; eauto.
  - simpl in H. step_cases H. destruct (128 <=? lock s); injection H as <-; simpl; lia.
  - simpl in H. step_cases H. destruct (128 <=? lock s); injection H as <-; simpl;
      destruct (writer s); simpl in Hl; try reflexivity; lia.
  - simpl in H. step_cases H. injection H as <-. reflexivity.
  - simpl in H. step_cases H. injection H as <-. simpl.
    apply list_lookup_insert_eq. eapply lookup_lt_Some; eauto.
  - simpl in H. step_cases H. injection H as <-. reflexivity.
  - simpl in H. step_cases H. injection H as <-. reflexivity.
  - simpl in H. step_cases H. destruct (Z.eqb_spec (lock s) 128); [tauto|].
    injection H as <-. rewrite E. discriminate.
  - simpl in H. step_cases H. destruct (Z.eqb_spec (lock s) 128); [|lia].
    injection H as <-. reflexivity.
  - intros W i Hi. specialize (Hw W).
    pose proof (total_zero_lookup holds_read _ _ _ holds_read_01 Hw Hi) as Hz.
    discriminate Hz.
Qed.

Lemma root_lock_protocol_witness :
  let s := mkState 129 [RHeld; RAdd] WSpin in
  0 <= lock s <= 128 + Z.of_nat 2
  /\ (forall i s', step (RFetchAdd i) s = Some s' ->
        lock s' = lock s + 1
        /\ (128 <= lock s -> readers s' !! i = Some RUndo /\ 128 < lock s')
        /\ (lock s < 128 ->
              readers s' !! i = Some RHeld /\ lock s' <= 128 /\ writer s' = WOut))
  /\ (forall i s', step (RUndoDec i) s = Some s' ->
        lock s' = lock s - 1 /\ readers s' !! i = Some RLoop)
  /\ (forall s', step WAdd s = Some s' ->
        lock s' = lock s + 128 /\ writer s' = WSpin)
  /\ (forall s', step WTest s = Some s' ->
        (writer s' = WHeld <-> lock s = 128))
  /\ (writer s = WHeld -> forall i, readers s !! i <> Some RHeld).
Proof.
  apply (root_lock_protocol 2).
  exists [RCall 0%nat; RTest 0%nat; RFetchAdd 0%nat; RCall 1%nat; RTest 1%nat; WAdd].
  reflexivity.
Defined.

(** C2 (as stated) fails at the 128th reader: with 127 readers inside, the
    next reader reads 127 from [fetch_add], so its new value 128 exceeds
    127, and yet it is admitted; the counter is left at 128, the value
    that stands for the exclusive writer, with no writer present. *)
Lemma reader_admitted_at_128 :
  exists s s',
    exec (acquire_all 127 ++ [RCall 127%nat; RTest 127%nat]) (init 128) = Some s
    /\ step (RFetchAdd 127) s = Some s'
    /\ 127 < lock s'
    /\ readers s' !! 127%nat = Some RHeld
    /\ writer s' = WOut
    /\ 128 <= lock s'.
Proof.
  eexists. eexists.
  split; [vm_compute; reflexivity|].
  split; [vm_compute; reflexivity|].
  vm_compute. repeat split; discriminate.
Qed.

End RootLockProofs.

Section GTPProofs.
Import GTP.

Variable size_range MiB : Z.
Variable remove_overhead : Z -> Z.
Variable ENTRY_SIZE MIN_CACHE_COUNT MIN_TREE_SPACE DEFAULT_MAX_MEMORY : Z.
Variable UNLIMITED_PLAYOUTS : Z.
Variable base_memory : Z.

Abbreviation set_max_memory' :=
  (set_max_memory size_range MiB remove_overhead ENTRY_SIZE MIN_CACHE_COUNT
     MIN_TREE_SPACE DEFAULT_MAX_MEMORY base_memory).

(** C9. [set_max_memory] refuses exactly the configurations that do not
    fit: the cap (0 standing for the default) is below the network's base
    memory, or the cache share yields fewer than [MIN_CACHE_COUNT] entries,
    or the remaining tree space is below [MIN_TREE_SPACE]. A refusal
    returns [false] with a message that says what there is not enough
    memory for, and leaves every global ([cfg_max_memory],
    [cfg_max_cache_ratio_percent], [cfg_max_tree_size]) and the cache size
    as they were; an acceptance returns [true] and updates all four. *)
Theorem set_max_memory_all_or_nothing (max_memory pct : Z) (g : globals) :
  let cap := if max_memory =? 0 then DEFAULT_MAX_MEMORY else max_memory in
  let search := cap - base_memory in
  let cache := to_size_t size_range (search * to_size_t size_range pct) / 100 in
  let count := to_int (remove_overhead cache / ENTRY_SIZE) in
  let tree := to_size_t size_range (search - cache) in
  let refused :=
    (cap <? base_memory) || (count <? MIN_CACHE_COUNT) || (tree <? MIN_TREE_SPACE) in
  let '(g', (ok, message)) := set_max_memory' max_memory pct g in
  if refused then
    ok = false /\ g' = g
    /\ starts_with "Not enough memory for " message = true
  else
    ok = true
    /\ cfg_max_memory g' = cap
    /\ cfg_max_cache_ratio_percent g' = pct
    /\ cfg_max_tree_size g' = remove_overhead tree
    /\ nncache_size g' = count
    /\ starts_with "Setting max tree size to " message = true.
Proof.
  unfold set_max_memory. cbv zeta.
  destruct (_ <? base_memory); [cbn [orb]; repeat split|].
  destruct (_ <? MIN_CACHE_COUNT); [cbn [orb]; repeat split|].
  destruct (_ <? MIN_TREE_SPACE); cbn [orb]; repeat split.
Qed.

Abbreviation execute_setoption' :=
  (execute_setoption size_range MiB remove_overhead ENTRY_SIZE MIN_CACHE_COUNT
     MIN_TREE_SPACE DEFAULT_MAX_MEMORY UNLIMITED_PLAYOUTS base_memory).

(** C10. [lz-setoption name playouts value N], pondering disabled and [N]
    nonzero: [N] is stored in [cfg_max_playouts], but the limit installed
    in the search object is [set_playout_limit(cfg_max_visits)], that is
    the smaller of the configured visit limit and [UNLIMITED_PLAYOUTS],
    whatever [N] is. Nothing else changes and the command answers with an
    empty success. *)
Theorem setoption_playouts_installs_visit_limit
    (options_text value : string) (N : Z) (g : globals) :
  fst (read_int (first_word value)) = N ->
  N <> 0 ->
  cfg_allow_pondering g = false ->
  let '(g', r) :=
    execute_setoption' options_text
      ["lz-setoption"; "name"; "playouts"; "value"; value]%string g in
  r = gtp_printf ""
  /\ cfg_max_playouts g' = N
  /\ m_maxplayouts g' = Z.min (cfg_max_visits g) UNLIMITED_PLAYOUTS
  /\ g' = set_playout_limit UNLIMITED_PLAYOUTS (cfg_max_visits g)
            (with_cfg_max_playouts N g).
Proof.
  intros HN Hnz Hp.
  unfold execute_setoption.
  change (starts_with "name" "name") with true. cbn [negb].
  change (parse_option ["playouts"; "value"; value]%string)
    with ("playouts"%string, value).
  cbv iota beta.
  change (String.eqb "playouts" "maximum memory use (mib)") with false.
  change (String.eqb "playouts" "percentage of memory for cache") with false.
  change (String.eqb "playouts" "visits") with false.
  change (String.eqb "playouts" "playouts") with true.
  cbv iota.
  destruct (read_int (first_word value)) as [playouts failed]. simpl in HN. subst playouts.
  cbn [cfg_max_playouts with_cfg_max_playouts cfg_allow_pondering].
  destruct (Z.eqb_spec N 0) as [|_]; [contradiction|].
  rewrite Hp. repeat split.
Qed.

End GTPProofs.

Section GTPRuns.
Import GTP.

(** A 64-bit build with a 100 MiB network: [MiB] is 2^20, the overhead
    estimate is 10/11, a cache entry takes 3000 bytes, at least 6000
    entries and 100 MB of tree are asked for, and the default cap is 2 GiB. *)
Abbreviation small_machine :=
  (set_max_memory 18446744073709551616 1048576 (fun x => x * 10 / 11) 3000 6000 100000000
     2147483648 104857600).

Example cap_below_network :
  small_machine 67108864 10 no_settings
  = (no_settings, (false, "Not enough memory for network. 100 MiB required."%string)).
Proof. reflexivity. Qed.

Example cache_share_too_small :
  small_machine 209715200 1 no_settings
  = (no_settings, (false, "Not enough memory for cache."%string)).
Proof. reflexivity. Qed.

Example tree_share_too_small :
  small_machine 209715200 99 no_settings
  = (no_settings, (false, "Not enough memory for search tree."%string)).
Proof. reflexivity. Qed.

Example default_cap_accepted :
  small_machine 0 10 no_settings
  = (mkGlobals 2147483648 10 1671239494 61897 0 0 false 0 0 0 0,
     (true, "Setting max tree size to 1753 MiB and cache size to 194 MiB."%string)).
Proof. reflexivity. Qed.

Example read_int_number : read_int "200" = (200, false).
Proof. reflexivity. Qed.

Example read_int_prefix : read_int "-5x" = (-5, false).
Proof. reflexivity. Qed.

Example read_int_no_digits : read_int "many" = (0, true).
Proof. reflexivity. Qed.

Example read_int_too_large : read_int "99999999999" = (2147483647, true).
Proof. reflexivity. Qed.

End GTPRuns.

Lemma setoption_playouts_installs_visit_limit_witness :
  let g := GTP.mkGlobals 0 10 0 0 0 1600 false 0 0 1600 1600 in
  let '(g', r) :=
    GTP.execute_setoption 4294967296 1048576 (fun x => x * 10 / 11) 1024 6000 100000000
      2147483648 1073741823 0 ""
      ["lz-setoption"; "name"; "playouts"; "value"; "200"]%string g in
  r = GTP.gtp_printf ""
  /\ GTP.cfg_max_playouts g' = 200
  /\ GTP.m_maxplayouts g' = Z.min (GTP.cfg_max_visits g) 1073741823
  /\ g' = GTP.set_playout_limit 1073741823 (GTP.cfg_max_visits g)
            (GTP.with_cfg_max_playouts 200 g).
Proof.
  apply (setoption_playouts_installs_visit_limit
           4294967296 1048576 (fun x => x * 10 / 11) 1024 6000 100000000
           2147483648 1073741823 0 "" "200" 200
           (GTP.mkGlobals 0 10 0 0 0 1600 false 0 0 1600 1600)).
  - reflexivity.
  - discriminate.
  - reflexivity.
Defined.


Section BestMoveProofs.
Import BestMove.

Context {F : Type} `{FloatOps F}.
Variable S : search F.

(** C4 (as amended). [get_best_move] without [NOPASS] and with the pass
    heuristics on ([cfg_dumbpass] false), [first] being the child on top
    after sorting; "the move" is [bestmove] as it reaches the resign test.
    - [first] is PASS and passing loses by the final score: the move is the
      non-pass child found by [get_nopass_child], and stays PASS when there
      is none;
    - [first] is PASS and passing wins: the move stays PASS;
    - [first] is PASS and passing draws: the move is the non-pass child only
      when that child has been visited and its winrate is above 0.5, and
      stays PASS otherwise;
    - [first] is not PASS and the opponent's last move was PASS: the move
      becomes PASS when passing wins, and when passing draws and the best
      winrate is below 0.5; it stays [first] when passing loses;
    - in particular, when passing wins after an opponent pass,
      [get_best_move] returns PASS, and so does [think]. *)
Theorem pass_heuristics (passflag : Z) (root_children : list (child F))
    (first : child F) (rest : list (child F)) (has_children : bool) :
  has_flag passflag (NOPASS S) = false ->
  cfg_dumbpass S = false ->
  ordered_children S root_children = first :: rest ->
  let nopass := get_nopass_child S (m_rootstate S) (first :: rest) in
  let c := get_to_move (m_rootstate S) in
  let besteval := if first_visit first then f_half else get_raw_eval first c in
  let rel := relative_score S in
  exists bestmove eval,
    pass_rules S passflag root_children = Some (bestmove, eval)
    /\ (get_move first = PASS S ->
          (flt rel f_0 = true ->
             bestmove = match nopass with
                        | Some n => get_move n
                        | None => PASS S
                        end)
          /\ (flt f_0 rel = true -> bestmove = PASS S)
          /\ (flt rel f_0 = false -> flt f_0 rel = false ->
                bestmove = match nopass with
                           | Some n =>
                               if negb (first_visit n) && flt f_half (get_raw_eval n c)
                               then get_move n else PASS S
                           | None => PASS S
                           end))
    /\ (get_move first <> PASS S -> get_last_move (m_rootstate S) = PASS S ->
          (flt rel f_0 = true -> bestmove = get_move first)
          /\ (flt f_0 rel = true -> bestmove = PASS S)
          /\ (flt rel f_0 = false -> flt f_0 rel = false ->
                bestmove = if flt besteval f_half then PASS S else get_move first))
    /\ (get_last_move (m_rootstate S) = PASS S -> flt f_0 rel = true ->
          get_best_move S passflag root_children = Some (PASS S)
          /\ think_result S has_children passflag root_children = Some (PASS S)).
Proof.
  intros Hnp Hdp Hch nopass c besteval rel.
  assert (Hwin : flt f_0 rel = true -> flt rel f_0 = false) by apply flt_asym.
  unfold think_result, get_best_move, pass_rules.
  rewrite Hch, Hnp, Hdp. cbn [negb]. fold nopass c rel besteval.
  destruct (Z.eqb_spec (get_move first) (PASS S)) as [Hp|Hp];
    [|destruct (Z.eqb_spec (get_last_move (m_rootstate S)) (PASS S)) as [Hl|Hl]];
    destruct (flt rel f_0) eqn:Hlo;
    destruct (flt f_0 rel) eqn:Hhi;
    try (specialize (Hwin eq_refl); discriminate Hwin);
    try destruct nopass as [n|] eqn:Hn;
    try destruct (negb (first_visit n) && flt f_half (get_raw_eval n c)) eqn:Hb;
    try destruct (flt besteval f_half) eqn:Hbe;
    (eexists; eexists; split; [reflexivity|]);
    repeat split; intros;
    try contradiction; try discriminate; try reflexivity;
    rewrite ?Hp, ?Z.eqb_refl; cbn [negb];
    try (destruct has_children; reflexivity).
Qed.

(** The resign test on a winrate: resigning is permitted, the game is
    past a quarter of the board area, the winrate is not above the
    threshold, and for White in a handicap game with the default percentage
    it is not above the blended threshold either. *)
Lemma should_resign_spec (passflag : Z) (winrate : F) :
  let rs := m_rootstate S in
  let area := get_boardsize rs * get_boardsize rs in
  let threshold :=
    fmul f_0_01 (f_of_int (if cfg_resignpct S <? 0 then 10 else cfg_resignpct S)) in
  let relaxed := fdiv threshold (f_of_int (1 + get_handicap rs)) in
  let ratio :=
    fmin f_1 (fdiv (f_of_int (get_movenum rs)) (fmul f_0_6 (f_of_int area))) in
  let blended :=
    fadd (fmul ratio threshold) (fmul (fsub (f_of_int 1) ratio) relaxed) in
  should_resign S passflag winrate = true
  <-> (has_flag passflag (NORESIGN S) = false
       /\ cfg_resignpct S <> 0
       /\ area / 4 < get_movenum rs
       /\ flt threshold winrate = false
       /\ (0 < get_handicap rs -> get_to_move rs = WHITE -> cfg_resignpct S < 0 ->
             flt blended winrate = false)).
Proof.
  intros rs area threshold relaxed ratio blended.
  unfold should_resign, white_in_handicap_game, is_default_cfg_resign.
  change (resign_threshold S) with threshold.
  change (blended_resign_threshold S) with blended.
  change (num_intersections S) with area.
  fold rs.
  destruct (has_flag passflag (NORESIGN S));
    [split; [discriminate|intros (Hc & _); discriminate]|].
  destruct (Z.eqb_spec (cfg_resignpct S) 0) as [Hz|Hz];
    [split; [discriminate|intros (_ & Hc & _); contradiction]|].
  destruct (Z.leb_spec (get_movenum rs) (area / 4)) as [Hm|Hm];
    [split; [discriminate|intros (_ & _ & Hc & _); lia]|].
  destruct (flt threshold winrate) eqn:Ht;
    [split; [discriminate|intros (_ & _ & _ & Hc & _); discriminate]|].
  destruct (Z.ltb_spec 0 (get_handicap rs)) as [Hh|Hh]; cbn [andb];
    [|split; [intros _; repeat split; auto; intros; lia|reflexivity]].
  destruct (get_to_move rs) eqn:Hc; cbn [andb];
    [split; [intros _; repeat split; auto; intros; discriminate|reflexivity]|].
  destruct (Z.ltb_spec (cfg_resignpct S) 0) as [Hd|Hd];
    [|split; [intros _; repeat split; auto; intros; lia|reflexivity]].
  destruct (flt blended winrate) eqn:Hb.
  - split; [discriminate|].
    intros (_ & _ & _ & _ & Hc'). specialize (Hc' Hh eq_refl Hd). discriminate.
  - split; [intros _; repeat split; auto|reflexivity].
Qed.

(** C7. [think] returns RESIGN exactly when the root has children, the
    chosen move is not PASS, resigning is permitted (no NORESIGN flag and a
    resign percentage other than 0), the move number exceeds a quarter of
    the board area, and the winrate of the chosen child for the side to
    move is not above the resign threshold, which is 0.01 times the resign
    percentage, or 0.01 times 10 when the percentage is the default
    (negative); for White in a handicap game with the default percentage
    the winrate must also not be above the blended threshold, which moves
    linearly from threshold / (1 + handicap) to the threshold as the move
    number goes up to 0.6 times the board area.

    The chosen child and its winrate are these:
    - the first ordered child, when its move is not PASS and the move is
      not turned into a pass that answers the opponent's pass; its winrate
      is [get_raw_eval] for the side to move, and counts as 0.5 while the
      child has no visit;
    - the child offered by [get_nopass_child], when the first child passes
      and is replaced (always under NOPASS; with the pass heuristics on,
      when passing loses, or when passing draws and that child is visited
      with a winrate above 0.5); its winrate is [get_raw_eval] for the side
      to move, and counts as 1.0 while the child has no visit. *)
Theorem think_resigns_exactly_when (passflag : Z) (root_children : list (child F))
    (first : child F) (rest : list (child F)) (has_children : bool) :
  ordered_children S root_children = first :: rest ->
  PASS S <> RESIGN S ->
  get_move first <> RESIGN S ->
  (forall n, get_nopass_child S (m_rootstate S) (first :: rest) = Some n ->
             get_move n <> RESIGN S) ->
  let rs := m_rootstate S in
  let c := get_to_move rs in
  let area := get_boardsize rs * get_boardsize rs in
  let threshold :=
    fmul f_0_01 (f_of_int (if cfg_resignpct S <? 0 then 10 else cfg_resignpct S)) in
  let relaxed := fdiv threshold (f_of_int (1 + get_handicap rs)) in
  let ratio :=
    fmin f_1 (fdiv (f_of_int (get_movenum rs)) (fmul f_0_6 (f_of_int area))) in
  let blended :=
    fadd (fmul ratio threshold) (fmul (fsub (f_of_int 1) ratio) relaxed) in
  let at_or_below_threshold (winrate : F) :=
    flt threshold winrate = false
    /\ (0 < get_handicap rs -> get_to_move rs = WHITE -> cfg_resignpct S < 0 ->
          flt blended winrate = false) in
  let rel := relative_score S in
  let heuristics := negb (has_flag passflag (NOPASS S)) && negb (cfg_dumbpass S) in
  let winrate_of_first := if first_visit first then f_half else get_raw_eval first c in
  let winrate_of_substitute (n : child F) :=
    if first_visit n then f_1 else get_raw_eval n c in
  let answers_pass :=
    heuristics = true
    /\ get_last_move rs = PASS S
    /\ flt rel f_0 = false
    /\ (flt f_0 rel = true \/ flt winrate_of_first f_half = true) in
  let substituted (n : child F) :=
    get_move first = PASS S
    /\ get_nopass_child S rs (first :: rest) = Some n
    /\ (has_flag passflag (NOPASS S) = true
        \/ (heuristics = true
            /\ (flt rel f_0 = true
                \/ (flt f_0 rel = false
                    /\ first_visit n = false
                    /\ flt f_half (get_raw_eval n c) = true)))) in
  think_result S has_children passflag root_children = Some (RESIGN S)
  <-> (has_children = true
       /\ has_flag passflag (NORESIGN S) = false
       /\ cfg_resignpct S <> 0
       /\ area / 4 < get_movenum rs
       /\ ((get_move first <> PASS S
            /\ ~ answers_pass
            /\ at_or_below_threshold winrate_of_first)
           \/ (exists n,
                 substituted n
                 /\ get_move n <> PASS S
                 /\ at_or_below_threshold (winrate_of_substitute n)))).
Proof.
  intros Hch Hpr Hfr Hnr rs c area threshold relaxed ratio blended at_or_below_threshold
    rel heuristics winrate_of_first winrate_of_substitute answers_pass substituted.
  (* what the resign test makes of a move and its winrate *)
  assert (Hresign : forall bestmove besteval,
            bestmove <> RESIGN S ->
            ((if negb (bestmove =? PASS S) then
                if should_resign S passflag besteval then Some (RESIGN S) else Some bestmove
              else Some bestmove) = Some (RESIGN S)
             <-> (bestmove <> PASS S
                  /\ has_flag passflag (NORESIGN S) = false
                  /\ cfg_resignpct S <> 0
                  /\ area / 4 < get_movenum rs
                  /\ at_or_below_threshold besteval))).
  { intros bestmove besteval Hbr.
    pose proof (should_resign_spec passflag besteval) as Hs. cbv zeta in Hs.
    fold rs area threshold relaxed ratio blended in Hs.
    destruct (Z.eqb_spec bestmove (PASS S)) as [Hp|Hp]; cbn [negb].
    - split; [intros Heq; injection Heq as Heq; contradiction|].
      intros (Hc & _); contradiction.
    - destruct (should_resign S passflag besteval).
      + split; [intros _; split; [exact Hp|apply Hs; reflexivity]|reflexivity].
      + split; [intros Heq; injection Heq as Heq; contradiction|].
        intros (_ & Hc). apply Hs in Hc. discriminate. }
  (* the two ways of being chosen exclude one another *)
  assert (Hfirst : forall bestmove besteval,
            bestmove = get_move first -> besteval = winrate_of_first ->
            ~ answers_pass ->
            (forall n, ~ (substituted n /\ get_move n <> PASS S)) ->
            ((if negb (bestmove =? PASS S) then
                if should_resign S passflag besteval then Some (RESIGN S) else Some bestmove
              else Some bestmove) = Some (RESIGN S)
             <-> (has_flag passflag (NORESIGN S) = false
                  /\ cfg_resignpct S <> 0
                  /\ area / 4 < get_movenum rs
                  /\ ((get_move first <> PASS S
                       /\ ~ answers_pass
                       /\ at_or_below_threshold winrate_of_first)
                      \/ (exists n,
                            substituted n
                            /\ get_move n <> PASS S
                            /\ at_or_below_threshold (winrate_of_substitute n)))))).
  { intros bestmove besteval -> -> Hna Hns. rewrite (Hresign _ _ Hfr). split.
    - intros (H1 & H2 & H3 & H4 & H5). repeat split; try assumption.
      left. repeat split; try assumption; apply H5.
    - intros (H2 & H3 & H4 & [(H1 & _ & H5) | (n & Hn & Hm & _)]).
      + repeat split; try assumption; apply H5.
      + exfalso. apply (Hns n). split; assumption. }
  assert (Hsub : forall n bestmove besteval,
            bestmove = get_move n -> besteval = winrate_of_substitute n ->
            substituted n ->
            ((if negb (bestmove =? PASS S) then
                if should_resign S passflag besteval then Some (RESIGN S) else Some bestmove
              else Some bestmove) = Some (RESIGN S)
             <-> (has_flag passflag (NORESIGN S) = false
                  /\ cfg_resignpct S <> 0
                  /\ area / 4 < get_movenum rs
                  /\ ((get_move first <> PASS S
                       /\ ~ answers_pass
                       /\ at_or_below_threshold winrate_of_first)
                      \/ (exists n,
                            substituted n
                            /\ get_move n <> PASS S
                            /\ at_or_below_threshold (winrate_of_substitute n)))))).
  { intros n bestmove besteval -> -> Hn.
    rewrite (Hresign _ _ (Hnr n (proj1 (proj2 Hn)))). split.
    - intros (H1 & H2 & H3 & H4 & H5). repeat split; try assumption.
      right. exists n. repeat split; try assumption; try apply Hn; apply H5.
    - intros (H2 & H3 & H4 & [(H1 & _) | (n' & Hn' & Hm & H5)]).
      + exfalso. apply H1. apply Hn.
      + assert (n' = n).
        { destruct Hn as (_ & Hn & _), Hn' as (_ & Hn' & _). congruence. }
        subst n'. repeat split; try assumption; apply H5. }
  assert (Hpass : forall bestmove besteval,
            bestmove = PASS S ->
            (get_move first = PASS S \/ answers_pass) ->
            (forall n, ~ (substituted n /\ get_move n <> PASS S)) ->
            ((if negb (bestmove =? PASS S) then
                if should_resign S passflag besteval then Some (RESIGN S) else Some bestmove
              else Some bestmove) = Some (RESIGN S)
             <-> (has_flag passflag (NORESIGN S) = false
                  /\ cfg_resignpct S <> 0
                  /\ area / 4 < get_movenum rs
                  /\ ((get_move first <> PASS S
                       /\ ~ answers_pass
                       /\ at_or_below_threshold winrate_of_first)
                      \/ (exists n,
                            substituted n
                            /\ get_move n <> PASS S
                            /\ at_or_below_threshold (winrate_of_substitute n)))))).
  { intros bestmove besteval -> Hp Hns. rewrite Z.eqb_refl. cbn [negb]. split.
    - intros Heq. injection Heq as Heq. contradiction.
    - intros (_ & _ & _ & [(H1 & H2 & _) | (n & Hn & Hm & _)]).
      + destruct Hp as [Hp|Hp]; contradiction.
      + exfalso. apply (Hns n). split; assumption. }
  unfold think_result.
  destruct has_children; cbn [negb];
    [|split; [intros Heq; injection Heq as Heq; contradiction
             |intros (Hc & _); discriminate]].
  assert (Hdrop : forall P : Prop,
            (think_result S true passflag root_children = Some (RESIGN S) <-> P) ->
            (get_best_move S passflag root_children = Some (RESIGN S)
             <-> true = true /\ P)).
  { intros P HP. unfold think_result in HP. cbn [negb] in HP. rewrite HP. tauto. }
  apply Hdrop. unfold think_result. cbn [negb].
  unfold get_best_move, pass_rules. rewrite Hch.
  fold rs c rel. fold winrate_of_first.
  unfold substituted, answers_pass, heuristics in *.
  destruct (has_flag passflag (NOPASS S)) eqn:Hnp; cbn [negb andb] in *.
  - (* NOPASS *)
    destruct (Z.eqb_spec (get_move first) (PASS S)) as [Hp|Hp].
    + destruct (get_nopass_child S rs (first :: rest)) as [n|] eqn:Hn.
      * apply (Hsub n); [reflexivity|reflexivity|].
        split; [exact Hp|]. split; [reflexivity|]. left. reflexivity.
      * apply Hpass; [exact Hp|left; exact Hp|].
        intros n ((_ & Hc & _) & _). discriminate.
    + apply Hfirst; [reflexivity|reflexivity| |].
      * intros (Hc & _). discriminate.
      * intros n ((Hc & _) & _). contradiction.
  - destruct (cfg_dumbpass S) eqn:Hdp; cbn [negb andb] in *.
    + (* the pass heuristics are off *)
      destruct (Z.eq_dec (get_move first) (PASS S)) as [Hp|Hp].
      * apply Hpass; [exact Hp|left; exact Hp|].
        intros n ((_ & _ & [Hc | (Hc & _)]) & _); discriminate.
      * apply Hfirst; [reflexivity|reflexivity| |].
        -- intros (Hc & _). discriminate.
        -- intros n ((Hc & _) & _). contradiction.
    + destruct (Z.eqb_spec (get_move first) (PASS S)) as [Hp|Hp].
      * (* the first child passes *)
        destruct (flt rel f_0) eqn:Hlo.
        -- destruct (get_nopass_child S rs (first :: rest)) as [n|] eqn:Hn.
           ++ apply (Hsub n); [reflexivity|reflexivity|].
              split; [exact Hp|]. split; [reflexivity|]. right.
              split; [reflexivity|]. left. reflexivity.
           ++ apply Hpass; [exact Hp|left; exact Hp|].
              intros n ((_ & Hc & _) & _). discriminate.
        -- destruct (flt f_0 rel) eqn:Hhi.
           ++ apply Hpass; [exact Hp|left; exact Hp|].
              intros n ((_ & _ & [Hc | (_ & [Hc | (Hc & _)])]) & _); discriminate.
           ++ destruct (get_nopass_child S rs (first :: rest)) as [n|] eqn:Hn.
              ** destruct (first_visit n) eqn:Hv; cbn [negb andb].
                 --- apply Hpass; [exact Hp|left; exact Hp|].
                     intros n' ((_ & Hn' & [Hc | (_ & [Hc | (_ & Hc & _)])]) & _);
                       try discriminate.
                     injection Hn' as <-. rewrite Hv in Hc. discriminate.
                 --- destruct (flt f_half (get_raw_eval n c)) eqn:Hgood.
                     +++ apply (Hsub n); [reflexivity| |].
                         *** unfold winrate_of_substitute. rewrite Hv. reflexivity.
                         *** split; [exact Hp|]. split; [reflexivity|]. right.
                             split; [reflexivity|]. right. repeat split; assumption.
                     +++ apply Hpass; [exact Hp|left; exact Hp|].
                         intros n' ((_ & Hn' & [Hc | (_ & [Hc | (_ & _ & Hc)])]) & _);
                           try discriminate.
                         injection Hn' as <-. rewrite Hgood in Hc. discriminate.
              ** apply Hpass; [exact Hp|left; exact Hp|].
                 intros n ((_ & Hc & _) & _). discriminate.
      * (* the first child does not pass *)
        assert (Hns : forall n,
                  ~ ((get_move first = PASS S
                      /\ get_nopass_child S rs (first :: rest) = Some n
                      /\ (false = true
                          \/ true = true
                             /\ (flt rel f_0 = true
                                 \/ flt f_0 rel = false
                                    /\ first_visit n = false
                                    /\ flt f_half (get_raw_eval n c) = true)))
                     /\ get_move n <> PASS S)).
        { intros n ((Hc & _) & _). contradiction. }
        destruct (Z.eqb_spec (get_last_move rs) (PASS S)) as [Hl|Hl].
        -- destruct (flt rel f_0) eqn:Hlo.
           ++ apply Hfirst; [reflexivity|reflexivity| |exact Hns].
              intros (_ & _ & Hc & _). discriminate.
           ++ destruct (flt f_0 rel) eqn:Hhi.
              ** apply Hpass; [reflexivity| |exact Hns]. right.
                 repeat split; try assumption; try reflexivity. left. reflexivity.
              ** destruct (flt winrate_of_first f_half) eqn:Hbe.
                 --- apply Hpass; [reflexivity| |exact Hns]. right.
                     repeat split; try assumption; try reflexivity. right. reflexivity.
                 --- apply Hfirst; [reflexivity|reflexivity| |exact Hns].
                     intros (_ & _ & _ & [Hc | Hc]); discriminate.
        -- apply Hfirst; [reflexivity|reflexivity| |exact Hns].
           intros (_ & Hc & _). contradiction.
Qed.

End BestMoveProofs.

Section BestMoveRuns.
Import BestMove BestMoveDemo.

Lemma pass_heuristics_witness :
  let S := demo_search (-1) passing_wins in
  let children := [visited 100 (9 # 10); visited (-1) (8 # 10)] in
  has_flag 0 (NOPASS S) = false
  /\ cfg_dumbpass S = false
  /\ ordered_children S children = children
  /\ get_best_move S 0 children = Some (-1)
  /\ think_result S true 0 children = Some (-1).
Proof.
  intros S children.
  split; [reflexivity|]. split; [reflexivity|]. split; [reflexivity|].
  destruct (pass_heuristics S 0 children (visited 100 (9 # 10))
              [visited (-1) (8 # 10)] true eq_refl eq_refl eq_refl)
    as (bestmove & eval & _ & _ & _ & Hwin).
  apply Hwin; reflexivity.
Defined.

(** C4 (as stated) fails when passing draws: PASS is the most-visited
    move, passing does not win by the final score (the score is 0), a
    visited non-pass child exists, and yet PASS is returned because that
    child's winrate (0.4) is not above 0.5. *)
Lemma pass_kept_when_passing_draws :
  let S := demo_search (-1) passing_draws in
  let children := [visited (-1) (1 # 2); visited 100 (4 # 10)] in
  has_flag 0 (NOPASS S) = false
  /\ cfg_dumbpass S = false
  /\ ordered_children S children = children
  /\ flt f_0 (relative_score S) = false
  /\ get_nopass_child S (m_rootstate S) children = Some (visited 100 (4 # 10))
  /\ pass_rules S 0 children = Some (-1, (1 # 2)%Q)
  /\ get_best_move S 0 children = Some (-1).
Proof. vm_compute. repeat split. Qed.

Lemma think_resigns_exactly_when_witness :
  let S := demo_search (-1) black_is_lost in
  let children := [visited 100 (5 # 100); visited 101 (4 # 100)] in
  ordered_children S children = children
  /\ PASS S <> RESIGN S
  /\ get_move (visited 100 (5 # 100)) <> RESIGN S
  /\ think_result S true 0 children = Some (-2).
Proof.
  intros S children.
  split; [reflexivity|]. split; [discriminate|]. split; [discriminate|].
  apply (think_resigns_exactly_when S 0 children (visited 100 (5 # 100))
           [visited 101 (4 # 100)] true eq_refl).
  - discriminate.
  - discriminate.
  - intros n Hn. vm_compute in Hn. injection Hn as <-. discriminate.
  - split; [reflexivity|]. split; [reflexivity|]. split; [discriminate|].
    split; [reflexivity|]. left.
    split; [discriminate|]. split.
    + intros (_ & Hc & _). vm_compute in Hc. discriminate.
    + split; [reflexivity|]. intros Hc. vm_compute in Hc. discriminate.
Defined.

Example default_resign_threshold :
  Qeq_bool (resign_threshold (demo_search (-1) black_is_lost)) (1 # 10) = true.
Proof. reflexivity. Qed.

Example configured_resign_threshold :
  Qeq_bool (resign_threshold (demo_search 5 black_is_lost)) (5 # 100) = true.
Proof. reflexivity. Qed.

Example blended_threshold_at_start :
  Qeq_bool (blended_resign_threshold (demo_search (-1) (white_gives_four 0))) (2 # 100)
  = true.
Proof. reflexivity. Qed.

Example blended_threshold_half_way :
  Qeq_bool (blended_resign_threshold (demo_search (-1) (white_gives_four 108)))
    ((1080 # 2166) * (1 # 10) + (1086 # 2166) * (2 # 100))
  = true.
Proof. reflexivity. Qed.

Example blended_threshold_late :
  Qeq_bool (blended_resign_threshold (demo_search (-1) (white_gives_four 217))) (1 # 10)
  = true.
Proof. reflexivity. Qed.

Example white_plays_on_in_handicap_game :
  think_result (demo_search (-1) (white_gives_four 100)) true 0
    [visited 100 (92 # 100); visited 101 (96 # 100)]
  = Some 100.
Proof. reflexivity. Qed.

Example white_resigns_late_in_handicap_game :
  think_result (demo_search (-1) (white_gives_four 217)) true 0
    [visited 100 (92 # 100); visited 101 (96 # 100)]
  = Some (-2).
Proof. reflexivity. Qed.

Example noresign_flag_is_honoured :
  think_result (demo_search (-1) black_is_lost) true 2
    [visited 100 (5 # 100); visited 101 (4 # 100)]
  = Some 100.
Proof. reflexivity. Qed.

End BestMoveRuns.

Section TimeManageProofs.
Import TimeManage.

Variable UNLIMITED_PLAYOUTS : Z.
Variable playouts_in : Z -> Z -> Z -> Z.

Lemma mark_noncontenders_spec (required : Z) (prune : bool) (cs : list node) :
  mark_noncontenders required prune cs
  = (if prune then deactivate_noncontenders required cs else cs,
     Z.of_nat (length (noncontenders required cs))).
Proof.
  induction cs as [|n cs IH]; simpl.
  - destruct prune; reflexivity.
  - rewrite IH. destruct (valid n); simpl.
    + destruct (Z.leb_spec required (get_visits n)) as [Hge|Hlt];
        destruct (Z.ltb_spec (get_visits n) required) as [Hlt'|Hge']; try lia;
        destruct prune; simpl; f_equal; lia.
    + destruct prune; reflexivity.
Qed.

Lemma deactivate_length (required : Z) (cs : list node) :
  length (deactivate_noncontenders required cs) = length cs.
Proof. unfold deactivate_noncontenders. apply length_map. Qed.

(** C3 (as amended). During [think], [have_alternate_moves] takes the bar
    [min_required_visits = Nfirst - est_playouts_left] and
    - with time management OFF, or a root without children, changes
      nothing and lets the search go on;
    - otherwise counts the valid children below the bar and, unless time
      management is NO_PRUNING, deactivates exactly those (NO_PRUNING
      leaves every child as it is, but the count is taken all the same);
    - stops the search early exactly when at most one child is not below
      the bar (the count is at least the number of children minus one) and
      either time management is FAST, or the clock can accumulate time and
      the playout limit is not below [UNLIMITED_PLAYOUTS]. This holds for
      NO_PRUNING as for AUTO and ON: only OFF rules the early stop out. *)
Theorem early_stop_rule (s : search) (elapsed_centis time_for_move : Z) :
  let required :=
    most_visits 0 (children s)
    - est_playouts_left playouts_in s elapsed_centis time_for_move in
  let short := Z.of_nat (length (noncontenders required (children s))) in
  let size := Z.of_nat (length (children s)) in
  let off := enabled_eqb (cfg_timemanage s) OFF in
  let no_pruning := enabled_eqb (cfg_timemanage s) NO_PRUNING in
  let fast := enabled_eqb (cfg_timemanage s) FAST in
  let '(s', keep_running) :=
    have_alternate_moves UNLIMITED_PLAYOUTS playouts_in s elapsed_centis time_for_move in
  keep_running
  = negb (negb off && negb (size =? 0) && (size - 1 <=? short)
          && (fast || (can_accumulate_time s
                       && (UNLIMITED_PLAYOUTS <=? m_maxplayouts s))))
  /\ s' = with_children
            (if off || (size =? 0) || no_pruning then children s
             else deactivate_noncontenders required (children s)) s.
Proof.
  cbv zeta. unfold have_alternate_moves, prune_noncontenders, min_required_visits.
  rewrite mark_noncontenders_spec.
  set (required := most_visits 0 (children s) - _).
  destruct s as [tm pl mp mv rv cs acc]. simpl.
  destruct (enabled_eqb tm OFF) eqn:Hoff; simpl; [split; reflexivity|].
  destruct (Z.eqb_spec (Z.of_nat (length cs)) 0) as [Hz|Hz]; simpl; [split; reflexivity|].
  assert (Hlen : Z.of_nat (length (if negb (enabled_eqb tm NO_PRUNING)
                                   then deactivate_noncontenders required cs else cs))
                 = Z.of_nat (length cs)).
  { destruct (negb _); [rewrite deactivate_length|]; reflexivity. }
  rewrite Hlen.
  destruct (Z.ltb_spec (Z.of_nat (length (noncontenders required cs)))
              (Z.of_nat (length cs) - 1)) as [Hlt|Hge];
    destruct (Z.leb_spec (Z.of_nat (length cs) - 1)
                (Z.of_nat (length (noncontenders required cs)))) as [Hle|Hgt];
    try lia; simpl.
  - split; [reflexivity|]. destruct (enabled_eqb tm NO_PRUNING); reflexivity.
  - destruct (Z.ltb_spec mp UNLIMITED_PLAYOUTS) as [Hl|Hl];
      destruct (Z.leb_spec UNLIMITED_PLAYOUTS mp) as [Hl'|Hl']; try lia;
      destruct acc; destruct (enabled_eqb tm FAST); simpl;
      (split; [reflexivity|]); destruct (enabled_eqb tm NO_PRUNING); reflexivity.
Qed.

End TimeManageProofs.

(** C3 (as stated) fails for NO_PRUNING: with the clock able to accumulate
    time and no playout limit, all children but one are below the bar
    (900 - 20 = 880 visits), nothing is deactivated, and the search is
    stopped early nevertheless. *)
Lemma no_pruning_still_stops_early :
  let s := TimeManage.self_play_search in
  TimeManage.cfg_timemanage s = TimeManage.NO_PRUNING
  /\ TimeManage.min_required_visits TimeManage.exact_playouts_in s 500 510 = 880
  /\ TimeManage.have_alternate_moves 1073741823 TimeManage.exact_playouts_in s 500 510
     = (s, false).
Proof. vm_compute. repeat split. Qed.

Section SearchProofs.
Import Search.

Context {F : Type} `{FloatOps F} {GameState : Type}.
Variable C : collaborators F GameState.

Abbreviation world := (Search.world F).
Abbreviation BackupData := (Search.BackupData F GameState).

Lemma occurrences_app (node : nat) (p q : list (nat * F)) :
  occurrences node (p ++ q) = occurrences node p + occurrences node q.
Proof.
  induction p as [|[n f] p IH]; simpl; [lia|]. rewrite IH. lia.
Qed.

Lemma occurrences_rev (node : nat) (p : list (nat * F)) :
  occurrences node (rev p) = occurrences node p.
Proof.
  induction p as [|[n f] p IH]; simpl; [reflexivity|].
  rewrite occurrences_app, IH. simpl. lia.
Qed.

Lemma takes_off_refl (w : world) : takes_off (fun _ => 0) w w.
Proof. repeat split; auto. intros. lia. Qed.

Lemma takes_off_trans (d1 d2 : nat -> Z) (w w1 w2 : world) :
  takes_off d1 w w1 -> takes_off d2 w1 w2 ->
  takes_off (fun node => d1 node + d2 node) w w2.
Proof.
  intros (E1 & A1 & V1) (E2 & A2 & V2). repeat split.
  - intros node Hn. auto.
  - intros node. rewrite A2, A1. reflexivity.
  - intros node. rewrite V2, V1. lia.
Qed.

Lemma takes_off_ext (d1 d2 : nat -> Z) (w w' : world) :
  (forall node, d1 node = d2 node) -> takes_off d1 w w' -> takes_off d2 w w'.
Proof.
  intros He (E1 & A1 & V1). repeat split; auto. intros node. rewrite V1, He. reflexivity.
Qed.

Lemma update_removes (e : F) (vl : Z) (a b : F) : removes vl (update e vl a b).
Proof. intros n. split; reflexivity. Qed.

Lemma virtual_loss_undo_removes (vl : Z) : removes vl (virtual_loss_undo (F := F) vl).
Proof. intros n. split; reflexivity. Qed.

Lemma on_node_takes_off (vl : Z) (f : UCTNode F -> UCTNode F) (node : nat) (w : world) :
  removes vl f -> is_Some (nodes w !! node) ->
  takes_off (fun m => if Nat.eqb node m then vl else 0) w (on_node f node w).
Proof.
  intros Hf [n Hn]. unfold takes_off, on_node, on_nodes, vloss, accumulated,
    vloss_at, accumulated_at. simpl.
  repeat split; intros m.
  - intros Hm. rewrite lookup_alter_is_Some. exact Hm.
  - rewrite lookup_alter. case_decide as Hd.
    + subst m. rewrite Hn. simpl. apply Hf.
    + reflexivity.
  - rewrite lookup_alter. case_decide as Hd.
    + subst m. rewrite Hn. simpl. rewrite Nat.eqb_refl. apply Hf.
    + destruct (Nat.eqb_spec node m); [contradiction|]. lia.
Qed.

Lemma decrement_pending_takes_off (pc : nat) (w : world) :
  takes_off (fun _ => 0) w (decrement_pending pc w).
Proof. repeat split; auto. intros. unfold vloss. simpl. lia. Qed.

Lemma keeps_counters_takes_off (f : heap F -> heap F) (w : world) :
  keeps_counters f -> takes_off (fun _ => 0) w (on_nodes f w).
Proof.
  intros Hk. unfold takes_off, vloss, accumulated, on_nodes. simpl.
  repeat split; intros node; destruct (Hk (nodes w) node) as (E & V & A); auto.
  rewrite V. lia.
Qed.

Lemma takes_off_exists (d : nat -> Z) (w w' : world) (p : list (nat * F)) :
  takes_off d w w' ->
  (forall node f, In (node, f) p -> is_Some (nodes w !! node)) ->
  (forall node f, In (node, f) p -> is_Some (nodes w' !! node)).
Proof. intros (E & _ & _) Hp node f Hin. eapply E, Hp, Hin. Qed.

Lemma backup_loop_takes_off (e : F) (vl : Z) (rest : list (nat * F)) :
  forall (factor : F) (w : world),
    (forall node f, In (node, f) rest -> is_Some (nodes w !! node)) ->
    takes_off (fun m => vl * occurrences m rest) w (backup_loop e vl factor rest w).
Proof.
  induction rest as [|[node nf] rest IH]; intros factor w Hex; simpl.
  - eapply takes_off_ext; [|apply takes_off_refl]. intros; simpl; lia.
  - assert (Hn : is_Some (nodes w !! node)) by (eapply Hex; left; reflexivity).
    pose proof (on_node_takes_off vl (update e vl factor (fmul factor nf)) node w
                  (update_removes _ _ _ _) Hn) as H1.
    assert (Hex1 : forall n f, In (n, f) rest ->
                     is_Some (nodes (on_node (update e vl factor (fmul factor nf)) node w) !! n)).
    { eapply takes_off_exists; [exact H1|]. intros n f Hin. eapply Hex. right. exact Hin. }
    pose proof (IH (fmul factor nf) _ Hex1) as H2.
    eapply takes_off_ext; [|eapply takes_off_trans; [exact H1|exact H2]].
    intros m. simpl. destruct (Nat.eqb node m); lia.
Qed.

Lemma undo_fold_takes_off (vl : Z) (p : list (nat * F)) :
  forall (w : world),
    (forall node f, In (node, f) p -> is_Some (nodes w !! node)) ->
    takes_off (fun m => vl * occurrences m p) w
      (fold_left (fun w nf => on_node (virtual_loss_undo vl) (fst nf) w) p w).
Proof.
  induction p as [|[node nf] p IH]; intros w Hex; simpl.
  - eapply takes_off_ext; [|apply takes_off_refl]. intros; simpl; lia.
  - assert (Hn : is_Some (nodes w !! node)) by (eapply Hex; left; reflexivity).
    pose proof (on_node_takes_off vl (virtual_loss_undo vl) node w
                  (virtual_loss_undo_removes vl) Hn) as H1.
    assert (Hex1 : forall n f, In (n, f) p ->
                     is_Some (nodes (on_node (virtual_loss_undo vl) node w) !! n)).
    { eapply takes_off_exists; [exact H1|]. intros n f Hin. eapply Hex. right. exact Hin. }
    pose proof (IH _ Hex1) as H2.
    eapply takes_off_ext; [|eapply takes_off_trans; [exact H1|exact H2]].
    intros m. simpl. destruct (Nat.eqb node m); lia.
Qed.

Lemma failed_simulation_takes_off (bd : BackupData) (vl : Z) (w : world) :
  (forall node f, In (node, f) (path bd) -> is_Some (nodes w !! node)) ->
  takes_off (fun m => to_uint16 vl * occurrences m (path bd)) w
    (failed_simulation bd vl false w).
Proof.
  intros Hex. unfold failed_simulation.
  eapply takes_off_ext;
    [|eapply takes_off_trans; [|apply decrement_pending_takes_off]].
  2: { apply (undo_fold_takes_off (to_uint16 vl) (rev (path bd))).
       intros node f Hin. apply in_rev in Hin. eapply Hex, Hin. }
  intros m. simpl. rewrite occurrences_rev. lia.
Qed.

Lemma backup_vl_takes_off (bd : BackupData) (vl : Z) (w : world)
    (init : list (nat * F)) (leaf : nat) (factor : F) :
  path bd = init ++ [(leaf, factor)] ->
  (forall node f, In (node, f) init -> is_Some (nodes w !! node)) ->
  takes_off (fun m => to_uint16 vl * occurrences m init) w (backup_vl bd vl w).
Proof.
  intros Hp Hex. unfold backup_vl. rewrite Hp, rev_unit.
  eapply takes_off_ext;
    [|eapply takes_off_trans; [|apply decrement_pending_takes_off]].
  2: { apply (backup_loop_takes_off (eval bd) (to_uint16 vl) (rev init)).
       intros node f Hin. apply in_rev in Hin. eapply Hex, Hin. }
  intros m. simpl. rewrite occurrences_rev. lia.
Qed.

Lemma leaf_backup_takes_off (bd : BackupData) (w : world) :
  path bd <> [] ->
  (forall node f, In (node, f) (path bd) -> is_Some (nodes w !! node)) ->
  takes_off (fun m => occurrences m (path bd)) w (leaf_backup bd w).
Proof.
  intros Hne Hex. unfold leaf_backup.
  destruct (last (path bd)) as [[leaf factor]|] eqn:Hl;
    [|apply last_None in Hl; contradiction].
  apply last_Some in Hl. destruct Hl as [init Hp].
  assert (Hn : is_Some (nodes w !! leaf)).
  { eapply (Hex leaf factor). rewrite Hp. apply in_or_app. right. left. reflexivity. }
  pose proof (on_node_takes_off 1 (update (eval bd) 1 f_1 factor) leaf w
                (update_removes _ _ _ _) Hn) as H1.
  assert (Hex1 : forall n f, In (n, f) init ->
                   is_Some (nodes (on_node (update (eval bd) 1 f_1 factor) leaf w) !! n)).
  { eapply takes_off_exists; [exact H1|]. intros n f Hin. eapply Hex.
    rewrite Hp. apply in_or_app. left. exact Hin. }
  pose proof (backup_vl_takes_off bd 1 _ init leaf factor Hp Hex1) as H2.
  eapply takes_off_ext; [|eapply takes_off_trans; [exact H1|exact H2]].
  intros m. simpl. rewrite Hp, occurrences_app. simpl.
  change (to_uint16 1) with 1. destruct (Nat.eqb leaf m); lia.
Qed.

Lemma takes_off_nodes (d : nat -> Z) (w w1 w2 : world) :
  nodes w2 = nodes w1 -> takes_off d w w1 -> takes_off d w w2.
Proof.
  unfold takes_off, vloss, accumulated. intros ->. tauto.
Qed.

Lemma keeps_counters_step (f : heap F -> heap F) (w w' : world) :
  keeps_counters f -> nodes w' = f (nodes w) -> takes_off (fun _ => 0) w w'.
Proof.
  intros Hk Hn. eapply takes_off_nodes; [|apply (keeps_counters_takes_off f w Hk)].
  rewrite Hn. reflexivity.
Qed.

Lemma exchange_effect (leaf : nat) (w : world) :
  is_Some (nodes w !! leaf) ->
  let w' := on_node (fun n => snd (exchange_accumulated_vl n)) leaf w in
  (forall node, is_Some (nodes w !! node) -> is_Some (nodes w' !! node))
  /\ (forall node, vloss w' node = vloss w node)
  /\ (forall node, accumulated w' node
                   = if Nat.eqb leaf node then 0 else accumulated w node).
Proof.
  intros [n Hn]. unfold on_node, on_nodes, vloss, accumulated, vloss_at, accumulated_at.
  simpl. repeat split; intros m.
  - intros Hm. apply lookup_alter_is_Some. exact Hm.
  - rewrite lookup_alter. case_decide as Hd; [subst m; rewrite Hn|]; reflexivity.
  - rewrite lookup_alter. case_decide as Hd.
    + subst m. rewrite Hn, Nat.eqb_refl. reflexivity.
    + destruct (Nat.eqb_spec leaf m); [contradiction|reflexivity].
Qed.

(** The expansion backup: [vl], the accumulated count exchanged from the
    expanded node, is what comes off every node of the path. *)
Lemma backup_expansion (bd : BackupData) (netresult : Netresult F) (w : world)
    (init : list (nat * F)) (leaf : nat) (factor : F) :
  well_behaved C ->
  path bd = init ++ [(leaf, factor)] ->
  is_Some (state bd) ->
  (forall node f, In (node, f) (path bd) -> is_Some (nodes w !! node)) ->
  0 <= accumulated w leaf < 65536 ->
  exists bd' w',
    backup C bd netresult w = Some (bd', w')
    /\ (forall node, is_Some (nodes w !! node) -> is_Some (nodes w' !! node))
    /\ (forall node,
          vloss w' node = vloss w node - accumulated w leaf * occurrences node (path bd))
    /\ (forall node,
          accumulated w' node = if Nat.eqb leaf node then 0 else accumulated w node).
Proof.
  intros (Hcc & Hpr & Hrw) Hp [st Hst] Hex Hacc.
  assert (Hleaf : is_Some (nodes w !! leaf)).
  { eapply (Hex leaf factor). rewrite Hp. apply in_or_app. right. left. reflexivity. }
  destruct Hleaf as [n0 Hn0].
  unfold backup. rewrite Hp, last_snoc, <- Hp, Hst, Hn0.
  set (is_root := Nat.eqb (length (path bd)) 1).
  set (ratio := if is_root then f_0 else Search.get_min_psa_ratio C).
  set (first_visit := feqb (get_visits n0) f_0).
  set (w1 := on_nodes (Search.create_children C netresult (symmetry bd) st ratio leaf) w).
  assert (T1 : takes_off (fun _ => 0) w w1) by (apply keeps_counters_takes_off, Hcc).
  assert (Hvl : match nodes w1 !! leaf with
                | Some n1 => fst (exchange_accumulated_vl n1)
                | None => 0
                end = accumulated w leaf).
  { destruct T1 as (_ & A1 & _). rewrite <- (A1 leaf).
    unfold accumulated, accumulated_at. destruct (nodes w1 !! leaf); reflexivity. }
  rewrite Hvl. set (a := accumulated w leaf) in *.
  set (w2 := on_node (fun n => snd (exchange_accumulated_vl n)) leaf w1).
  assert (Hl1 : is_Some (nodes w1 !! leaf)).
  { destruct T1 as (E1 & _). apply E1. rewrite Hn0. eauto. }
  destruct (exchange_effect leaf w1 Hl1) as (E2 & V2 & A2). fold w2 in E2, V2, A2.
  (* everything after the exchange only takes virtual loss off *)
  assert (Hrest : forall w6,
            takes_off (fun m => a * occurrences m (path bd)) w2 w6 ->
            (forall node, is_Some (nodes w !! node) -> is_Some (nodes w6 !! node))
            /\ (forall node, vloss w6 node = vloss w node - a * occurrences node (path bd))
            /\ (forall node, accumulated w6 node
                             = if Nat.eqb leaf node then 0 else accumulated w node)).
  { intros w6 (E6 & A6 & V6). destruct T1 as (E1 & A1 & V1). repeat split; intros node.
    - intros Hn. apply E6, E2, E1, Hn.
    - rewrite V6, V2, V1. lia.
    - rewrite A6, A2, A1. reflexivity. }
  assert (Hex2 : forall node f, In (node, f) (path bd) -> is_Some (nodes w2 !! node)).
  { intros node f Hin. apply E2. destruct T1 as (E1 & _). apply E1. eapply Hex, Hin. }
  assert (Hu : to_uint16 a = a) by (apply Z.mod_small; exact Hacc).
  destruct first_visit.
  - (* the node had no visit: update, then backup along the path *)
    set (bd1 := set_eval _ bd).
    set (w3 := on_node (update (eval bd1) a f_1 factor) leaf w2).
    assert (T3 : takes_off (fun m => if Nat.eqb leaf m then a else 0) w2 w3).
    { apply on_node_takes_off; [apply update_removes|].
      eapply (Hex2 leaf factor). rewrite Hp. apply in_or_app. right. left. reflexivity. }
    set (w4 := if is_root && negb (m_root_prepared w3)
               then mkWorld (Search.prepare_root_node C st leaf (nodes w3)) (counters w3)
                      (m_playouts w3) true
               else w3).
    assert (T4 : takes_off (fun _ => 0) w3 w4).
    { unfold w4. destruct (is_root && negb (m_root_prepared w3)).
      - eapply keeps_counters_step; [apply Hpr|reflexivity].
      - apply takes_off_refl. }
    set (w5 := on_nodes (Search.release_writer C leaf) w4).
    assert (T5 : takes_off (fun _ => 0) w4 w5) by (apply keeps_counters_takes_off, Hrw).
    pose proof (takes_off_trans _ _ _ _ _ T3 (takes_off_trans _ _ _ _ _ T4 T5)) as T35.
    assert (Hex5 : forall node f, In (node, f) init -> is_Some (nodes w5 !! node)).
    { eapply takes_off_exists; [exact T35|]. intros node f Hin. eapply Hex2.
      rewrite Hp. apply in_or_app. left. exact Hin. }
    pose proof (backup_vl_takes_off bd1 a w5 init leaf factor Hp Hex5) as T6.
    pose proof (takes_off_trans _ _ _ _ _ T35 T6) as T.
    eexists. eexists. split; [reflexivity|].
    apply Hrest. eapply takes_off_nodes; [reflexivity|].
    eapply takes_off_ext; [|exact T].
    intros m. simpl. rewrite Hu, Hp, occurrences_app. simpl.
    destruct (Nat.eqb leaf m); lia.
  - (* the node had been visited: the virtual loss is unwound only *)
    set (w4 := if is_root && negb (m_root_prepared w2)
               then mkWorld (Search.prepare_root_node C st leaf (nodes w2)) (counters w2)
                      (m_playouts w2) true
               else w2).
    assert (T4 : takes_off (fun _ => 0) w2 w4).
    { unfold w4. destruct (is_root && negb (m_root_prepared w2)).
      - eapply keeps_counters_step; [apply Hpr|reflexivity].
      - apply takes_off_refl. }
    set (w5 := on_nodes (Search.release_writer C leaf) w4).
    assert (T5 : takes_off (fun _ => 0) w4 w5) by (apply keeps_counters_takes_off, Hrw).
    pose proof (takes_off_trans _ _ _ _ _ T4 T5) as T45.
    assert (Hex5 : forall node f, In (node, f) (path bd) -> is_Some (nodes w5 !! node)).
    { eapply takes_off_exists; [exact T45|]. exact Hex2. }
    pose proof (failed_simulation_takes_off bd a w5 Hex5) as T6.
    pose proof (takes_off_trans _ _ _ _ _ T45 T6) as T.
    eexists. eexists. split; [reflexivity|].
    apply Hrest. eapply takes_off_nodes; [reflexivity|].
    eapply takes_off_ext; [|exact T].
    intros m. simpl. rewrite Hu. lia.
Qed.

Lemma same_shape_refl (n : UCTNode F) : same_shape n n.
Proof. repeat split. Qed.

Lemma shape_kept_refl (w : world) : shape_kept w w.
Proof. intros node. destruct (nodes w !! node); [apply same_shape_refl|exact I]. Qed.

Lemma shape_kept_trans (w w1 w2 : world) :
  shape_kept w w1 -> shape_kept w1 w2 -> shape_kept w w2.
Proof.
  intros H1 H2 node. specialize (H1 node). specialize (H2 node).
  destruct (nodes w !! node), (nodes w1 !! node), (nodes w2 !! node);
    try contradiction; auto.
  unfold same_shape in *. intuition congruence.
Qed.

Lemma on_node_update_shape (e : F) (vl : Z) (a b : F) (node : nat) (w : world) :
  shape_kept w (on_node (update e vl a b) node w).
Proof.
  intros k. unfold on_node, on_nodes. simpl.
  rewrite lookup_alter. case_decide as Hd.
  - subst k. destruct (nodes w !! node); simpl; [repeat split|exact I].
  - destruct (nodes w !! k); [apply same_shape_refl|exact I].
Qed.

Lemma backup_loop_shape (e : F) (vl : Z) (rest : list (nat * F)) :
  forall (factor : F) (w : world), shape_kept w (backup_loop e vl factor rest w).
Proof.
  induction rest as [|[node nf] rest IH]; intros factor w; simpl.
  - apply shape_kept_refl.
  - eapply shape_kept_trans; [apply on_node_update_shape|apply IH].
Qed.

Lemma backup_vl_shape (bd : BackupData) (vl : Z) (w : world) :
  shape_kept w (backup_vl bd vl w).
Proof.
  unfold backup_vl. destruct (rev (path bd)) as [|[n f] rest]; intros k.
  - exact (shape_kept_refl w k).
  - exact (backup_loop_shape (eval bd) (to_uint16 vl) rest f w k).
Qed.

Lemma leaf_backup_shape (bd : BackupData) (w : world) : shape_kept w (leaf_backup bd w).
Proof.
  unfold leaf_backup. destruct (last (path bd)) as [[leaf factor]|].
  - eapply shape_kept_trans; [apply on_node_update_shape|apply backup_vl_shape].
  - apply shape_kept_refl.
Qed.

Lemma backup_loop_elsewhere (e : F) (vl : Z) (rest : list (nat * F)) (k : nat) :
  occurrences k rest = 0 ->
  forall (factor : F) (w : world),
    nodes (backup_loop e vl factor rest w) !! k = nodes w !! k.
Proof.
  induction rest as [|[node nf] rest IH]; intros Ho factor w; simpl in *.
  - reflexivity.
  - assert (Hr : 0 <= occurrences k rest).
    { clear. induction rest as [|[n f] r IHr]; simpl; [lia|]. destruct (Nat.eqb n k); lia. }
    destruct (Nat.eqb_spec node k) as [->|Hd]; [lia|].
    rewrite IH by lia. unfold on_node, on_nodes. simpl.
    apply lookup_alter_ne. exact Hd.
Qed.

(** C8 (as amended). A simulation that reaches a position with two
    consecutive passes asks no network: it ends at once with a backup of
    the value given by the final score, 1 when the score is positive
    (Black wins), 0 when it is negative (White wins) and 0.5 otherwise.
    That value is what [update] is handed at the terminal node (one visit,
    one unit of virtual loss off) and along the path. The node is not
    marked: the backup writes statistics only, so every node, the terminal
    one included, keeps its expansion state and its children as they
    were, and no node is created. *)
Theorem terminal_value_from_final_score
    (fuel : nat) (currstate : GameState) (node : nat) (factor : F)
    (is_root : bool) (bd : BackupData) (w : world) (n : UCTNode F) :
  2 <= Search.get_passes C currstate ->
  nodes w !! node = Some n ->
  occurrences node (path bd) = 0 ->
  let score := Search.final_score C currstate in
  let value := eval_from_score score in
  exists bd' w',
    play_loop C (S fuel) currstate node factor is_root bd w = (BackedUp bd', w')
    /\ path bd' = path bd ++ [(node, factor)]
    /\ eval bd' = value
    /\ w' = leaf_backup bd' w
    /\ value = (if flt f_0 score then f_1 else if flt score f_0 then f_0 else f_half)
    /\ nodes w' !! node = Some (update value 1 f_1 factor n)
    /\ shape_kept w w'.
Proof.
  intros Hp Hn Ho score value.
  set (bd' := set_eval value (push_path node factor bd)).
  exists bd', (leaf_backup bd' w).
  assert (Hl : last (path bd') = Some (node, factor)) by apply last_snoc.
  split.
  { simpl. destruct (Z.leb_spec 2 (Search.get_passes C currstate)) as [_|Hlt]; [|lia].
    unfold leaf_backup. rewrite Hl. reflexivity. }
  split; [reflexivity|]. split; [reflexivity|]. split; [reflexivity|].
  split; [reflexivity|]. split; [|apply leaf_backup_shape].
  unfold leaf_backup. rewrite Hl. unfold backup_vl.
  change (path bd') with (path bd ++ [(node, factor)]). rewrite rev_unit.
  change (nodes (decrement_pending ?pc ?x)) with (nodes x).
  rewrite backup_loop_elsewhere by (rewrite occurrences_rev; exact Ho).
  unfold on_node, on_nodes. simpl.
  rewrite lookup_alter_eq, Hn. reflexivity.
Qed.

End SearchProofs.

Section SearchRuns.
Import Search SearchDemo.

Lemma quiet_well_behaved : well_behaved quiet.
Proof. repeat split; auto. Qed.


Lemma terminal_value_from_final_score_witness :
  let n := a_node (-1) 1 0 IDLE in
  2 <= Search.get_passes game_over tt
  /\ nodes at_terminal_child !! 1%nat = Some n
  /\ occurrences 1 (path came_from_root) = 0
  /\ exists bd' w',
       play_loop game_over 1 tt 1 1%Q false came_from_root at_terminal_child
       = (BackedUp bd', w')
       /\ path bd' = path came_from_root ++ [(1%nat, 1%Q)]
       /\ eval bd' = eval_from_score 5%Q
       /\ w' = leaf_backup bd' at_terminal_child
       /\ eval_from_score 5%Q
          = (if flt 0%Q 5%Q then f_1 else if flt 5%Q 0%Q then f_0 else f_half)
       /\ nodes w' !! 1%nat = Some (update (eval_from_score 5%Q) 1 f_1 1%Q n)
       /\ shape_kept at_terminal_child w'.
Proof.
  intros n.
  split; [discriminate|]. split; [reflexivity|]. split; [reflexivity|].
  assert (Hp : 2 <= Search.get_passes game_over tt) by discriminate.
  exact (terminal_value_from_final_score game_over 0 tt 1 1%Q false came_from_root
           at_terminal_child n Hp eq_refl eq_refl).
Defined.

(** C8 (as stated) fails on the marking: after the simulation has backed
    up the terminal value (1, Black being ahead), the node is in the
    expansion state it was in before, IDLE, like any node that has never
    been expanded; it differs from what it was by its statistics only. *)
Lemma terminal_node_is_not_marked :
  let before := a_node (-1) 1 0 IDLE in
  let after := mkUCTNode (-1) 0%Q (0 + 1 * 1)%Q (0 + 1 * 1)%Q 0 0 [] IDLE 0 true in
  exists bd' w',
    play_loop game_over 1 tt 1 1%Q false came_from_root at_terminal_child
    = (BackedUp bd', w')
    /\ eval bd' = 1%Q
    /\ nodes at_terminal_child !! 1%nat = Some before
    /\ nodes w' !! 1%nat = Some after
    /\ expand_state after = expand_state before
    /\ get_children after = get_children before.
Proof.
  eexists. eexists. split; [vm_compute; reflexivity|].
  vm_compute. repeat split.
Qed.

End SearchRuns.

Section DescentProofs.
Import Search Descent.

Context {F : Type} `{FloatOps F} {GameState : Type}.
Variable C : collaborators F GameState.

Abbreviation flight := (Descent.flight F GameState).

(** [play_simulation] is its descent followed by what it settles itself. *)
Lemma play_loop_settles_descent (fuel : nat) :
  forall (currstate : GameState) (node : nat) (factor : F) (is_root : bool)
         (bd : BackupData F GameState) (w : world F),
    play_loop C fuel currstate node factor is_root bd w
    = (let '(s, w') := descent C fuel currstate node factor is_root bd w in
       settle C s w').
Proof.
  induction fuel as [|fuel IH]; intros currstate node factor is_root bd w;
    cbn [play_loop descent]; [reflexivity|].
  destruct (2 <=? Search.get_passes C currstate); [reflexivity|].
  destruct (Search.get_action C (is_root && negb (m_root_prepared w)) node (nodes w))
    as [[] h]; try reflexivity.
  destruct (Search.uct_select_child C _ _ _ _) as [[[new_node new_factor]|] h'];
    [|reflexivity].
  destruct (negb _ && _); [reflexivity|]. apply IH.
Qed.

(** The descent stops at the node it has recorded last, and its path
    continues the path it was given. *)
Lemma descent_ends_its_path (fuel : nat) :
  forall (currstate : GameState) (node : nat) (factor : F) (is_root : bool)
         (bd : BackupData F GameState) (w : world F),
    ends_its_path (fst (descent C fuel currstate node factor is_root bd w)).
Proof.
  induction fuel as [|fuel IH]; intros currstate node factor is_root bd w;
    cbn [descent]; [exact I|].
  destruct (2 <=? Search.get_passes C currstate);
    [exists (path bd); reflexivity|].
  destruct (Search.get_action C (is_root && negb (m_root_prepared w)) node (nodes w))
    as [[] h]; cbn [fst ends_its_path].
  - exists (path bd), factor. reflexivity.
  - exists (path bd), factor. reflexivity.
  - destruct (Search.uct_select_child C _ _ _ _) as [[[new_node new_factor]|] h'].
    + destruct (negb _ && _); [|apply IH].
      cbn [fst ends_its_path push_path path]. intros Hc.
      destruct (path bd); discriminate.
    + exists (path bd). reflexivity.
  - exists (path bd). reflexivity.
Qed.

(** What [play_simulation] settles itself takes one unit off every
    recorded node, per occurrence, where the descent stopped at the end of
    the game, with BACKUP or on a superko, and nothing under WRITE and
    FAIL. *)
Lemma settle_takes_off (s : stop F GameState) (w : world F) :
  ends_its_path s ->
  (forall node factor, In (node, factor) (stop_path s) -> is_Some (nodes w !! node)) ->
  takes_off (fun node => own_units s * occurrences node (stop_path s)) w
    (snd (settle C s w)).
Proof.
  intros He Hex. destruct s as [cs node factor bd|cs node bd|node bd|node factor bd|bd|];
    cbn [settle snd own_units stop_path] in *.
  - destruct He as [init Hp].
    set (bd' := set_eval (eval_from_score (Search.final_score C cs)) bd).
    assert (Hl : snd (BackedUp bd',
                      backup_vl bd' 1 (on_node (update (eval bd') 1 f_1 factor) node w))
                 = leaf_backup bd' w).
    { unfold leaf_backup. cbn [snd bd' set_eval path]. rewrite Hp, last_snoc. reflexivity. }
    cbn [snd] in Hl. rewrite Hl.
    eapply takes_off_ext; [|apply (leaf_backup_takes_off bd' w)].
    + intros m. cbn [bd' set_eval path]. lia.
    + cbn [bd' set_eval path]. rewrite Hp. intros Hc. destruct init; discriminate.
    + exact Hex.
  - eapply takes_off_ext; [|apply takes_off_refl]. intros; cbn; lia.
  - eapply takes_off_ext; [|apply decrement_pending_takes_off]. intros; cbn; lia.
  - destruct He as [init Hp].
    set (bd' := set_eval (Search.get_net_eval C BLACK node (nodes w)) bd).
    assert (Hl : backup_vl bd' 1 (on_node (update (eval bd') 1 f_1 factor) node w)
                 = leaf_backup bd' w).
    { unfold leaf_backup. cbn [bd' set_eval path]. rewrite Hp, last_snoc. reflexivity. }
    rewrite Hl.
    eapply takes_off_ext; [|apply (leaf_backup_takes_off bd' w)].
    + intros m. cbn [bd' set_eval path]. lia.
    + cbn [bd' set_eval path]. rewrite Hp. intros Hc. destruct init; discriminate.
    + exact Hex.
  - eapply takes_off_ext; [|apply (failed_simulation_takes_off bd 1 w Hex)].
    intros m. cbn beta. change (to_uint16 1) with 1. lia.
  - eapply takes_off_ext; [|apply takes_off_refl]. intros; cbn; lia.
Qed.

(** ** What the waiting simulations will take off *)

Lemma in_flight_app (l1 l2 : list (BackupData F GameState)) (w : world F) (node : nat) :
  in_flight (l1 ++ l2) w node = in_flight l1 w node + in_flight l2 w node.
Proof. induction l1 as [|bd l1 IH]; cbn [in_flight app]; [lia|]. rewrite IH. lia. Qed.

Lemma in_flight_ext (l : list (BackupData F GameState)) (w w' : world F) (node : nat) :
  (forall bd, bd ∈ l -> count_of w' bd = count_of w bd) ->
  in_flight l w' node = in_flight l w node.
Proof.
  induction l as [|bd l IH]; intros Hc; cbn [in_flight]; [reflexivity|].
  rewrite Hc by (apply elem_of_cons; left; reflexivity).
  rewrite IH; [reflexivity|]. intros bd' Hin. apply Hc. apply elem_of_cons. right. exact Hin.
Qed.

(** The count of a waiting simulation follows the accumulated count of its
    leaf. *)
Lemma count_of_elsewhere (w w' : world F) (bd : BackupData F GameState) (leaf : nat) :
  (forall node, node <> leaf -> accumulated w' node = accumulated w node) ->
  leaf_of bd <> Some leaf ->
  count_of w' bd = count_of w bd.
Proof.
  intros Ha Hl. unfold count_of. destruct (leaf_of bd) as [l|]; [|reflexivity].
  apply Ha. intros ->. apply Hl. reflexivity.
Qed.

(** One more accumulated unit at the leaf of a waiting simulation: that
    simulation will take one more unit off every node of its path. *)
Lemma in_flight_bump (l : list (BackupData F GameState)) (w w' : world F)
    (writer : BackupData F GameState) (leaf : nat) (node : nat) :
  NoDup (leaf_of <$> l) ->
  writer ∈ l ->
  leaf_of writer = Some leaf ->
  accumulated w' leaf = accumulated w leaf + 1 ->
  (forall n, n <> leaf -> accumulated w' n = accumulated w n) ->
  in_flight l w' node = in_flight l w node + occurrences node (path writer).
Proof.
  intros Hnd Hin Hl Hb Ho. induction l as [|bd l IH]; [inversion Hin|].
  cbn [fmap list_fmap] in Hnd. apply NoDup_cons in Hnd. destruct Hnd as [Hnot Hnd].
  cbn [in_flight]. apply elem_of_cons in Hin. destruct Hin as [<- | Hin].
  - assert (Hc : count_of w' writer = count_of w writer + 1).
    { unfold count_of. rewrite Hl. exact Hb. }
    rewrite Hc. rewrite (in_flight_ext l w w' node); [lia|].
    intros bd' Hin'. apply (count_of_elsewhere w w' bd' leaf Ho).
    intros Hl'. apply Hnot.
    apply list_elem_of_fmap. exists bd'. split; [congruence|exact Hin'].
  - rewrite (IH Hnd Hin).
    rewrite (count_of_elsewhere w w' bd leaf Ho); [lia|].
    intros Hl'. apply Hnot.
    apply list_elem_of_fmap. exists writer. split; [congruence|exact Hin].
Qed.


Lemma count_of_same (w w' : world F) (bd : BackupData F GameState) :
  (forall node, accumulated w' node = accumulated w node) ->
  count_of w' bd = count_of w bd.
Proof. intros Ha. unfold count_of. destruct (leaf_of bd); [apply Ha|reflexivity]. Qed.

(** A step that frees no node and leaves the two counters of every node
    as they were keeps the account. *)
Lemma accounted_same (w w' : world F) (waiting : list (BackupData F GameState)) :
  (forall node, is_Some (nodes w !! node) -> is_Some (nodes w' !! node)) ->
  (forall node, accumulated w' node = accumulated w node) ->
  (forall node, vloss w' node = vloss w node) ->
  accounted (w, waiting) -> accounted (w', waiting).
Proof.
  intros E A V (Hnd & Hall & Hpos & Hzero & Hv). split; [exact Hnd|]. split.
  - eapply Forall_impl; [exact Hall|]. intros bd (Hp & Hs & Hex).
    split; [exact Hp|]. split; [exact Hs|]. intros node factor Hin. eapply E, Hex, Hin.
  - split; [intros node; rewrite A; apply Hpos|]. split.
    + intros node Hn. rewrite A in Hn. apply Hzero, Hn.
    + intros node. rewrite V, Hv. symmetry. apply in_flight_ext.
      intros bd _. apply count_of_same, A.
Qed.

(** A simulation keeps the account: one that completes by itself leaves
    the virtual loss as it found it; one that gets WRITE joins the waiting
    simulations with a count of 1; one that gets FAIL adds 1 to the count
    of the waiting simulation that is to expand the node. *)
Lemma simulate_accounted (fuel : nat) (currstate : GameState) (node pc : nat)
    (st : flight) :
  accounted st ->
  lawful_step C (Simulate fuel currstate node pc) st ->
  exists st', step C (Simulate fuel currstate node pc) st = Some st' /\ accounted st'.
Proof.
  destruct st as [w waiting]. intros Hacc Hlaw.
  cbn [lawful_step step] in *. unfold play_simulation.
  change (mkBackupData [] None f_0 0 pc) with (new_bd (F := F) (GameState := GameState) pc).
  rewrite play_loop_settles_descent.
  pose proof (descent_ends_its_path fuel currstate node f_1 true (new_bd pc) w) as He.
  destruct (descent C fuel currstate node f_1 true (new_bd pc) w) as [s wd].
  cbn [fst] in He. destruct Hlaw as ((E & P & V & A) & Hproto).
  pose proof (settle_takes_off s wd He P) as (E' & A' & V').
  destruct s as [cs leaf factor bd|cs leaf bd|leaf bd|leaf factor bd|bd|];
    cbn [settle snd own_units stop_path stopped_at_unexpanded] in *.
  - (* end of game *)
    eexists. split; [reflexivity|].
    apply (accounted_same w); [| | |exact Hacc].
    + intros n Hn. apply E', E, Hn.
    + intros n. rewrite A', A. rewrite bool_decide_eq_false_2 by discriminate. lia.
    + intros n. rewrite V', V. lia.
  - (* WRITE *)
    destruct Hacc as (Hnd & Hall & Hpos & Hzero & Hv).
    destruct He as (init & factor & Hp).
    assert (Hleaf : leaf_of (set_state cs bd) = Some leaf).
    { unfold leaf_of. cbn [set_state path]. rewrite Hp, last_snoc. reflexivity. }
    assert (Hz : accumulated w leaf = 0).
    { destruct (Z.eq_dec (accumulated w leaf) 0) as [Hz|Hz]; [exact Hz|].
      destruct (Hzero leaf Hz) as (b & Hb & Hl). exfalso. exact (Hproto b Hb Hl). }
    assert (Hat : accumulated wd leaf = 1).
    { rewrite A, Hz. rewrite bool_decide_eq_true_2 by reflexivity. reflexivity. }
    assert (Hel : forall n, n <> leaf -> accumulated wd n = accumulated w n).
    { intros n Hn. rewrite A. rewrite bool_decide_eq_false_2; [lia|].
      intros Hc. injection Hc as Hc. congruence. }
    eexists. split; [reflexivity|]. split; [|split; [|split; [|split]]].
    + rewrite fmap_app. apply NoDup_app. split; [exact Hnd|]. split.
      * intros x Hx Hx'. apply list_elem_of_fmap in Hx. destruct Hx as (b & -> & Hb).
        cbn [fmap list_fmap] in Hx'. apply list_elem_of_singleton in Hx'.
        apply (Hproto b Hb). rewrite Hx'. exact Hleaf.
      * apply NoDup_singleton.
    + apply Forall_app. split.
      * eapply Forall_impl; [exact Hall|]. intros b (Hbp & Hbs & Hbex).
        split; [exact Hbp|]. split; [exact Hbs|]. intros n f Hin. eapply E, Hbex, Hin.
      * apply List.Forall_cons; [|apply List.Forall_nil].
        split; [exists init, leaf, factor; exact Hp|].
        split; [eexists; reflexivity|]. exact P.
    + intros n. rewrite A. specialize (Hpos n). case_bool_decide; lia.
    + intros n Hn. destruct (Nat.eq_dec n leaf) as [->|Hne].
      * exists (set_state cs bd). split; [|exact Hleaf].
        apply elem_of_app. right. apply list_elem_of_singleton. reflexivity.
      * rewrite (Hel n Hne) in Hn. destruct (Hzero n Hn) as (b & Hb & Hl).
        exists b. split; [|exact Hl]. apply elem_of_app. left. exact Hb.
    + intros n. rewrite V, Hv, in_flight_app. cbn [in_flight].
      unfold count_of. rewrite Hleaf, Hat. cbn [set_state path].
      rewrite (in_flight_ext waiting w wd n); [lia|].
      intros b Hb. apply (count_of_elsewhere w wd b leaf Hel). apply Hproto, Hb.
  - (* FAIL *)
    destruct Hacc as (Hnd & Hall & Hpos & Hzero & Hv).
    destruct Hproto as (writer & Hw & Hwl & Hocc).
    set (w' := decrement_pending (pending_counter bd) wd) in *.
    assert (Hat : accumulated w' leaf = accumulated w leaf + 1).
    { rewrite A', A. rewrite bool_decide_eq_true_2 by reflexivity. reflexivity. }
    assert (Hel : forall n, n <> leaf -> accumulated w' n = accumulated w n).
    { intros n Hn. rewrite A', A. rewrite bool_decide_eq_false_2; [lia|].
      intros Hc. injection Hc as Hc. congruence. }
    eexists. split; [reflexivity|]. split; [exact Hnd|]. split; [|split; [|split]].
    + eapply Forall_impl; [exact Hall|]. intros b (Hbp & Hbs & Hbex).
      split; [exact Hbp|]. split; [exact Hbs|]. intros n f Hin. eapply E', E, Hbex, Hin.
    + intros n. destruct (Nat.eq_dec n leaf) as [->|Hne].
      * rewrite Hat. specialize (Hpos leaf). lia.
      * rewrite (Hel n Hne). apply Hpos.
    + intros n Hn. destruct (Nat.eq_dec n leaf) as [->|Hne].
      * exists writer. split; assumption.
      * rewrite (Hel n Hne) in Hn. apply Hzero, Hn.
    + intros n. rewrite V', V, Hv.
      rewrite (in_flight_bump waiting w w' writer leaf n Hnd Hw Hwl Hat Hel).
      rewrite Hocc. lia.
  - (* BACKUP *)
    eexists. split; [reflexivity|].
    apply (accounted_same w); [| | |exact Hacc].
    + intros n Hn. apply E', E, Hn.
    + intros n. rewrite A', A. rewrite bool_decide_eq_false_2 by discriminate. lia.
    + intros n. rewrite V', V. lia.
  - (* superko *)
    eexists. split; [reflexivity|].
    apply (accounted_same w); [| | |exact Hacc].
    + intros n Hn. apply E', E, Hn.
    + intros n. rewrite A', A. rewrite bool_decide_eq_false_2 by discriminate. lia.
    + intros n. rewrite V', V. lia.
  - contradiction.
Qed.

(** The expansion backup keeps the account: it takes the count of its
    simulation off the path, leaves the counter at 0, and the simulation
    waits no longer. *)
Lemma deliver_accounted (i : nat) (netresult : Netresult F) (st : flight) :
  well_behaved C ->
  accounted st ->
  lawful_step C (Deliver i netresult) st ->
  exists st', step C (Deliver i netresult) st = Some st' /\ accounted st'.
Proof.
  destruct st as [w waiting]. intros Hwb (Hnd & Hall & Hpos & Hzero & Hv) (bd & Hi & Hlt).
  cbn [step]. rewrite Hi.
  pose proof (take_drop_middle waiting i bd Hi) as Hmid.
  rewrite delete_take_drop.
  set (l1 := take i waiting) in *. set (l2 := drop (S i) waiting) in *.
  rewrite <- Hmid in Hnd, Hall, Hzero, Hv. clear Hmid.
  apply Forall_app in Hall. destruct Hall as [Hall1 Hall2].
  apply Forall_cons in Hall2. destruct Hall2 as [((init & leaf & factor & Hp) & Hs & Hex) Hall2].
  assert (Hleaf : leaf_of bd = Some leaf).
  { unfold leaf_of. rewrite Hp, last_snoc. reflexivity. }
  assert (Hc : count_of w bd = accumulated w leaf).
  { unfold count_of. rewrite Hleaf. reflexivity. }
  rewrite Hc in Hlt.
  destruct (backup_expansion C bd netresult w init leaf factor Hwb Hp Hs Hex
              (conj (Hpos leaf) Hlt)) as (bd' & w' & Hb & E & V & A).
  rewrite Hb. eexists. split; [reflexivity|].
  rewrite fmap_app in Hnd. cbn [fmap list_fmap] in Hnd.
  apply NoDup_app in Hnd. destruct Hnd as (Hnd1 & Hdis & Hnd2).
  apply NoDup_cons in Hnd2. destruct Hnd2 as [Hnot2 Hnd2].
  assert (Hnot1 : leaf_of bd ∉ leaf_of <$> l1).
  { intros Hin. apply (Hdis _ Hin). apply elem_of_cons. left. reflexivity. }
  assert (Hother : forall b, b ∈ l1 ++ l2 -> leaf_of b <> Some leaf).
  { intros b Hin Hl. apply elem_of_app in Hin. destruct Hin as [Hin|Hin].
    - apply Hnot1. rewrite Hleaf, <- Hl. apply list_elem_of_fmap. exists b. split; [reflexivity|exact Hin].
    - apply Hnot2. rewrite Hleaf, <- Hl. apply list_elem_of_fmap. exists b. split; [reflexivity|exact Hin]. }
  assert (Hel : forall n, n <> leaf -> accumulated w' n = accumulated w n).
  { intros n Hn. rewrite A. destruct (Nat.eqb_spec leaf n); [congruence|reflexivity]. }
  split; [|split; [|split; [|split]]].
  - rewrite fmap_app. apply NoDup_app. split; [exact Hnd1|]. split; [|exact Hnd2].
    intros x Hx Hx'. apply (Hdis x Hx). apply elem_of_cons. right. exact Hx'.
  - apply Forall_app. split.
    + eapply Forall_impl; [exact Hall1|]. intros b (Hbp & Hbs & Hbex).
      split; [exact Hbp|]. split; [exact Hbs|]. intros n f Hin. eapply E, Hbex, Hin.
    + eapply Forall_impl; [exact Hall2|]. intros b (Hbp & Hbs & Hbex).
      split; [exact Hbp|]. split; [exact Hbs|]. intros n f Hin. eapply E, Hbex, Hin.
  - intros n. rewrite A. destruct (Nat.eqb leaf n); [lia|apply Hpos].
  - intros n Hn. rewrite A in Hn. destruct (Nat.eqb_spec leaf n) as [Heq|Hne]; [contradiction|].
    destruct (Hzero n Hn) as (b & Hin & Hl). exists b. split; [|exact Hl].
    apply elem_of_app in Hin. apply elem_of_app.
    destruct Hin as [Hin|Hin]; [left; exact Hin|].
    apply elem_of_cons in Hin. destruct Hin as [->|Hin]; [|right; exact Hin].
    rewrite Hleaf in Hl. injection Hl as Hl. contradiction.
  - intros n. rewrite V, Hv, !in_flight_app. cbn [in_flight]. rewrite Hc.
    rewrite (in_flight_ext l1 w w' n), (in_flight_ext l2 w w' n); [lia| |].
    + intros b Hin. apply (count_of_elsewhere w w' b leaf Hel).
      apply Hother. apply elem_of_app. right. exact Hin.
    + intros b Hin. apply (count_of_elsewhere w w' b leaf Hel).
      apply Hother. apply elem_of_app. left. exact Hin.
Qed.

(** Every lawful run goes through, and keeps the account. *)
Lemma run_accounted (es : list (event F GameState)) :
  well_behaved C ->
  forall st : flight,
    accounted st -> lawful C es st ->
    exists st', run C es st = Some st' /\ accounted st'.
Proof.
  intros Hwb. induction es as [|e es IH]; intros st Hacc Hlaw; cbn [run lawful] in *.
  - exists st. split; [reflexivity|exact Hacc].
  - destruct Hlaw as [Hstep Hrest].
    assert (Hs : exists st', step C e st = Some st' /\ accounted st').
    { destruct e as [fuel cs node pc|i nr].
      - apply simulate_accounted; assumption.
      - apply deliver_accounted; assumption. }
    destruct Hs as (st' & Hs & Hacc'). rewrite Hs in *. apply IH; assumption.
Qed.


(** Node methods that count the visit as the simulation enters the node
    make every descent mark its path, wherever it stops short of the end
    of the game (there [play_simulation] has recorded the node and called
    no node method on it). *)
Lemma descent_counts (fuel : nat) :
  counts_the_visit C ->
  forall (currstate : GameState) (node : nat) (factor : F) (is_root : bool)
         (bd : BackupData F GameState) (w : world F),
    is_Some (nodes w !! node) ->
    (forall n f, In (n, f) (path bd) -> is_Some (nodes w !! n)) ->
    let '(s, w') := descent C fuel currstate node factor is_root bd w in
    match s with
    | AtEndOfGame _ _ _ _ | NoFuel => True
    | _ =>
        (forall n, is_Some (nodes w !! n) -> is_Some (nodes w' !! n))
        /\ (forall n f, In (n, f) (stop_path s) -> is_Some (nodes w' !! n))
        /\ (forall n,
              vloss w' n
              = vloss w n + occurrences n (stop_path s) - occurrences n (path bd))
        /\ (forall n,
              accumulated w' n
              = accumulated w n
                + (if bool_decide (stopped_at_unexpanded s = Some n) then 1 else 0))
    end.
Proof.
  intros (Hget & Hsel & Hchild & Hrel & Hinv).
  induction fuel as [|fuel IH]; intros currstate node factor is_root bd w Hnode Hpath;
    cbn [descent]; [exact I|].
  destruct (2 <=? Search.get_passes C currstate); [exact I|].
  pose proof (Hget (is_root && negb (m_root_prepared w)) node (nodes w) Hnode) as Hg.
  destruct (Search.get_action C (is_root && negb (m_root_prepared w)) node (nodes w))
    as [a h].
  destruct Hg as (E1 & V1 & A1).
  set (w1 := on_nodes (fun _ => h) w).
  assert (Hpushed : forall n f,
            In (n, f) (path (push_path node factor bd)) -> is_Some (nodes w1 !! n)).
  { intros n f Hin. cbn [push_path path] in Hin. apply in_app_or in Hin.
    destruct Hin as [Hin|[Hin|[]]].
    - apply E1. eapply Hpath, Hin.
    - injection Hin as <- <-. apply E1, Hnode. }
  assert (Hocc : forall n,
            occurrences n (path (push_path node factor bd))
            = occurrences n (path bd) + (if Nat.eqb node n then 1 else 0)).
  { intros n. cbn [push_path path]. rewrite occurrences_app. cbn [occurrences]. lia. }
  assert (Hdec : forall n,
            (if bool_decide (Some node = Some n) then 1 else 0)
            = (if Nat.eqb node n then 1 else 0) :> Z).
  { intros n. destruct (Nat.eqb_spec node n) as [->|Hne].
    - rewrite bool_decide_eq_true_2 by reflexivity. reflexivity.
    - rewrite bool_decide_eq_false_2; [reflexivity|]. intros Hc. injection Hc as Hc.
      contradiction. }
  destruct a; cbn [stops_there andb] in A1.
  - (* WRITE *)
    cbn [stop_path stopped_at_unexpanded]. split; [exact E1|]. split; [exact Hpushed|].
    split.
    + intros n. rewrite Hocc. unfold vloss. cbn [w1 on_nodes nodes]. rewrite V1. lia.
    + intros n. rewrite Hdec. unfold accumulated. cbn [w1 on_nodes nodes]. rewrite A1.
      rewrite andb_true_r. reflexivity.
  - (* FAIL *)
    cbn [stop_path stopped_at_unexpanded]. split; [exact E1|]. split; [exact Hpushed|].
    split.
    + intros n. rewrite Hocc. unfold vloss. cbn [w1 on_nodes nodes]. rewrite V1. lia.
    + intros n. rewrite Hdec. unfold accumulated. cbn [w1 on_nodes nodes]. rewrite A1.
      rewrite andb_true_r. reflexivity.
  - (* READ *)
    pose proof (fun n => Hsel (Search.get_to_move C currstate) is_root node (nodes w1) n)
      as Hs.
    cbn beta in Hs.
    pose proof (Hchild (Search.get_to_move C currstate) is_root node (nodes w1)) as Hc.
    destruct (Search.uct_select_child C (Search.get_to_move C currstate) is_root node
                (nodes w1)) as [chosen h2].
    cbn [fst snd] in Hs, Hc.
    set (w2 := on_nodes (fun _ => Search.release_reader C node h2) w1).
    assert (E2 : forall n, is_Some (nodes w !! n) -> is_Some (nodes w2 !! n)).
    { intros n Hn. cbn [w2 on_nodes nodes]. apply (proj1 (Hrel node h2 n)).
      apply (proj1 (Hs n)). apply E1, Hn. }
    assert (E12 : forall n, is_Some (nodes w1 !! n) -> is_Some (nodes w2 !! n)).
    { intros n Hn. cbn [w2 on_nodes nodes]. apply (proj1 (Hrel node h2 n)).
      apply (proj1 (Hs n)). exact Hn. }
    assert (V2 : forall n, vloss w2 n = vloss w n + (if Nat.eqb node n then 1 else 0)).
    { intros n. unfold vloss. cbn [w2 on_nodes nodes].
      destruct (Hrel node h2 n) as (_ & -> & _). destruct (Hs n) as (_ & -> & _).
      cbn [w1 on_nodes nodes]. apply V1. }
    assert (A2 : forall n, accumulated w2 n = accumulated w n).
    { intros n. unfold accumulated. cbn [w2 on_nodes nodes].
      destruct (Hrel node h2 n) as (_ & _ & ->). destruct (Hs n) as (_ & _ & ->).
      cbn [w1 on_nodes nodes]. rewrite A1, andb_false_r. lia. }
    destruct chosen as [[new_node new_factor]|].
    + assert (Hnew : is_Some (nodes w2 !! new_node)).
      { cbn [w2 on_nodes nodes]. apply (proj1 (Hrel node h2 new_node)).
        apply (Hc new_node new_factor). reflexivity. }
      destruct (negb _ && _).
      * (* superko *)
        set (w3 := on_nodes (Search.invalidate C new_node) w2).
        cbn [stop_path stopped_at_unexpanded].
        split; [intros n Hn; cbn [w3 on_nodes nodes]; apply (proj1 (Hinv new_node (nodes w2) n)), E2, Hn|].
        split; [intros n f Hin; cbn [w3 on_nodes nodes];
                apply (proj1 (Hinv new_node (nodes w2) n)), E12; eapply Hpushed, Hin|].
        split.
        -- intros n. rewrite Hocc. unfold vloss at 1. cbn [w3 on_nodes nodes].
           destruct (Hinv new_node (nodes w2) n) as (_ & -> & _).
           fold (vloss w2 n). rewrite V2. lia.
        -- intros n. rewrite bool_decide_eq_false_2 by discriminate.
           unfold accumulated at 1. cbn [w3 on_nodes nodes].
           destruct (Hinv new_node (nodes w2) n) as (_ & _ & ->).
           fold (accumulated w2 n). rewrite A2. lia.
      * (* one level down *)
        set (move := match nodes w2 !! new_node with
                     | Some n => get_move n
                     | None => Search.PASS C
                     end).
        assert (Hpath2 : forall n f,
                  In (n, f) (path (push_path node factor bd)) -> is_Some (nodes w2 !! n)).
        { intros n f Hin. apply E12. eapply Hpushed, Hin. }
        pose proof (IH (Search.play_move C move currstate) new_node new_factor false
                      (push_path node factor bd) w2 Hnew Hpath2) as Hdown.
        destruct (descent C fuel (Search.play_move C move currstate) new_node new_factor
                    false (push_path node factor bd) w2) as [s w'].
        destruct s as [cs n0 f0 b0|cs n0 b0|n0 b0|n0 f0 b0|b0|]; try exact I;
          destruct Hdown as (E3 & P3 & V3 & A3);
          (split; [intros n Hn; apply E3, E2, Hn|]);
          (split; [exact P3|]);
          (split; [intros n; rewrite V3, V2, Hocc; lia|]);
          intros n; rewrite A3, A2; reflexivity.
    + (* no child left: BACKUP *)
      cbn [stop_path stopped_at_unexpanded]. split; [exact E2|].
      split; [intros n f Hin; apply E12; eapply Hpushed, Hin|]. split.
      * intros n. rewrite Hocc, V2. lia.
      * intros n. rewrite bool_decide_eq_false_2 by discriminate. rewrite A2. lia.
  - (* BACKUP *)
    cbn [stop_path stopped_at_unexpanded]. split; [exact E1|]. split; [exact Hpushed|].
    split.
    + intros n. rewrite Hocc. unfold vloss. cbn [w1 on_nodes nodes]. rewrite V1. lia.
    + intros n. rewrite bool_decide_eq_false_2 by discriminate.
      unfold accumulated. cbn [w1 on_nodes nodes]. rewrite A1, andb_false_r. lia.
Qed.

(** So does every simulation of a search whose node methods count the
    visit, from a node on the heap. *)
Lemma descent_marks (fuel : nat) (currstate : GameState) (node pc : nat) (w : world F) :
  counts_the_visit C ->
  is_Some (nodes w !! node) ->
  let '(s, w') := descent C fuel currstate node f_1 true (new_bd pc) w in
  match s with
  | AtEndOfGame _ _ _ _ | NoFuel => True
  | _ => marks_its_path w s w'
  end.
Proof.
  intros Hc Hn.
  pose proof (descent_counts fuel Hc currstate node f_1 true (new_bd pc) w Hn) as Hd.
  destruct (descent C fuel currstate node f_1 true (new_bd pc) w) as [s w'].
  assert (Hp : forall n f, In (n, f) (path (new_bd (F := F) (GameState := GameState) pc)) ->
                           is_Some (nodes w !! n)) by (intros n f []).
  specialize (Hd Hp).
  destruct s as [cs n0 f0 b0|cs n0 b0|n0 b0|n0 f0 b0|b0|]; try exact I;
    destruct Hd as (E & P & V & A);
    (split; [exact E|]); (split; [exact P|]);
    (split; [intros n; rewrite V; cbn [new_bd path occurrences]; lia|exact A]).
Qed.


End DescentProofs.

Section NodeProtocolProofs.
Import Search.

Context {F : Type} `{FloatOps F}.

(** [NodeProtocol.get_action] puts one unit on its node, and one
    accumulated unit when it answers WRITE or FAIL. *)
Lemma get_action_counts (b : bool) (node : nat) (h : heap F) :
  is_Some (h !! node) ->
  let '(a, h') := NodeProtocol.get_action b node h in
  (forall n, is_Some (h !! n) -> is_Some (h' !! n))
  /\ (forall n, vloss_at h' n = vloss_at h n + (if Nat.eqb node n then 1 else 0))
  /\ (forall n,
        accumulated_at h' n
        = accumulated_at h n
          + (if Nat.eqb node n && Descent.stops_there a then 1 else 0)).
Proof.
  intros [n0 Hn]. unfold NodeProtocol.get_action. rewrite Hn.
  destruct (expand_state n0); (split; [|split]); intros n;
    unfold vloss_at, accumulated_at;
    try (intros Hs; apply lookup_insert_is_Some;
         destruct (decide (node = n)); [left; assumption|right; split; assumption]);
    destruct (Nat.eqb_spec node n) as [<-|Hne];
    rewrite ?lookup_insert_eq, ?lookup_insert_ne by assumption;
    rewrite ?Hn; cbn [NodeProtocol.entered m_virtual_loss m_accumulated_vl
                      Descent.stops_there andb];
    lia.
Qed.

(** A method that rewrites one node and leaves its two counters leaves the
    counters of the heap. *)
Lemma alter_keeps_counters (f : UCTNode F -> UCTNode F) (node : nat) :
  (forall n, m_virtual_loss (f n) = m_virtual_loss n
             /\ m_accumulated_vl (f n) = m_accumulated_vl n) ->
  keeps_counters (alter f node).
Proof.
  intros Hf h n. unfold vloss_at, accumulated_at. rewrite lookup_alter_is_Some.
  split; [auto|]. rewrite lookup_alter. case_decide as Hd; [subst n|split; reflexivity].
  destruct (h !! node) as [n0|]; cbn; [|split; reflexivity].
  destruct (Hf n0) as [-> ->]. split; reflexivity.
Qed.

Lemma pick_is_one_of (value : UCTNode F -> F) (rest : list (nat * UCTNode F)) :
  forall best, exists c, In c (best :: rest) /\ NodeProtocol.pick value best rest = fst c.
Proof.
  induction rest as [|c rest IH]; intros best; cbn [NodeProtocol.pick].
  - exists best. split; [left; reflexivity|reflexivity].
  - destruct (flt _ _).
    + destruct (IH c) as (x & Hin & Hx). exists x. split; [right; exact Hin|exact Hx].
    + destruct (IH best) as (x & [Hin|Hin] & Hx);
        exists x; (split; [|exact Hx]); [left; exact Hin|right; right; exact Hin].
Qed.

Lemma valid_children_on_heap (h : heap F) (n : UCTNode F) (p : nat) (c : UCTNode F) :
  In (p, c) (NodeProtocol.valid_children h n) -> h !! p = Some c.
Proof.
  unfold NodeProtocol.valid_children. intros Hin. apply list_elem_of_In in Hin.
  apply list_elem_of_omap in Hin. destruct Hin as (q & _ & Hq).
  destruct (h !! q) as [c'|] eqn:Hl; [|discriminate].
  destruct (expand_state c'); try discriminate; injection Hq as <- <-; exact Hl.
Qed.

Lemma uct_select_child_spec (value : color -> bool -> UCTNode F -> F)
    (c : color) (b : bool) (node : nat) (h : heap F) :
  snd (NodeProtocol.uct_select_child value c b node h) = h
  /\ forall child f,
       fst (NodeProtocol.uct_select_child value c b node h) = Some (child, f) ->
       is_Some (h !! child).
Proof.
  unfold NodeProtocol.uct_select_child.
  destruct (h !! node) as [n|]; [|split; [reflexivity|discriminate]].
  destruct (NodeProtocol.valid_children h n) as [|first rest] eqn:Hv;
    [split; [reflexivity|discriminate]|].
  split; [reflexivity|]. cbn [fst]. intros child f Heq. injection Heq as <- _.
  destruct (pick_is_one_of (value c b) rest first) as ([p x] & Hin & ->).
  rewrite <- Hv in Hin. apply valid_children_on_heap in Hin. cbn [fst]. eauto.
Qed.

End NodeProtocolProofs.

Section DescentRuns.
Import Search Descent DescentDemo.

Lemma protocol_well_behaved : well_behaved protocol.
Proof.
  split; [|split].
  - intros netresult sym st ratio node. apply alter_keeps_counters.
    intros n. split; reflexivity.
  - intros st node h n. repeat split; auto.
  - intros node h n. repeat split; auto.
Qed.

Lemma protocol_counts_the_visit : counts_the_visit protocol.
Proof.
  split; [|split; [|split; [|split]]].
  - intros b node h Hn. apply (get_action_counts b node h Hn).
  - intros c b node h n. cbn [protocol Search.uct_select_child].
    rewrite (proj1 (uct_select_child_spec _ c b node h)). repeat split; auto.
  - intros c b node h child f Hs. cbn [protocol Search.uct_select_child] in *.
    rewrite (proj1 (uct_select_child_spec _ c b node h)).
    apply (proj2 (uct_select_child_spec _ c b node h) child f Hs).
  - intros node. apply alter_keeps_counters. intros n. split; reflexivity.
  - intros node. apply alter_keeps_counters. intros n. split; reflexivity.
Qed.

Lemma quiet_tree_is_quiet (node : nat) :
  vloss quiet_tree node = 0 /\ accumulated quiet_tree node = 0.
Proof.
  unfold vloss, accumulated, vloss_at, accumulated_at, quiet_tree. cbn [nodes].
  destruct node as [|[|node]]; [split; reflexivity|split; reflexivity|].
  rewrite lookup_insert_ne by discriminate.
  rewrite lookup_singleton_ne by discriminate. split; reflexivity.
Qed.


(** Two simulations reach the same unexpanded node: the first receives
    WRITE, the second FAIL; once the writer has completed expansion and
    backup, the node has no virtual loss and 1 visit. *)
Example two_reach_the_same_unexpanded_node :
  match run protocol (take 3 two_reach_the_leaf) (quiet_tree, []) with
  | Some (w, waiting) =>
      waiting = []
      /\ vloss w 0 = 0 /\ vloss w 1 = 0 /\ accumulated w 1 = 0
      /\ (get_visits <$> nodes w !! 1%nat) = Some 1%Q
  | None => False
  end.
Proof. vm_compute. repeat split. Qed.


End DescentRuns.

Section RootAdvanceProofs.
Import RootAdvance.

Context {F : Type} `{FloatOps F} {GameState : Type}.
Variable G : game F GameState.

Abbreviation UCTSearch := (RootAdvance.UCTSearch GameState).

Lemma take_child_addrs (move : Z) (cs : list UCTNode) :
  flat_map addrs cs
  ≡ₚ addrs_of_root (fst (take_child move cs)) ++ flat_map addrs (snd (take_child move cs)).
Proof.
  induction cs as [|c cs IH]; simpl; [reflexivity|].
  destruct (get_move c =? move); simpl; [reflexivity|].
  destruct (take_child move cs) as [found rest]. simpl in *.
  rewrite IH. rewrite !app_assoc. apply Permutation_app_tail, Permutation_app_comm.
Qed.

Lemma find_child_addrs (move : Z) (n : UCTNode) :
  addrs n ≡ₚ addrs (snd (find_child move n)) ++ addrs_of_root (fst (find_child move n)).
Proof.
  destruct n as [a m cs]. unfold find_child. simpl.
  pose proof (take_child_addrs move cs) as Hp.
  destruct (take_child move cs) as [found rest]. simpl in *.
  constructor. rewrite Hp. apply Permutation_app_comm.
Qed.

Lemma replay_spec (d : nat) :
  forall (test : GameState) (root : UCTNode) (last : GameState) (td : list UCTNode),
    let '(ok, test', root', last', td') := replay G d test root last td in
    root' = descend G d test root
    /\ ok = bool_decide (is_Some root')
    /\ (ok = true -> (test', last') = replayed G d test last)
    /\ flat_map addrs td ++ addrs root ≡ₚ flat_map addrs td' ++ addrs_of_root root'.
Proof.
  induction d as [|d IH]; intros test root last td; simpl.
  - repeat split; reflexivity.
  - pose proof (find_child_addrs (get_last_move G (forward_move G test)) root) as Hp.
    destruct (find_child (get_last_move G (forward_move G test)) root) as [child old].
    simpl in *. destruct child as [child|].
    + specialize (IH (forward_move G test) child
                    (play_move G (get_last_move G (forward_move G test)) last)
                    (td ++ [old])).
      destruct (replay G d _ child _ (td ++ [old])) as [[[[ok test'] root'] last'] td'].
      destruct IH as (Hr & Hok & Hrep & Hperm). repeat split; auto.
      rewrite <- Hperm, flat_map_app. simpl. rewrite app_nil_r, <- app_assoc.
      apply Permutation_app_head. exact Hp.
    + repeat split; try reflexivity; try discriminate.
      rewrite flat_map_app. simpl. rewrite !app_nil_r.
      apply Permutation_app_head. rewrite Hp, app_nil_r. reflexivity.
Qed.

Lemma advance_on_mismatch (s : UCTSearch) (root : UCTNode) (last : GameState) :
  m_root s = Some root ->
  m_last_rootstate s = Some last ->
  mismatch G (m_rootstate s) last root ->
  let '(ok, s', td) := advance_to_new_rootstate G s [] in
  ok = false
  /\ flat_map addrs td ++ addrs_of_root (m_root s') ≡ₚ addrs root
  /\ m_rootstate s' = m_rootstate s
  /\ m_gtpstate s' = m_gtpstate s
  /\ m_pending_counter s' = m_pending_counter s
  /\ m_delete_futures s' = m_delete_futures s
  /\ next_addr s' = next_addr s
  /\ next_counter s' = next_counter s.
Proof.
  intros Hroot Hlast Hmis. unfold advance_to_new_rootstate. rewrite Hroot, Hlast.
  assert (Hkeep : false = false
            /\ flat_map addrs [] ++ addrs_of_root (m_root s) ≡ₚ addrs root
            /\ m_rootstate s = m_rootstate s /\ m_gtpstate s = m_gtpstate s
            /\ m_pending_counter s = m_pending_counter s
            /\ m_delete_futures s = m_delete_futures s
            /\ next_addr s = next_addr s /\ next_counter s = next_counter s).
  { rewrite Hroot. simpl. repeat split; reflexivity. }
  unfold mismatch, move_not_in_tree, hash_differs, komi_changed, moved_backwards,
    compare in Hmis. simpl in Hmis.
  set (d := to_int (get_movenum G (m_rootstate s) - get_movenum G last)) in *.
  set (test := Nat.iter (Z.to_nat d) (undo_move G) (m_rootstate s)) in *.
  destruct (feqb (get_komi G (m_rootstate s)) (get_komi G last)) eqn:Hk;
    cbn [negb]; [|exact Hkeep].
  destruct (Z.ltb_spec d 0) as [Hd|Hd]; [exact Hkeep|].
  destruct (Z.eqb_spec (get_hash G last) (get_hash G test)) as [Hh|Hh];
    cbn [negb]; [|exact Hkeep].
  pose proof (replay_spec (Z.to_nat d) test root last []) as Hrep.
  destruct (replay G (Z.to_nat d) test root last [])
    as [[[[ok test'] root'] last'] td'].
  destruct Hrep as (Hr & Hok & Hpair & Hperm). simpl in Hperm.
  assert (Hres : flat_map addrs td' ++ addrs_of_root root' ≡ₚ addrs root)
    by (symmetry; exact Hperm).
  destruct ok; cbn [negb]; [|simpl; repeat split; auto].
  specialize (Hpair eq_refl). rewrite <- Hpair in Hmis.
  destruct (Z.eqb_spec (get_hash G last') (get_hash G test')) as [Hf|Hf];
    cbn [negb]; [|simpl; repeat split; auto].
  exfalso. destruct Hmis as [Hm|[[Hm|Hm]|[Hm|Hm]]]; try contradiction; try lia;
    try discriminate.
  rewrite <- Hr in Hm. subst root'. discriminate.
Qed.

(** C5. When the position to search does not match the tree (a played
    move has no child in the tree, the board hash differs from the
    replayed state, the komi has changed, or the move number went
    backwards), [update_root] returns as on any other call, with no error:
    the root is a newly allocated node without children, the last root
    state is cleared, the counters are reset, and one task has been added
    to the background deletions, under the pending counter of the search
    that used the tree; the nodes it is to delete are exactly the nodes of
    the old tree. *)
Theorem mismatch_discards_tree (s : UCTSearch) (root : UCTNode) (last : GameState)
    (pc : nat) :
  m_root s = Some root ->
  m_last_rootstate s = Some last ->
  m_pending_counter s = Some pc ->
  mismatch G (m_gtpstate s) last root ->
  exists td,
    update_root G s
    = mkUCTSearch (Some (mkUCTNode (next_addr s) (PASS G) [])) None
        (m_gtpstate s) (m_gtpstate s) (Some (next_counter s)) 0 0 false true
        (m_delete_futures s ++ [mkDeleteTask td pc])
        (S (next_addr s)) (S (next_counter s))
    /\ flat_map addrs td ≡ₚ addrs root.
Proof.
  intros Hroot Hlast Hpc Hmis. unfold update_root.
  pose proof (advance_on_mismatch (set_rootstate (m_gtpstate s) s) root last
                Hroot Hlast Hmis) as Hadv.
  destruct (advance_to_new_rootstate G (set_rootstate (m_gtpstate s) s) [])
    as [[ok s'] td].
  destruct Hadv as (-> & Hperm & Hrs & Hgs & Hpc' & Hdf & Hna & Hnc).
  simpl in Hrs, Hgs, Hpc', Hdf, Hna, Hnc. cbn [negb orb].
  set (final := match m_root s' with
                | Some r => td ++ [r]
                | None => td
                end).
  assert (Hfinal : flat_map addrs final ≡ₚ addrs root).
  { unfold final. rewrite <- Hperm. destruct (m_root s'); simpl.
    - rewrite flat_map_app. simpl. rewrite app_nil_r. reflexivity.
    - rewrite app_nil_r. reflexivity. }
  exists final. split; [|exact Hfinal].
  unfold allocate_root, fresh_root. simpl.
  rewrite Hpc', Hpc, Hdf, Hna, Hnc, Hrs, Hgs.
  destruct final as [|t final'] eqn:Hf; [|reflexivity].
  exfalso. simpl in Hfinal. destruct root as [a m cs]. simpl in Hfinal.
  symmetry in Hfinal. apply Permutation_nil_r in Hfinal. discriminate.
Qed.

(** C6 (as amended). The deletion task frees nothing while it waits, and
    it leaves its loop only on a turn at which it reads a pending counter
    that is not positive and a virtual loss of 0 at the FIRST node of its
    list (the old root); it then frees every node of every detached
    subtree on the list. The virtual loss at the roots of the other
    detached subtrees is not read. *)
Theorem deletion_waits (t : delete_task) (turns : list observed) (k : nat)
    (freed : list nat) (root : UCTNode) (rest : list UCTNode) :
  to_delete t = root :: rest ->
  run_task t turns = Some (k, freed) ->
  exists o,
    turns !! k = Some o
    /\ pending_value o <= 0
    /\ virtual_loss_at o (addr_of root) = 0
    /\ freed = flat_map addrs (root :: rest)
    /\ (forall j o', (j < k)%nat -> turns !! j = Some o' ->
          poll t o' = None
          /\ (0 < pending_value o' \/ virtual_loss_at o' (addr_of root) <> 0)).
Proof.
  intros Ht. revert k freed.
  induction turns as [|o turns IH]; intros k freed Hrun; simpl in Hrun; [discriminate|].
  destruct (poll t o) as [freed0|] eqn:Hpoll.
  - (* the task deletes on this turn *)
    injection Hrun as <- <-. exists o.
    unfold poll, must_wait in Hpoll. rewrite Ht in Hpoll.
    destruct (Z.ltb_spec 0 (pending_value o)) as [Hp|Hp]; cbn [orb] in Hpoll;
      [discriminate|].
    destruct (Z.eqb_spec (virtual_loss_at o (addr_of root)) 0) as [Hv|Hv];
      cbn [negb] in Hpoll; [|discriminate].
    injection Hpoll as <-.
    split; [reflexivity|]. split; [exact Hp|]. split; [exact Hv|]. split; [reflexivity|].
    intros j o' Hj. lia.
  - (* the task sleeps on this turn *)
    destruct (run_task t turns) as [[k' freed']|] eqn:Hr; [|discriminate].
    injection Hrun as <- <-.
    destruct (IH k' freed' eq_refl) as (o1 & Ho1 & Hp1 & Hv1 & Hf1 & Hbefore).
    exists o1.
    split; [exact Ho1|]. split; [exact Hp1|]. split; [exact Hv1|]. split; [exact Hf1|].
    intros j o' Hj Hlook. destruct j as [|j]; simpl in Hlook.
    + injection Hlook as <-. split; [exact Hpoll|].
      unfold poll, must_wait in Hpoll. rewrite Ht in Hpoll.
      destruct (Z.ltb_spec 0 (pending_value o)) as [Hp|Hp]; [left; exact Hp|].
      destruct (Z.eqb_spec (virtual_loss_at o (addr_of root)) 0) as [Hv|Hv];
        [discriminate|right; exact Hv].
    + apply (Hbefore j o'); [lia|exact Hlook].
Qed.

End RootAdvanceProofs.

Section RootAdvanceRuns.
Import RootAdvance RootAdvanceDemo.

Lemma mismatch_discards_tree_witness :
  let s := searched unexpected_move in
  m_root s = Some old_tree
  /\ m_last_rootstate s = Some empty_board
  /\ m_pending_counter s = Some 0%nat
  /\ mismatch go (m_gtpstate s) empty_board old_tree
  /\ exists td,
       update_root go s
       = mkUCTSearch (Some (mkUCTNode 4 (-1) [])) None unexpected_move unexpected_move
           (Some 1%nat) 0 0 false true [mkDeleteTask td 0] 5 2
       /\ flat_map addrs td ≡ₚ addrs old_tree.
Proof.
  intros s.
  assert (Hm : mismatch go (m_gtpstate s) empty_board old_tree) by (left; reflexivity).
  split; [reflexivity|]. split; [reflexivity|]. split; [reflexivity|]. split; [exact Hm|].
  exact (mismatch_discards_tree go s old_tree empty_board 0%nat eq_refl eq_refl eq_refl Hm).
Defined.

Lemma deletion_waits_witness :
  let turns := [still_pending; root_still_loaded; all_quiet] in
  to_delete two_detached = [left_of_root; left_of_child]
  /\ run_task two_detached turns = Some (2%nat, [0; 2; 1]%nat)
  /\ exists o,
       turns !! 2%nat = Some o
       /\ pending_value o <= 0
       /\ virtual_loss_at o (addr_of left_of_root) = 0
       /\ [0; 2; 1]%nat = flat_map addrs [left_of_root; left_of_child]
       /\ (forall j o', (j < 2)%nat -> turns !! j = Some o' ->
             poll two_detached o' = None
             /\ (0 < pending_value o'
                 \/ virtual_loss_at o' (addr_of left_of_root) <> 0)).
Proof.
  intros turns. split; [reflexivity|]. split; [reflexivity|].
  exact (deletion_waits two_detached turns 2 [0; 2; 1]%nat left_of_root [left_of_child]
           eq_refl eq_refl).
Defined.

(** C6 (as stated) fails for the detached subtrees after the first: when
    the root has moved two plies down the tree, [update_root] hands the
    task two detached subtrees; with no simulation pending and no virtual
    loss on the old root, the task frees them all, the node at address 1
    included, whose virtual loss it has not read and which is 1. *)
Lemma later_subtrees_are_not_waited_for :
  m_delete_futures (update_root go (searched two_moves_on)) = [two_detached]
  /\ must_wait two_detached residue_below = false
  /\ poll two_detached residue_below = Some [0; 2; 1]%nat
  /\ addr_of left_of_child = 1%nat
  /\ virtual_loss_at residue_below (addr_of left_of_child) = 1.
Proof. vm_compute. repeat split. Qed.

Example komi_change_discards_tree :
  komi_changed go other_komi empty_board
  /\ update_root go (searched other_komi)
     = mkUCTSearch (Some (mkUCTNode 4 (-1) [])) None other_komi other_komi
         (Some 1%nat) 0 0 false true [mkDeleteTask [old_tree] 0] 5 2.
Proof. split; reflexivity. Qed.

Example going_back_discards_tree :
  moved_backwards go empty_board (mkPosition (15 # 2) [72] [])
  /\ update_root go taken_back
     = mkUCTSearch (Some (mkUCTNode 4 (-1) [])) None empty_board empty_board
         (Some 1%nat) 0 0 false true [mkDeleteTask [old_tree] 0] 5 2.
Proof. split; reflexivity. Qed.

Example unexpected_move_discards_tree :
  update_root go (searched unexpected_move)
  = mkUCTSearch (Some (mkUCTNode 4 (-1) [])) None unexpected_move unexpected_move
      (Some 1%nat) 0 0 false true [mkDeleteTask [old_tree] 0] 5 2.
Proof. reflexivity. Qed.

(** For comparison, a move that is in the tree: its subtree becomes the
    root and only what is left of the old root is handed to the task. *)
Example matching_move_keeps_subtree :
  update_root go (searched one_move_on)
  = mkUCTSearch (Some (mkUCTNode 1 72 [mkUCTNode 3 60 []])) None one_move_on one_move_on
      (Some 1%nat) 0 0 false true [mkDeleteTask [left_of_root] 0] 4 2.
Proof. reflexivity. Qed.

End RootAdvanceRuns.

(* ===================================================================== *)
(** * Further properties of the root lock *)
(* ===================================================================== *)

Section RootLockMore.
Import RootLock.

Lemma total_zero_all (f : reader_pc -> Z) (l : list reader_pc) :
  (forall i pc, l !! i = Some pc -> f pc = 0) -> total f l = 0.
Proof.
  induction l as [|a l IH]; intros Hall; simpl; [reflexivity|].
  rewrite (Hall 0%nat a eq_refl), IH; [reflexivity|].
  intros i pc Hi. apply (Hall (S i) pc Hi).
Qed.

(** X1. The counter holds nothing but the threads inside the lock: in
    every reachable state where the writer is out and no reader holds the
    lock or is about to undo an increment, [m_root_lock] is 0. *)
Theorem lock_is_zero_when_nobody_is_inside (n : nat) (s : state) :
  reachable n s ->
  writer s = WOut ->
  (forall i pc, readers s !! i = Some pc -> pc <> RHeld /\ pc <> RUndo) ->
  lock s = 0.
Proof.
  intros Hr Hw Hout. destruct (reachable_inv n s Hr) as [[Hl _] _].
  rewrite Hl, Hw. simpl. apply total_zero_all.
  intros i pc Hi. destruct (Hout i pc Hi) as [H1 H2].
  destruct pc; simpl; try reflexivity; contradiction.
Qed.

Lemma lock_is_zero_when_nobody_is_inside_witness :
  let s := mkState 0 [ROut; RLoop] WOut in
  reachable 2 s /\ lock s = 0.
Proof.
  intros s.
  assert (Hr : reachable 2 s).
  { exists [RCall 0%nat; RTest 0%nat; RFetchAdd 0%nat; RCall 1%nat; RRelease 0%nat].
    reflexivity. }
  split; [exact Hr|].
  apply (lock_is_zero_when_nobody_is_inside 2 s Hr eq_refl).
  intros [|[|i]] pc Hi; simpl in Hi; try discriminate;
    injection Hi as <-; split; discriminate.
Defined.

(** X2. A reader that finds the counter below 128 gets the lock without
    retrying when no other thread moves (test, [fetch_add], return), which
    adds one to the counter; [release_reader] then puts the lock back
    exactly as it was. *)
Theorem reader_acquire_release (s : state) (i : nat) :
  readers s !! i = Some ROut ->
  lock s < 128 ->
  exists s1,
    exec (acquire_reader_alone i) s = Some s1
    /\ readers s1 !! i = Some RHeld
    /\ lock s1 = lock s + 1
    /\ writer s1 = writer s
    /\ step (RRelease i) s1 = Some s.
Proof.
  intros Hi Hl. destruct s as [l rs w]. simpl in *.
  assert (Hlen : (i < length rs)%nat) by (eapply lookup_lt_Some; eauto).
  unfold acquire_reader_alone, exec, step. simpl. rewrite Hi. simpl.
  rewrite list_lookup_insert_eq by exact Hlen.
  destruct (Z.leb_spec 128 l) as [Hge|_]; [lia|]. simpl.
  rewrite list_lookup_insert_eq by (rewrite length_insert; exact Hlen).
  destruct (Z.leb_spec 128 l) as [Hge|_]; [lia|]. simpl.
  eexists. split; [reflexivity|]. simpl.
  rewrite list_lookup_insert_eq by (rewrite !length_insert; exact Hlen).
  repeat split.
  unfold set_reader, set_lock. simpl. f_equal. f_equal; [lia|].
  rewrite !list_insert_insert_eq. apply list_insert_id. exact Hi.
Qed.

Lemma reader_acquire_release_witness :
  let s := mkState 1 [RHeld; ROut] WOut in
  readers s !! 1%nat = Some ROut
  /\ lock s < 128
  /\ exists s1,
       exec (acquire_reader_alone 1) s = Some s1
       /\ readers s1 !! 1%nat = Some RHeld
       /\ lock s1 = lock s + 1
       /\ writer s1 = writer s
       /\ step (RRelease 1) s1 = Some s.
Proof.
  intros s. split; [reflexivity|]. split; [reflexivity|].
  apply (reader_acquire_release s 1); reflexivity.
Defined.

(** X3. The writer, once it has added its 128, leaves its spin loop at a
    test exactly when no reader holds the lock or still has an increment
    to undo; until then the test leaves everything as it is. *)
Theorem writer_enters_when_readers_are_gone (n : nat) (s : state) :
  reachable n s ->
  writer s = WSpin ->
  (step WTest s = Some (set_writer WHeld s)
   <-> forall i pc, readers s !! i = Some pc -> pc <> RHeld /\ pc <> RUndo)
  /\ (step WTest s = Some s
      <-> exists i pc, readers s !! i = Some pc /\ (pc = RHeld \/ pc = RUndo)).
Proof.
  intros Hr Hw. destruct (reachable_inv n s Hr) as [[Hl _] _].
  rewrite Hw in Hl. simpl in Hl.
  pose proof (total_bounds reader_units (readers s) reader_units_01) as Hb.
  assert (Hzero : total reader_units (readers s) = 0
                  <-> forall i pc, readers s !! i = Some pc -> pc <> RHeld /\ pc <> RUndo).
  { split.
    - intros Hz i pc Hi.
      pose proof (total_zero_lookup reader_units _ _ _ reader_units_01 Hz Hi) as Hu.
      destruct pc; simpl in Hu; split; discriminate.
    - intros Hall. apply total_zero_all. intros i pc Hi.
      destruct (Hall i pc Hi). destruct pc; simpl; try reflexivity; contradiction. }
  assert (Hsome : 0 < total reader_units (readers s)
                  <-> exists i pc, readers s !! i = Some pc /\ (pc = RHeld \/ pc = RUndo)).
  { split.
    - intros Hpos. clear Hl Hzero Hb. induction (readers s) as [|a l IH]; simpl in Hpos; [lia|].
      destruct a; simpl in Hpos;
        try (destruct (IH Hpos) as (i & pc & Hi & Hpc); exists (S i), pc; split; assumption).
      + exists 0%nat, RUndo. split; [reflexivity|right; reflexivity].
      + exists 0%nat, RHeld. split; [reflexivity|left; reflexivity].
    - intros (i & pc & Hi & Hpc).
      destruct (Z.eq_dec (total reader_units (readers s)) 0) as [Hz|Hz]; [|lia].
      pose proof (total_zero_lookup reader_units _ _ _ reader_units_01 Hz Hi) as Hu.
      destruct Hpc as [-> | ->]; discriminate Hu. }
  unfold step. rewrite Hw.
  destruct (Z.eqb_spec (lock s) 128) as [He|Hne].
  - split.
    + split; [intros _; apply Hzero; lia|reflexivity].
    + split.
      * intros Heq. injection Heq as Heq.
        assert (Hc : writer (set_writer WHeld s) = writer s) by (rewrite Heq; reflexivity).
        simpl in Hc. rewrite Hw in Hc. discriminate.
      * intros Hex. apply Hsome in Hex. lia.
  - split.
    + split.
      * intros Heq. injection Heq as Heq.
        assert (Hc : writer s = writer (set_writer WHeld s)) by (rewrite <- Heq; reflexivity).
        simpl in Hc. rewrite Hw in Hc. discriminate.
      * intros Hall. apply Hzero in Hall. lia.
    + split; [intros _; apply Hsome; lia|reflexivity].
Qed.

Lemma writer_enters_when_readers_are_gone_witness :
  let s := mkState 129 [RHeld; RAdd] WSpin in
  reachable 2 s
  /\ writer s = WSpin
  /\ step WTest s = Some s.
Proof.
  intros s.
  assert (Hr : reachable 2 s).
  { exists [RCall 0%nat; RTest 0%nat; RFetchAdd 0%nat; RCall 1%nat; RTest 1%nat; WAdd].
    reflexivity. }
  split; [exact Hr|]. split; [reflexivity|].
  apply (proj2 (writer_enters_when_readers_are_gone 2 s Hr eq_refl)).
  exists 0%nat, RHeld. split; [reflexivity|left; reflexivity].
Defined.

(** X28. The counter stays within bounds: in every reachable state of
    [n] reader threads and the writer, [m_root_lock] is at least 0 and at
    most [128 + n]; it is at most [n] while the writer is out and at least
    128 while the writer is waiting or inside. So with fewer than 128
    threads the readers' test [m_root_lock >= 128] holds exactly when the
    writer is waiting or inside. *)
Theorem lock_stays_within_bounds (n : nat) (s : state) :
  reachable n s ->
  0 <= lock s <= 128 + Z.of_nat n
  /\ (writer s = WOut -> lock s <= Z.of_nat n)
  /\ (writer s <> WOut -> 128 <= lock s)
  /\ (Z.of_nat n < 128 -> (128 <= lock s <-> writer s <> WOut)).
Proof.
  intros Hr. destruct (reachable_inv n s Hr) as [[Hl _] Hlen].
  pose proof (total_bounds reader_units (readers s) reader_units_01) as Hb.
  rewrite Hlen in Hb.
  destruct (writer s) eqn:Hw; simpl in Hl.
  - split; [lia|]. split; [lia|]. split; [intros Hc; contradiction|].
    intros Hn. split; [lia|intros Hc; contradiction].
  - split; [lia|]. split; [discriminate|]. split; [lia|].
    intros Hn. split; [discriminate|lia].
  - split; [lia|]. split; [discriminate|]. split; [lia|].
    intros Hn. split; [discriminate|lia].
Qed.

Lemma lock_stays_within_bounds_witness :
  let s := mkState 129 [RHeld; RAdd] WSpin in
  reachable 2 s
  /\ 0 <= lock s <= 128 + 2
  /\ (writer s <> WOut -> 128 <= lock s).
Proof.
  intros s.
  assert (Hr : reachable 2 s).
  { exists [RCall 0%nat; RTest 0%nat; RFetchAdd 0%nat; RCall 1%nat; RTest 1%nat; WAdd].
    reflexivity. }
  split; [exact Hr|].
  destruct (lock_stays_within_bounds 2 s Hr) as (Hb & _ & Hw & _).
  split; [exact Hb|exact Hw].
Defined.

End RootLockMore.

(* ===================================================================== *)
(** * Further properties of time management and of the controller *)
(* ===================================================================== *)

Section TimeManageMore.
Import TimeManage.

Variable UNLIMITED_PLAYOUTS : Z.
Variable playouts_in : Z -> Z -> Z -> Z.

Lemma est_playouts_left_nonneg (s : search) (elapsed_centis time_for_move : Z) :
  Controller.rate_is_nonnegative playouts_in ->
  0 <= est_playouts_left playouts_in s elapsed_centis time_for_move.
Proof.
  intros Hrate. unfold est_playouts_left.
  destruct (Z.ltb_spec elapsed_centis 100) as [He|He]; simpl; [lia|].
  destruct (Z.ltb_spec (m_playouts s) 100) as [Hp|Hp]; simpl; [lia|].
  specialize (Hrate (m_playouts s) elapsed_centis (Z.max 0 (time_for_move - elapsed_centis))).
  lia.
Qed.

Lemma most_visits_ge (Nfirst : Z) (cs : list node) :
  Nfirst <= most_visits Nfirst cs.
Proof.
  revert Nfirst. induction cs as [|n cs IH]; intros Nfirst; simpl; [lia|].
  destruct (valid n); [|apply IH].
  specialize (IH (Z.max Nfirst (to_int (get_visits n)))). lia.
Qed.

Lemma most_visits_mono (a b : Z) (cs : list node) :
  a <= b -> most_visits a cs <= most_visits b cs.
Proof.
  revert a b. induction cs as [|n cs IH]; intros a b Hab; simpl; [exact Hab|].
  destruct (valid n); apply IH; lia.
Qed.

Lemma to_int_small (x : Z) : 0 <= x < 2147483648 -> to_int x = x.
Proof.
  intros Hx. unfold to_int. rewrite Z.mod_small by lia. lia.
Qed.

(** With visit counts in the range of [int], the first loop finds either
    its start value or the visits of a valid child. *)
Lemma most_visits_attained (Nfirst : Z) (cs : list node) :
  (forall n, In n cs -> 0 <= get_visits n < 2147483648) ->
  most_visits Nfirst cs = Nfirst
  \/ exists n, In n cs /\ valid n = true /\ get_visits n = most_visits Nfirst cs.
Proof.
  revert Nfirst. induction cs as [|n cs IH]; intros Nfirst Hr; simpl; [left; reflexivity|].
  assert (Hr' : forall m, In m cs -> 0 <= get_visits m < 2147483648)
    by (intros m Hm; apply Hr; right; exact Hm).
  destruct (valid n) eqn:Hv.
  - rewrite (to_int_small (get_visits n)) by (apply Hr; left; reflexivity).
    destruct (IH (Z.max Nfirst (get_visits n)) Hr') as [Heq | (m & Hm & Hvm & Hgm)].
    + destruct (Z.max_spec Nfirst (get_visits n)) as [[_ Hmax] | [_ Hmax]].
      * right. exists n. split; [left; reflexivity|]. split; [exact Hv|]. lia.
      * left. lia.
    + right. exists m. split; [right; exact Hm|]. split; assumption.
  - destruct (IH Nfirst Hr') as [Heq | (m & Hm & Hvm & Hgm)].
    + left. exact Heq.
    + right. exists m. split; [right; exact Hm|]. split; assumption.
Qed.

Lemma most_visits_bounds_valid (Nfirst : Z) (cs : list node) (n : node) :
  (forall m, In m cs -> 0 <= get_visits m < 2147483648) ->
  In n cs -> valid n = true -> get_visits n <= most_visits Nfirst cs.
Proof.
  revert Nfirst. induction cs as [|c cs IH]; intros Nfirst Hr Hin Hv; [destruct Hin|].
  assert (Hr' : forall m, In m cs -> 0 <= get_visits m < 2147483648)
    by (intros m Hm; apply Hr; right; exact Hm).
  simpl. destruct Hin as [-> | Hin].
  - rewrite Hv. rewrite (to_int_small (get_visits n)) by (apply Hr; left; reflexivity).
    pose proof (most_visits_ge (Z.max Nfirst (get_visits n)) cs). lia.
  - destruct (valid c); apply IH; assumption.
Qed.

Lemma noncontenders_short (required : Z) (cs : list node) :
  (length (noncontenders required cs) <= length cs)%nat.
Proof. unfold noncontenders. apply List.filter_length_le. Qed.

Lemma noncontenders_spares (required : Z) (cs : list node) (n : node) :
  In n cs -> (valid n && (get_visits n <? required)) = false ->
  (length (noncontenders required cs) < length cs)%nat.
Proof.
  unfold noncontenders. induction cs as [|c cs IH]; intros Hin Hn; [destruct Hin|].
  simpl. destruct Hin as [-> | Hin].
  - rewrite Hn. pose proof (List.filter_length_le (fun n => valid n && (get_visits n <? required)) cs).
    simpl. lia.
  - specialize (IH Hin Hn).
    destruct (valid c && (get_visits c <? required)); simpl; lia.
Qed.

(** X4. [est_playouts_left] never returns a negative number and never more
    than what either limit leaves: at most [m_maxplayouts - m_playouts]
    and at most [m_maxvisits] minus the root's visits (at most 0 when a
    limit is reached, so the estimate is 0 then). *)
Theorem est_playouts_left_within_limits (s : search) (elapsed_centis time_for_move : Z) :
  Controller.rate_is_nonnegative playouts_in ->
  let est := est_playouts_left playouts_in s elapsed_centis time_for_move in
  0 <= est
  /\ est <= Z.max 0 (m_maxplayouts s - m_playouts s)
  /\ est <= Z.max 0 (m_maxvisits s - to_int (root_visits s))
  /\ (m_maxplayouts s <= m_playouts s \/ m_maxvisits s <= to_int (root_visits s) -> est = 0).
Proof.
  intros Hrate est.
  pose proof (est_playouts_left_nonneg s elapsed_centis time_for_move Hrate) as Hnn.
  fold est in Hnn.
  assert (Hle : est <= Z.max 0 (Z.min (m_maxplayouts s - m_playouts s)
                                   (m_maxvisits s - to_int (root_visits s)))).
  { unfold est, est_playouts_left.
    destruct ((elapsed_centis <? 100) || (m_playouts s <? 100)); lia. }
  repeat split; lia.
Qed.

(** X5. The assertion at the end of [prune_noncontenders] holds whenever
    the root has children: with visit counts in the range of [int], the
    number of pruned nodes is below the number of children, because a valid
    child with the most visits always reaches the bar; with [prune] set it
    is (re)activated, without it it is left alone. *)
Theorem prune_noncontenders_spares_the_leader
    (s : search) (elapsed_centis time_for_move : Z) (prune : bool) :
  Controller.rate_is_nonnegative playouts_in ->
  children s <> [] ->
  (forall n, In n (children s) -> 0 <= get_visits n < 2147483648) ->
  let '(s', pruned_nodes) :=
    prune_noncontenders playouts_in s elapsed_centis time_for_move prune in
  0 <= pruned_nodes < Z.of_nat (length (children s))
  /\ length (children s') = length (children s)
  /\ forall i n,
       children s !! i = Some n -> valid n = true ->
       (forall m, In m (children s) -> valid m = true -> get_visits m <= get_visits n) ->
       children s' !! i = Some (if prune then set_active true n else n).
Proof.
  intros Hrate Hne Hr.
  unfold prune_noncontenders. rewrite mark_noncontenders_spec.
  set (required := min_required_visits playouts_in s elapsed_centis time_for_move).
  pose proof (est_playouts_left_nonneg s elapsed_centis time_for_move Hrate) as Hest.
  assert (Hreq : required <= most_visits 0 (children s))
    by (unfold required, min_required_visits; lia).
  split; [|split].
  - split; [lia|].
    destruct (most_visits_attained 0 (children s) Hr) as [Hzero | (n & Hin & Hv & Hg)].
    + destruct (children s) as [|c cs] eqn:Hcs; [contradiction|].
      assert (Hc : (valid c && (get_visits c <? required)) = false).
      { destruct (valid c); [simpl|reflexivity].
        apply Z.ltb_ge. specialize (Hr c (or_introl eq_refl)). lia. }
      pose proof (noncontenders_spares required (c :: cs) c (or_introl eq_refl) Hc). lia.
    + assert (Hc : (valid n && (get_visits n <? required)) = false).
      { rewrite Hv. simpl. apply Z.ltb_ge. lia. }
      pose proof (noncontenders_spares required (children s) n Hin Hc). lia.
  - simpl. destruct prune; [apply deactivate_length|reflexivity].
  - intros i n Hi Hv Hmax. simpl.
    destruct prune; [|exact Hi].
    unfold deactivate_noncontenders. rewrite list_lookup_fmap, Hi. simpl. rewrite Hv.
    f_equal. f_equal. apply Z.leb_le.
    destruct (most_visits_attained 0 (children s) Hr) as [Hzero | (m & Hin & Hvm & Hg)].
    + assert (Hin : In n (children s)) by (apply list_elem_of_In; eapply list_elem_of_lookup_2; eauto).
      specialize (Hr n Hin). lia.
    + specialize (Hmax m Hin Hvm). lia.
Qed.

End TimeManageMore.

Lemma exact_rate_is_nonnegative :
  Controller.rate_is_nonnegative TimeManage.exact_playouts_in.
Proof.
  intros p e t Hp He Ht. unfold TimeManage.exact_playouts_in.
  apply Z.div_pos; nia.
Qed.

Lemma est_playouts_left_within_limits_witness :
  let s := TimeManage.self_play_search in
  let est := TimeManage.est_playouts_left TimeManage.exact_playouts_in s 500 510 in
  Controller.rate_is_nonnegative TimeManage.exact_playouts_in
  /\ 0 <= est
  /\ est <= Z.max 0 (TimeManage.m_maxplayouts s - TimeManage.m_playouts s)
  /\ est <= Z.max 0 (TimeManage.m_maxvisits s - to_int (TimeManage.root_visits s))
  /\ (TimeManage.m_maxplayouts s <= TimeManage.m_playouts s
      \/ TimeManage.m_maxvisits s <= to_int (TimeManage.root_visits s) -> est = 0).
Proof.
  intros s est. split; [exact exact_rate_is_nonnegative|].
  exact (est_playouts_left_within_limits TimeManage.exact_playouts_in s 500 510
           exact_rate_is_nonnegative).
Defined.

Lemma prune_noncontenders_spares_the_leader_witness :
  let s := TimeManage.self_play_search in
  Controller.rate_is_nonnegative TimeManage.exact_playouts_in
  /\ TimeManage.children s <> []
  /\ TimeManage.children
       (fst (TimeManage.prune_noncontenders TimeManage.exact_playouts_in s 500 510 true))
     !! 0%nat
     = Some (TimeManage.mkNode 900 true true).
Proof.
  intros s. split; [exact exact_rate_is_nonnegative|]. split; [discriminate|].
  assert (Hr : forall n, In n (TimeManage.children s) ->
                 0 <= TimeManage.get_visits n < 2147483648).
  { intros n [<- | [<- | []]]; simpl; lia. }
  pose proof (prune_noncontenders_spares_the_leader TimeManage.exact_playouts_in s 500 510 true
                exact_rate_is_nonnegative ltac:(discriminate) Hr) as H.
  destruct (TimeManage.prune_noncontenders TimeManage.exact_playouts_in s 500 510 true)
    as [s' pruned].
  destruct H as (_ & _ & Hleader). simpl.
  apply (Hleader 0%nat (TimeManage.mkNode 900 true true) eq_refl eq_refl).
  intros m [<- | [<- | []]] _; simpl; lia.
Defined.

Section ControllerProofs.
Import TimeManage Controller.

Variable UNLIMITED_PLAYOUTS : Z.
Variable playouts_in : Z -> Z -> Z -> Z.

(** [have_alternate_moves] writes nothing but the children's flags. *)
Lemma have_alternate_moves_frame (s : search) (elapsed_centis time_for_move : Z) :
  exists cs,
    fst (have_alternate_moves UNLIMITED_PLAYOUTS playouts_in s elapsed_centis time_for_move)
    = with_children cs s
    /\ List.map (set_active true) cs = List.map (set_active true) (children s).
Proof.
  unfold have_alternate_moves, prune_noncontenders.
  rewrite mark_noncontenders_spec.
  set (required := min_required_visits playouts_in s elapsed_centis time_for_move).
  assert (Hsame : with_children (children s) s = s) by (destruct s; reflexivity).
  destruct (enabled_eqb (cfg_timemanage s) OFF).
  { exists (children s). simpl. split; [symmetry; exact Hsame|reflexivity]. }
  destruct (Z.of_nat (length (children s)) =? 0).
  { exists (children s). simpl. split; [symmetry; exact Hsame|reflexivity]. }
  exists (if negb (enabled_eqb (cfg_timemanage s) NO_PRUNING)
          then deactivate_noncontenders required (children s) else children s).
  split.
  - cbv zeta.
    repeat match goal with |- context [if ?b then _ else _] =>
      lazymatch b with
      | negb (enabled_eqb _ NO_PRUNING) => fail
      | _ => destruct b
      end end; reflexivity.
  - destruct (negb _); [|reflexivity].
    unfold deactivate_noncontenders. rewrite List.map_map.
    apply List.map_ext. intros n. destruct (valid n); reflexivity.
Qed.

(** X6. Whenever the loop of [think] decides to go on, the workers'
    condition in [search] holds as well, before and after the pruning of
    that round; the converse fails on time alone: once the time for the
    move is used up [think] leaves its loop, while the workers' condition,
    which is tested with [stop_thinking(0, 1)], does not read the clock. *)
Theorem workers_run_while_think_runs (e : engine) (elapsed_centis time_for_move : Z) :
  let '(e', keeprunning) :=
    think_keeprunning UNLIMITED_PLAYOUTS playouts_in e elapsed_centis time_for_move in
  (keeprunning = true -> search_starts_simulation e = true)
  /\ search_starts_simulation e' = search_starts_simulation e
  /\ (time_for_move <= elapsed_centis -> keeprunning = false)
  /\ search_starts_simulation e
     = m_run e && (tree_size e <? cfg_max_tree_size e)
       && (m_playouts (tree e) <? m_maxplayouts (tree e))
       && (root_visits (tree e) <? m_maxvisits (tree e)).
Proof.
  unfold think_keeprunning.
  destruct (have_alternate_moves_frame (tree e) elapsed_centis time_for_move)
    as (cs & Hfst & _).
  destruct (have_alternate_moves UNLIMITED_PLAYOUTS playouts_in (tree e)
              elapsed_centis time_for_move) as [t alternates].
  simpl in Hfst. subst t.
  unfold search_starts_simulation, is_running, stop_thinking. simpl.
  destruct (m_run e); simpl;
    destruct (Z.ltb_spec (tree_size e) (cfg_max_tree_size e)); simpl;
    destruct (Z.leb_spec (m_maxplayouts (tree e)) (m_playouts (tree e)));
    destruct (Z.ltb_spec (m_playouts (tree e)) (m_maxplayouts (tree e))); try lia; simpl;
    destruct (Z.leb_spec (m_maxvisits (tree e)) (root_visits (tree e)));
    destruct (Z.ltb_spec (root_visits (tree e)) (m_maxvisits (tree e))); try lia; simpl;
    destruct (Z.leb_spec time_for_move elapsed_centis); simpl;
    repeat split; intros; try reflexivity; try discriminate; try lia.
Qed.

(** X7. A round of pruning in [have_alternate_moves] touches nothing but
    the [active] flags of the root's children: their visits and validity
    are as before, and the loop at the end of [think], which sets every
    root child active, leaves the children as it would have left them
    without the pruning. No child stays deactivated after [think]. *)
Theorem think_reactivates_all (s : search) (elapsed_centis time_for_move : Z) :
  let s' :=
    fst (have_alternate_moves UNLIMITED_PLAYOUTS playouts_in s elapsed_centis time_for_move) in
  reactivate (children s') = reactivate (children s)
  /\ Forall (fun n => active n = true) (reactivate (children s'))
  /\ List.map get_visits (children s') = List.map get_visits (children s)
  /\ List.map valid (children s') = List.map valid (children s).
Proof.
  cbv zeta.
  destruct (have_alternate_moves_frame s elapsed_centis time_for_move) as (cs & -> & Hcs).
  simpl. unfold reactivate.
  assert (Hv : List.map get_visits cs = List.map get_visits (children s)).
  { transitivity (List.map get_visits (List.map (set_active true) cs)).
    - rewrite List.map_map. reflexivity.
    - rewrite Hcs, List.map_map. reflexivity. }
  assert (Hval : List.map valid cs = List.map valid (children s)).
  { transitivity (List.map valid (List.map (set_active true) cs)).
    - rewrite List.map_map. reflexivity.
    - rewrite Hcs, List.map_map. reflexivity. }
  repeat split; try assumption.
  apply List.Forall_forall. intros n Hn. apply List.in_map_iff in Hn.
  destruct Hn as (m & <- & _). reflexivity.
Qed.

Lemma stamps_after_no_interval (readings : list Z) :
  last_output (stamps_after 0 readings) = 0.
Proof.
  unfold stamps_after.
  assert (H : forall k, last_output k = 0 ->
            last_output (fold_left (fun k e => fst (fst (report 0 k e))) readings k) = 0).
  { induction readings as [|r rs IH]; intros k Hk; simpl; [exact Hk|].
    apply IH. simpl. exact Hk. }
  apply H. reflexivity.
Qed.

(** X8. With no analysis interval configured
    ([cfg_analyze_interval_centis = 0], the default), [last_output] stays 0
    through every round of the loop of [think], so the duration handed to
    [sleep_for] is never positive: the loop polls without sleeping. *)
Theorem think_does_not_sleep_without_interval
    (readings : list Z) (elapsed_centis time_for_move : Z) :
  0 <= elapsed_centis ->
  sleep_ms 0 (stamps_after 0 readings) elapsed_centis time_for_move <= 0.
Proof.
  intros He. unfold sleep_ms. rewrite stamps_after_no_interval. lia.
Qed.

Lemma think_does_not_sleep_without_interval_witness :
  0 <= 120
  /\ sleep_ms 0 (stamps_after 0 [10; 60; 110]) 120 500 <= 0.
Proof.
  split; [lia|].
  apply (think_does_not_sleep_without_interval [10; 60; 110] 120 500). lia.
Defined.

Lemma ponder_rounds (rounds : list (engine * bool)) (e' : engine) :
  ponder rounds = Some e' ->
  exists e input_pending,
    ponder_last_round rounds = Some (e, input_pending)
    /\ e' = with_m_run (is_running e && negb (stop_thinking e 0 1)) e
    /\ (negb input_pending && (is_running e && negb (stop_thinking e 0 1))) = false.
Proof.
  induction rounds as [|[e ip] later IH]; simpl; intros H; [discriminate|].
  destruct (negb ip && (is_running e && negb (stop_thinking e 0 1))) eqn:Hgo.
  - apply IH. exact H.
  - injection H as <-. exists e, ip. repeat split. exact Hgo.
Qed.

(** X9. When [ponder] returns, [m_run] is what the workers' condition in
    [search] evaluates to: the workers go on searching after [ponder] has
    returned exactly when [m_run] is left true, and that happens only when
    the loop was ended by pending input while the search was running
    within its limits. Otherwise [m_run] is false and the workers wait. *)
Theorem ponder_leaves_workers_running_only_on_input
    (rounds : list (engine * bool)) (e' : engine) :
  ponder rounds = Some e' ->
  search_starts_simulation e' = m_run e'
  /\ (m_run e' = true ->
      exists e, ponder_last_round rounds = Some (e, true)
                /\ search_starts_simulation e = true
                /\ e' = e).
Proof.
  intros H. destruct (ponder_rounds rounds e' H) as (e & ip & Hlast & -> & Hstop).
  unfold search_starts_simulation in *.
  set (stop := stop_thinking e 0 1) in *.
  assert (Hstop' : stop_thinking (with_m_run (is_running e && negb stop) e) 0 1 = stop)
    by reflexivity.
  rewrite Hstop'. unfold is_running in *. simpl.
  destruct e as [t run size bound]. simpl in *.
  destruct run, (size <? bound) eqn:Hsize, (negb stop) eqn:Hgo; simpl in *;
    (split; [reflexivity|]); try discriminate.
  intros _. destruct ip; [|discriminate].
  eexists. split; [exact Hlast|]. split; [|reflexivity].
  simpl. rewrite Hsize. fold stop. rewrite Hgo. reflexivity.
Qed.

End ControllerProofs.

Lemma ponder_leaves_workers_running_only_on_input_witness :
  let rounds := [(Controller.busy, false); (Controller.busy, true)] in
  Controller.ponder rounds = Some Controller.busy
  /\ Controller.search_starts_simulation Controller.busy = Controller.m_run Controller.busy.
Proof.
  intros rounds.
  assert (H : Controller.ponder rounds = Some Controller.busy) by reflexivity.
  split; [exact H|].
  exact (proj1 (ponder_leaves_workers_running_only_on_input rounds Controller.busy H)).
Defined.

(* ===================================================================== *)
(** * Further properties of the simulations *)
(* ===================================================================== *)

Section SearchMore.
Import Search SearchFrame.

Context {F : Type} `{FloatOps F} {GameState : Type}.
Variable C : collaborators F GameState.

Lemma backup_loop_ledger (e : F) (vl : Z) (rest : list (nat * F)) :
  forall (factor : F) (w : world F),
    counters (backup_loop e vl factor rest w) = counters w
    /\ m_playouts (backup_loop e vl factor rest w) = m_playouts w
    /\ m_root_prepared (backup_loop e vl factor rest w) = m_root_prepared w.
Proof.
  induction rest as [|[node nf] rest IH]; intros factor w; simpl.
  - repeat split.
  - destruct (IH (fmul factor nf) (on_node (update e vl factor (fmul factor nf)) node w))
      as (-> & -> & ->). repeat split.
Qed.

Lemma backup_vl_ledger (bd : BackupData F GameState) (vl : Z) (w : world F) :
  counters (backup_vl bd vl w) = alter (fun v => v - 1) (pending_counter bd) (counters w)
  /\ m_playouts (backup_vl bd vl w) = m_playouts w
  /\ m_root_prepared (backup_vl bd vl w) = m_root_prepared w.
Proof.
  unfold backup_vl. destruct (rev (path bd)) as [|[n f] rest]; simpl.
  - repeat split.
  - destruct (backup_loop_ledger (eval bd) (to_uint16 vl) rest f w) as (-> & -> & ->).
    repeat split.
Qed.

Lemma fold_on_node_ledger (g : nat * F -> UCTNode F -> UCTNode F) (p : list (nat * F)) :
  forall (w : world F),
    let w' := fold_left (fun w nf => on_node (g nf) (fst nf) w) p w in
    counters w' = counters w
    /\ m_playouts w' = m_playouts w
    /\ m_root_prepared w' = m_root_prepared w.
Proof.
  induction p as [|nf p IH]; intros w; simpl.
  - repeat split.
  - destruct (IH (on_node (g nf) (fst nf) w)) as (-> & -> & ->). repeat split.
Qed.

Lemma failed_simulation_ledger
    (bd : BackupData F GameState) (vl : Z) (incr : bool) (w : world F) :
  counters (failed_simulation bd vl incr w)
  = alter (fun v => v - 1) (pending_counter bd) (counters w)
  /\ m_playouts (failed_simulation bd vl incr w) = m_playouts w
  /\ m_root_prepared (failed_simulation bd vl incr w) = m_root_prepared w.
Proof.
  unfold failed_simulation. simpl.
  pose proof (fold_on_node_ledger
                (fun _ => if incr then virtual_loss (to_uint16 vl)
                          else virtual_loss_undo (to_uint16 vl))
                (rev (path bd)) w) as Hl.
  cbv zeta in Hl.
  assert (Hfold :
    fold_left (fun w nf => if incr then on_node (virtual_loss (to_uint16 vl)) (fst nf) w
                           else on_node (virtual_loss_undo (to_uint16 vl)) (fst nf) w)
      (rev (path bd)) w
    = fold_left (fun w nf => on_node (if incr then virtual_loss (to_uint16 vl)
                                      else virtual_loss_undo (to_uint16 vl)) (fst nf) w)
        (rev (path bd)) w).
  { destruct incr; reflexivity. }
  rewrite Hfold. destruct Hl as (-> & -> & ->). repeat split.
Qed.

Lemma play_loop_ledger (fuel : nat) :
  forall (currstate : GameState) (node : nat) (factor : F) (is_root : bool)
         (bd : BackupData F GameState) (w : world F),
    let '(out, w') := play_loop C fuel currstate node factor is_root bd w in
    m_playouts w' = m_playouts w
    /\ m_root_prepared w' = m_root_prepared w
    /\ counters w'
       = (if settles out then alter (fun v => v - 1) (pending_counter bd) (counters w)
          else counters w).
Proof.
  induction fuel as [|fuel IH]; intros currstate node factor is_root bd w; simpl.
  - repeat split.
  - destruct (2 <=? Search.get_passes C currstate).
    { match goal with |- context [backup_vl ?b ?v ?x] =>
        destruct (backup_vl_ledger b v x) as (-> & -> & ->) end.
      simpl. repeat split. }
    destruct (Search.get_action C (is_root && negb (m_root_prepared w)) node (nodes w))
      as [action h].
    destruct action; simpl.
    + repeat split.
    + repeat split.
    + destruct (Search.uct_select_child C (Search.get_to_move C currstate) is_root node h)
        as [[[new_node new_factor]|] h'].
      * match goal with |- context [if ?b then _ else _] => destruct b end.
        -- match goal with |- context [failed_simulation ?b ?v ?i ?x] =>
             destruct (failed_simulation_ledger b v i x) as (-> & -> & ->) end.
           simpl. repeat split.
        -- match goal with |- context [play_loop C fuel ?s ?n ?f ?r ?b ?x] =>
             specialize (IH s n f r b x);
             destruct (play_loop C fuel s n f r b x) as [out w'] end.
           simpl in IH. exact IH.
      * match goal with |- context [backup_vl ?b ?v ?x] =>
          destruct (backup_vl_ledger b v x) as (-> & -> & ->) end.
        simpl. repeat split.
    + match goal with |- context [backup_vl ?b ?v ?x] =>
        destruct (backup_vl_ledger b v x) as (-> & -> & ->) end.
      simpl. repeat split.
Qed.

(** X12. [play_simulation] never touches [m_playouts] or
    [m_root_prepared], and it decrements the pending counter it was given
    exactly once when it ends without asking the network (FAIL, a backup
    from the tree or from a finished game, a superko abort) and not at all
    when it hands the leaf to the network; no other pending counter is
    changed. *)
Theorem play_simulation_settles_its_pending_counter
    (fuel : nat) (currstate : GameState) (node : nat) (pending_counter : nat) (w : world F) :
  let '(out, w') := play_simulation C fuel currstate node pending_counter w in
  m_playouts w' = m_playouts w
  /\ m_root_prepared w' = m_root_prepared w
  /\ counters w'
     = (if settles out then alter (fun v => v - 1) pending_counter (counters w)
        else counters w).
Proof.
  unfold play_simulation.
  exact (play_loop_ledger fuel currstate node f_1 true
           (mkBackupData [] None f_0 0 pending_counter) w).
Qed.

(** X13. The callback [backup] that runs when the network answers counts
    one playout, decrements the pending counter of the simulation exactly
    once (whether the evaluation is used or the node had been visited in
    the meantime), and sets [m_root_prepared] when the path is the root
    alone; it never clears that flag, and it leaves the recorded path, the
    state and the pending counter of the simulation as they were. *)
Theorem backup_counts_one_playout
    (bd bd' : BackupData F GameState) (netresult : Netresult F) (w w' : world F) :
  backup C bd netresult w = Some (bd', w') ->
  m_playouts w' = m_playouts w + 1
  /\ counters w' = alter (fun v => v - 1) (pending_counter bd) (counters w)
  /\ m_root_prepared w' = m_root_prepared w || Nat.eqb (length (path bd)) 1
  /\ path bd' = path bd
  /\ state bd' = state bd
  /\ pending_counter bd' = pending_counter bd.
Proof.
  unfold backup. intros Hb.
  destruct (last (path bd)) as [[node factor]|]; [|discriminate].
  destruct (state bd) as [st|] eqn:Hst; [|discriminate].
  destruct (nodes w !! node) as [n0|]; [|discriminate].
  injection Hb as <- <-. cbn [m_playouts counters m_root_prepared].
  destruct (feqb (get_visits n0) f_0).
  - match goal with |- context [backup_vl ?b ?v ?x] =>
      destruct (backup_vl_ledger b v x) as (-> & -> & ->) end.
    unfold on_node, on_nodes.
    destruct (Nat.eqb (length (path bd)) 1); cbn [andb m_root_prepared];
      destruct (m_root_prepared w) eqn:Hprep;
      cbn [negb andb orb m_root_prepared counters m_playouts path state pending_counter
           set_eval];
      rewrite ?Hprep, ?Hst; repeat split.
  - match goal with |- context [failed_simulation ?b ?v ?i ?x] =>
      destruct (failed_simulation_ledger b v i x) as (-> & -> & ->) end.
    unfold on_node, on_nodes.
    destruct (Nat.eqb (length (path bd)) 1); cbn [andb m_root_prepared];
      destruct (m_root_prepared w) eqn:Hprep;
      cbn [negb andb orb m_root_prepared counters m_playouts path state pending_counter
           set_eval];
      rewrite ?Hprep, ?Hst; repeat split.
Qed.

Lemma play_loop_path (fuel : nat) :
  forall (currstate : GameState) (node : nat) (factor : F) (is_root : bool)
         (bd : BackupData F GameState) (w : world F),
    match recorded (fst (play_loop C fuel currstate node factor is_root bd w)) with
    | Some bd' =>
        (exists rest, path bd' = path bd ++ (node, factor) :: rest
                      /\ (length rest < fuel)%nat)
        /\ pending_counter bd' = pending_counter bd
        /\ (settles (fst (play_loop C fuel currstate node factor is_root bd w)) = false ->
            is_Some (state bd'))
    | None => True
    end.
Proof.
  induction fuel as [|fuel IH]; intros currstate node factor is_root bd w; simpl.
  - exact I.
  - destruct (2 <=? Search.get_passes C currstate).
    { simpl. split; [exists []; split; [reflexivity|simpl; lia]|].
      split; [reflexivity|discriminate]. }
    destruct (Search.get_action C (is_root && negb (m_root_prepared w)) node (nodes w))
      as [action h].
    destruct action; simpl.
    + split; [exists []; split; [reflexivity|simpl; lia]|].
      split; [reflexivity|intros _; eexists; reflexivity].
    + exact I.
    + destruct (Search.uct_select_child C (Search.get_to_move C currstate) is_root node h)
        as [[[new_node new_factor]|] h'].
      * match goal with |- context [if ?b then _ else _] => destruct b end.
        -- simpl. split; [exists []; split; [reflexivity|simpl; lia]|].
           split; [reflexivity|discriminate].
        -- match goal with |- context [play_loop C fuel ?s ?n ?f ?r ?b ?x] =>
             specialize (IH s n f r b x);
             destruct (play_loop C fuel s n f r b x) as [out w'] end.
           simpl in *. destruct (recorded out) as [bd'|]; [|exact I].
           destruct IH as ((rest & Hp & Hl) & Hpc & Hs).
           split; [|split; assumption].
           exists ((new_node, new_factor) :: rest). split; [|simpl; lia].
           rewrite Hp, <- app_assoc. reflexivity.
      * simpl. split; [exists []; split; [reflexivity|simpl; lia]|].
        split; [reflexivity|discriminate].
    + split; [exists []; split; [reflexivity|simpl; lia]|].
      split; [reflexivity|discriminate].
Qed.

(** X14. The path a simulation records always starts with the node the
    simulation was started at, with factor 1.0, and has at most one entry
    per round of the loop; the pending counter stored with it is the one
    passed in; and a simulation handed to the network carries the state to
    evaluate. So the callback [backup] always finds a last path entry and a
    state. *)
Theorem play_simulation_records_the_path_from_its_start
    (fuel : nat) (currstate : GameState) (node : nat) (pending_counter : nat) (w : world F) :
  let out := fst (play_simulation C fuel currstate node pending_counter w) in
  match recorded out with
  | Some bd =>
      (exists rest, path bd = (node, f_1) :: rest /\ (length rest < fuel)%nat)
      /\ is_Some (last (path bd))
      /\ Search.pending_counter bd = pending_counter
      /\ (settles out = false -> is_Some (state bd))
  | None => True
  end.
Proof.
  cbv zeta. unfold play_simulation.
  pose proof (play_loop_path fuel currstate node f_1 true
                (mkBackupData [] None f_0 0 pending_counter) w) as Hp.
  destruct (recorded _) as [bd|]; [|exact I].
  destruct Hp as ((rest & Hp & Hl) & Hpc & Hs). simpl in Hp, Hpc.
  split; [exists rest; split; assumption|].
  split; [|split; assumption].
  rewrite Hp. destruct rest as [|x rest']; [eexists; reflexivity|].
  change ((node, f_1) :: x :: rest') with ([(node, f_1)] ++ x :: rest').
  destruct (last ([(node, f_1)] ++ x :: rest')) eqn:Hlast; [eexists; reflexivity|].
  apply last_None in Hlast. discriminate.
Qed.

Lemma statistics_kept_refl (w : world F) : statistics_kept w w.
Proof.
  intros node. destruct (nodes w !! node); [|exact I].
  split; [reflexivity|]. split; [reflexivity|apply same_shape_refl].
Qed.

Lemma statistics_kept_trans (w1 w2 w3 : world F) :
  statistics_kept w1 w2 -> statistics_kept w2 w3 -> statistics_kept w1 w3.
Proof.
  intros H12 H23 node. specialize (H12 node). specialize (H23 node).
  destruct (nodes w1 !! node), (nodes w2 !! node), (nodes w3 !! node);
    try contradiction; try exact I.
  destruct H12 as (V12 & S12 & Sh12), H23 as (V23 & S23 & Sh23).
  split; [congruence|]. split; [congruence|].
  unfold same_shape in *. intuition congruence.
Qed.

Lemma on_node_statistics_kept (f : UCTNode F -> UCTNode F) (node : nat) (w : world F) :
  (forall n, get_visits (f n) = get_visits n /\ value_sum (f n) = value_sum n
             /\ same_shape n (f n)) ->
  statistics_kept w (on_node f node w).
Proof.
  intros Hf k. unfold on_node, on_nodes. simpl.
  rewrite lookup_alter. case_decide as Hd.
  - subst k. destruct (nodes w !! node); simpl; [apply Hf|exact I].
  - destruct (nodes w !! k); [|exact I].
    split; [reflexivity|]. split; [reflexivity|apply same_shape_refl].
Qed.

(** X15. [failed_simulation] writes nothing but virtual loss and the
    pending counter: it creates and frees no node, and every node keeps its
    visits, its value sum, its accumulated count and everything else; only
    the nodes on the path lose (or, with [incr], gain) [vl] units of
    virtual loss per occurrence, and [m_playouts] is not counted up. *)
Theorem failed_simulation_leaves_the_statistics
    (bd : BackupData F GameState) (vl : Z) (incr : bool) (w : world F) :
  let w' := failed_simulation bd vl incr w in
  statistics_kept w w'
  /\ m_playouts w' = m_playouts w
  /\ forall node,
       vloss w' node
       = vloss w node
         + (if incr then 1 else -1)
           * match nodes w !! node with
             | Some _ => to_uint16 vl * occurrences node (path bd)
             | None => 0
             end.
Proof.
  cbv zeta. split; [|split].
  - unfold failed_simulation.
    assert (Hfold : forall p (w0 : world F),
      statistics_kept w0
        (fold_left (fun (w : world F) (nf : nat * F) =>
                      if incr then on_node (virtual_loss (to_uint16 vl)) (fst nf) w
                      else on_node (virtual_loss_undo (to_uint16 vl)) (fst nf) w)
           p w0)).
    { induction p as [|nf p IH]; intros w0; simpl; [apply statistics_kept_refl|].
      eapply statistics_kept_trans; [|apply IH].
      destruct incr; apply on_node_statistics_kept; intros n; repeat split. }
    intros node. exact (Hfold (rev (path bd)) w node).
  - apply failed_simulation_ledger.
  - intros node. unfold failed_simulation, vloss. cbn [nodes decrement_pending].
    rewrite <- (occurrences_rev node (path bd)).
    generalize (rev (path bd)) as p. intros p. revert w.
    induction p as [|[k kf] p IH]; intros w; simpl.
    + destruct (nodes w !! node); lia.
    + rewrite IH. unfold vloss_at, on_node, on_nodes.
      destruct incr; cbn [nodes fst]; rewrite lookup_alter; case_decide as Hd.
      * subst k. rewrite Nat.eqb_refl. destruct (nodes w !! node); simpl; lia.
      * destruct (Nat.eqb_spec k node) as [->|_]; [contradiction|].
        destruct (nodes w !! node); simpl; lia.
      * subst k. rewrite Nat.eqb_refl. destruct (nodes w !! node); simpl; lia.
      * destruct (Nat.eqb_spec k node) as [->|_]; [contradiction|].
        destruct (nodes w !! node); simpl; lia.
Qed.

(** X16. When the game is over at the root (two passes), every simulation
    started there backs the final score up at once: none asks the network,
    [m_playouts] stays where it is, and [m_root_prepared] is never set,
    however many simulations run. The loop at the end of [update_root],
    which waits for that flag, is not ended by them. *)
Theorem finished_game_never_prepares_the_root
    (currstate : GameState) (node : nat) (sims : list (nat * nat)) (w : world F) :
  2 <= Search.get_passes C currstate ->
  Forall (fun sim => fst sim <> O) sims ->
  let '(outs, w') := run_simulations C currstate node sims w in
  m_root_prepared w' = m_root_prepared w
  /\ m_playouts w' = m_playouts w
  /\ length outs = length sims
  /\ Forall (fun out => is_backed_up out = true) outs.
Proof.
  intros Hp Hs. revert w. induction Hs as [|[fuel pc] sims Hf Hs IH]; intros w; simpl.
  - repeat split. constructor.
  - pose proof (play_loop_ledger fuel currstate node f_1 true
                  (mkBackupData [] None f_0 0 pc) w) as Hl.
    assert (Hout : is_backed_up
                     (fst (play_simulation C fuel currstate node pc w)) = true).
    { unfold play_simulation. destruct fuel as [|fuel']; [contradiction Hf; reflexivity|].
      simpl. destruct (Z.leb_spec 2 (Search.get_passes C currstate)) as [_|Hlt]; [|lia].
      reflexivity. }
    unfold play_simulation in *.
    destruct (play_loop C fuel currstate node f_1 true (mkBackupData [] None f_0 0 pc) w)
      as [out w1].
    destruct Hl as (Hpl & Hrp & _). specialize (IH w1).
    destruct (run_simulations C currstate node sims w1) as [outs w2].
    destruct IH as (Hrp2 & Hpl2 & Hlen & Hall).
    split; [congruence|]. split; [congruence|]. split; [simpl; congruence|].
    constructor; assumption.
Qed.

End SearchMore.

Lemma backup_counts_one_playout_witness :
  let w := SearchDemo.expanding_world 3 2 in
  exists bd' w',
    Search.backup SearchDemo.quiet SearchDemo.root_to_child SearchDemo.even_result w
    = Some (bd', w')
    /\ Search.m_playouts w' = Search.m_playouts w + 1
    /\ Search.pending w' 0 = 0.
Proof.
  intros w.
  destruct (Search.backup SearchDemo.quiet SearchDemo.root_to_child SearchDemo.even_result w)
    as [[bd' w']|] eqn:Hb; [|vm_compute in Hb; discriminate].
  exists bd', w'. split; [reflexivity|].
  destruct (backup_counts_one_playout SearchDemo.quiet SearchDemo.root_to_child bd'
              SearchDemo.even_result w w' Hb) as (Hp & Hc & _).
  split; [exact Hp|].
  unfold Search.pending. rewrite Hc. reflexivity.
Defined.

Lemma finished_game_never_prepares_the_root_witness :
  let w := Search.mkWorld (Search.nodes SearchDemo.at_terminal_child) {[0%nat := 2]} 0 false in
  2 <= Search.get_passes SearchDemo.game_over tt
  /\ Search.m_root_prepared
       (snd (SearchFrame.run_simulations SearchDemo.game_over tt 0%nat
               [(5%nat, 0%nat); (5%nat, 0%nat)] w))
     = false.
Proof.
  intros w.
  assert (Hp : 2 <= Search.get_passes SearchDemo.game_over tt) by discriminate.
  split; [exact Hp|].
  pose proof (finished_game_never_prepares_the_root SearchDemo.game_over tt 0%nat
                [(5%nat, 0%nat); (5%nat, 0%nat)] w Hp
                ltac:(repeat constructor; discriminate)) as Hw.
  destruct (SearchFrame.run_simulations SearchDemo.game_over tt 0%nat
              [(5%nat, 0%nat); (5%nat, 0%nat)] w) as [outs w'].
  exact (proj1 Hw).
Defined.

(* ===================================================================== *)
(** * Further properties of the root advance and of the deletion task *)
(* ===================================================================== *)

Section RootAdvanceMore.
Import RootAdvance.

Context {F : Type} `{FloatOps F} {GameState : Type}.
Variable G : game F GameState.

Abbreviation UCTSearch := (RootAdvance.UCTSearch GameState).

(** [advance_to_new_rootstate] writes [m_root] and [m_last_rootstate] only. *)
Lemma advance_frame (s : UCTSearch) (td0 : list UCTNode) :
  let '(ok, s', td) := advance_to_new_rootstate G s td0 in
  m_rootstate s' = m_rootstate s
  /\ m_gtpstate s' = m_gtpstate s
  /\ m_pending_counter s' = m_pending_counter s
  /\ m_delete_futures s' = m_delete_futures s
  /\ next_addr s' = next_addr s
  /\ next_counter s' = next_counter s.
Proof.
  unfold advance_to_new_rootstate.
  destruct (m_root s) as [root|]; [|repeat split].
  destruct (m_last_rootstate s) as [last|]; [|repeat split].
  destruct (negb (feqb _ _)); [repeat split|].
  destruct (_ <? 0); [repeat split|].
  destruct (negb (_ =? _)); [repeat split|].
  destruct (replay G _ _ root last td0) as [[[[ok test'] root'] last'] td'].
  destruct (negb ok); [repeat split|].
  destruct (negb (_ =? _)); repeat split.
Qed.

Lemma started_tasks (pending : option nat) (final : list UCTNode)
    (futures : list delete_task) :
  exists started,
    match pending, final with
    | Some pc, _ :: _ => futures ++ [mkDeleteTask final pc]
    | _, _ => futures
    end = futures ++ started
    /\ (length started <= 1)%nat
    /\ (pending = None -> started = [])
    /\ forall t, In t started ->
         to_delete t <> [] /\ pending = Some (pending_counter t).
Proof.
  destruct pending as [pc|]; [destruct final as [|x final']|].
  - exists []. rewrite app_nil_r. split; [reflexivity|]. split; [simpl; lia|].
    split; [reflexivity|]. intros t0 [].
  - exists [mkDeleteTask (x :: final') pc]. split; [reflexivity|]. split; [simpl; lia|].
    split; [discriminate|]. intros t0 [<- | []]. split; [discriminate|reflexivity].
  - exists []. rewrite app_nil_r. split; [destruct final; reflexivity|].
    split; [simpl; lia|]. split; [reflexivity|]. intros t0 [].
Qed.

(** [update_root] up to the release of the writer: what it has written. *)
Lemma update_root_at_release (s : UCTSearch) :
  let s' := update_root G s in
  is_Some (m_root s')
  /\ m_last_rootstate s' = None
  /\ m_rootstate s' = m_gtpstate s
  /\ m_gtpstate s' = m_gtpstate s
  /\ m_pending_counter s' = Some (next_counter s)
  /\ next_counter s' = S (next_counter s)
  /\ m_playouts s' = 0
  /\ m_positions s' = 0
  /\ m_root_prepared s' = false
  /\ m_run s' = true
  /\ exists started,
       m_delete_futures s' = m_delete_futures s ++ started
       /\ (length started <= 1)%nat
       /\ (m_pending_counter s = None -> started = [])
       /\ forall t, In t started ->
            to_delete t <> []
            /\ m_pending_counter s = Some (pending_counter t).
Proof.
  cbv zeta. unfold update_root.
  pose proof (advance_frame (set_rootstate (m_gtpstate s) s) []) as Hf.
  destruct (advance_to_new_rootstate G (set_rootstate (m_gtpstate s) s) [])
    as [[ok s1] td].
  destruct Hf as (Hrs & Hgs & Hpc & Hdf & Hna & Hnc). simpl in Hrs, Hgs, Hpc, Hdf, Hna, Hnc.
  set (branch := negb ok || negb (bool_decide (is_Some (m_root s1)))).
  assert (Hroot : is_Some (m_root (if branch then allocate_root G s1 else s1))).
  { destruct branch eqn:Hb; [eexists; reflexivity|].
    unfold branch in Hb. apply orb_false_elim in Hb. destruct Hb as [_ Hb].
    apply negb_false_iff, bool_decide_eq_true in Hb. exact Hb. }
  destruct branch; cbn [m_root m_rootstate m_gtpstate m_pending_counter m_delete_futures
                        next_addr next_counter allocate_root m_last_rootstate m_playouts
                        m_positions m_root_prepared m_run] in *;
    rewrite ?Hrs, ?Hgs, ?Hpc, ?Hdf, ?Hnc;
    (split; [exact Hroot|]); repeat (split; [reflexivity|]).
  - apply started_tasks.
  - apply started_tasks.
Qed.

(** The closing loop returns the search as the first reading with the flag
    set finds it; every reading before it found the flag clear. *)
Lemma await_root_prepared_spec (readings : list progress) (s : UCTSearch) :
  match await_root_prepared readings s with
  | Some s' =>
      exists before p later,
        readings = before ++ p :: later
        /\ Forall (fun q => seen_root_prepared q = false) before
        /\ seen_root_prepared p = true
        /\ s' = at_reading p s
  | None => Forall (fun q => seen_root_prepared q = false) readings
  end.
Proof.
  induction readings as [|q readings IH]; cbn [await_root_prepared].
  - constructor.
  - destruct (seen_root_prepared q) eqn:Hq.
    + exists [], q, readings. repeat split; [constructor|exact Hq].
    + destruct (await_root_prepared readings s) as [s'|].
      * destruct IH as (before & p & later & -> & Hb & Hp & ->).
        exists (q :: before), p, later. repeat split; [|exact Hp].
        constructor; assumption.
      * constructor; assumption.
Qed.


(** X18. When the position of the game continues the position the tree
    was searched from (none of the four mismatches), [update_root] reuses
    the tree: the new root is the node reached from the old root by the
    moves played since, no root is allocated, one detached remainder per
    move played goes to a deletion task (no task when no move was played),
    and the old tree is exactly the new tree together with what is handed
    to the task: no node is lost and none is deleted while still in use. *)
Theorem matching_position_reuses_the_tree
    (s : UCTSearch) (root : UCTNode) (last : GameState) (pc : nat) :
  m_root s = Some root ->
  m_last_rootstate s = Some last ->
  m_pending_counter s = Some pc ->
  ~ mismatch G (m_gtpstate s) last root ->
  let c := compare G (m_gtpstate s) last in
  exists r td,
    descend G (Z.to_nat (depth c)) (rewound c) root = Some r
    /\ update_root G s
       = mkUCTSearch (Some r) None (m_gtpstate s) (m_gtpstate s)
           (Some (next_counter s)) 0 0 false true
           (m_delete_futures s
            ++ match td with [] => [] | _ :: _ => [mkDeleteTask td pc] end)
           (next_addr s) (S (next_counter s))
    /\ addrs root ≡ₚ flat_map addrs td ++ addrs r
    /\ length td = Z.to_nat (depth c).
Proof.
  intros Hroot Hlast Hpc Hmis c.
  unfold mismatch, move_not_in_tree, hash_differs, komi_changed, moved_backwards in Hmis.
  fold c in Hmis.
  assert (Hkomi : feqb (get_komi G (m_gtpstate s)) (get_komi G last) = true).
  { destruct (feqb _ _) eqn:E; [reflexivity|]. exfalso. apply Hmis. right. right. left.
    reflexivity. }
  assert (Hdepth : 0 <= depth c) by (destruct (Z.lt_ge_cases (depth c) 0); [exfalso; auto|lia]).
  destruct (descend G (Z.to_nat (depth c)) (rewound c) root) as [r|] eqn:Hdesc;
    [|exfalso; apply Hmis; left; reflexivity].
  assert (Hh1 : get_hash G last = get_hash G (rewound c)).
  { destruct (Z.eq_dec (get_hash G last) (get_hash G (rewound c))) as [E|E]; [exact E|].
    exfalso. apply Hmis. right. left. left. exact E. }
  assert (Hh2 : let '(test, last') := replayed G (Z.to_nat (depth c)) (rewound c) last in
                get_hash G last' = get_hash G test).
  { destruct (replayed G (Z.to_nat (depth c)) (rewound c) last) as [test last'] eqn:Hrep.
    destruct (Z.eq_dec (get_hash G last') (get_hash G test)) as [E|E]; [exact E|].
    exfalso. apply Hmis. right. left. right. exact E. }
  unfold update_root, advance_to_new_rootstate.
  cbn [m_root m_last_rootstate m_rootstate set_rootstate]. rewrite Hroot, Hlast, Hkomi.
  cbn [negb]. unfold c, compare in Hdepth, Hdesc, Hh1, Hh2. cbn [depth rewound] in *.
  destruct (Z.ltb_spec (to_int (get_movenum G (m_gtpstate s) - get_movenum G last)) 0)
    as [Hneg|_]; [lia|].
  rewrite Hh1, Z.eqb_refl. cbn [negb].
  pose proof (replay_spec G (Z.to_nat (to_int (get_movenum G (m_gtpstate s)
                                                - get_movenum G last)))
                (Nat.iter (Z.to_nat (to_int (get_movenum G (m_gtpstate s)
                                             - get_movenum G last)))
                   (undo_move G) (m_gtpstate s)) root last []) as Hspec.
  destruct (replay G _ _ root last []) as [[[[ok test'] root'] last'] td] eqn:Hreplay.
  destruct Hspec as (Hr & Hok & Hrep & Hperm).
  rewrite Hdesc in Hr. subst root'. rewrite bool_decide_eq_true_2 in Hok by (eexists; reflexivity).
  subst ok. specialize (Hrep eq_refl). rewrite <- Hrep in Hh2. rewrite Hh2, Z.eqb_refl.
  cbn [negb orb m_root set_root set_last_rootstate].
  rewrite bool_decide_eq_true_2 by (eexists; reflexivity). cbn [negb].
  exists r, td. split; [reflexivity|].
  cbn [m_root m_pending_counter m_delete_futures m_rootstate m_gtpstate next_addr
       next_counter set_last_rootstate set_root set_rootstate].
  rewrite Hpc. split; [destruct td; [rewrite app_nil_r|]; reflexivity|].
  split; [simpl in Hperm; exact Hperm|].
  assert (Hlen : forall d test rt lst td0,
            length (snd (replay G d test rt lst td0)) = (length td0 + d)%nat
            \/ fst (fst (fst (fst (replay G d test rt lst td0)))) = false).
  { induction d as [|d IH]; intros test rt lst td0; simpl; [left; lia|].
    destruct (find_child _ rt) as [child old]. destruct child as [child|].
    - destruct (IH (forward_move G test) child
                  (play_move G (get_last_move G (forward_move G test)) lst)
                  (td0 ++ [old])) as [Hl|Hl].
      + left. rewrite Hl, length_app. simpl. lia.
      + right. exact Hl.
    - right. reflexivity. }
  destruct (Hlen (Z.to_nat (to_int (get_movenum G (m_gtpstate s) - get_movenum G last)))
              (Nat.iter (Z.to_nat (to_int (get_movenum G (m_gtpstate s)
                                           - get_movenum G last)))
                 (undo_move G) (m_gtpstate s)) root last []) as [Hl|Hl];
    rewrite Hreplay in Hl; simpl in Hl; [exact Hl|discriminate].
Qed.

(** X19. The deletion task does delete once it is allowed to: if on some
    turn its pending counter is not positive and the node at the front of
    its list shows no virtual loss, the task frees its whole list on that
    turn or on an earlier one, and it frees it once. *)
Theorem deletion_happens_when_quiet (t : delete_task) (turns : list observed)
    (k : nat) (o : observed) :
  turns !! k = Some o ->
  must_wait t o = false ->
  exists k', run_task t turns = Some (k', flat_map addrs (to_delete t)) /\ (k' <= k)%nat.
Proof.
  revert k. induction turns as [|o0 turns IH]; intros k Hk Hq; [discriminate|].
  simpl. unfold poll. destruct (must_wait t o0) eqn:Hw0.
  - destruct k as [|k]; simpl in Hk; [injection Hk as ->; congruence|].
    destruct (IH k Hk Hq) as (k' & -> & Hle). exists (S k'). split; [reflexivity|lia].
  - exists O. split; [reflexivity|lia].
Qed.

End RootAdvanceMore.

(** After an unexpected move [update_root] sleeps as long as the workers
    have not expanded the new root (address 4), and returns with the
    children they have grown under it. *)
Example update_root_waits_for_the_workers :
  let asleep := RootAdvance.mkProgress [] 5 0 0 false in
  let expanded :=
    RootAdvance.mkProgress [RootAdvance.mkUCTNode 5 72 []] 6 1 1 true in
  let s := RootAdvanceDemo.searched RootAdvanceDemo.unexpected_move in
  RootAdvance.update_root_returns RootAdvanceDemo.go [asleep; asleep] s = None
  /\ RootAdvance.update_root_returns RootAdvanceDemo.go [asleep; expanded] s
     = Some (RootAdvance.mkUCTSearch
               (Some (RootAdvance.mkUCTNode 4 (-1) [RootAdvance.mkUCTNode 5 72 []]))
               None RootAdvanceDemo.unexpected_move RootAdvanceDemo.unexpected_move
               (Some 1%nat) 1 1 true true
               [RootAdvance.mkDeleteTask [RootAdvanceDemo.old_tree] 0] 6 2).
Proof. split; vm_compute; reflexivity. Qed.

Lemma matching_position_reuses_the_tree_witness :
  let s := RootAdvanceDemo.searched RootAdvanceDemo.two_moves_on in
  ~ RootAdvance.mismatch RootAdvanceDemo.go (RootAdvance.m_gtpstate s)
      RootAdvanceDemo.empty_board RootAdvanceDemo.old_tree
  /\ exists r td,
       RootAdvance.update_root RootAdvanceDemo.go s
       = RootAdvance.mkUCTSearch (Some r) None RootAdvanceDemo.two_moves_on
           RootAdvanceDemo.two_moves_on (Some 1%nat) 0 0 false true
           (match td with [] => [] | _ :: _ => [RootAdvance.mkDeleteTask td 0] end)
           4 2
       /\ RootAdvance.addrs RootAdvanceDemo.old_tree
          ≡ₚ flat_map RootAdvance.addrs td ++ RootAdvance.addrs r.
Proof.
  intros s.
  assert (Hm : ~ RootAdvance.mismatch RootAdvanceDemo.go (RootAdvance.m_gtpstate s)
                   RootAdvanceDemo.empty_board RootAdvanceDemo.old_tree).
  { intros [Hm | [[Hm | Hm] | [Hm | Hm]]].
    - vm_compute in Hm. discriminate.
    - vm_compute in Hm. apply Hm. reflexivity.
    - vm_compute in Hm. apply Hm. reflexivity.
    - vm_compute in Hm. discriminate.
    - vm_compute in Hm. discriminate. }
  split; [exact Hm|].
  destruct (matching_position_reuses_the_tree RootAdvanceDemo.go s RootAdvanceDemo.old_tree
              RootAdvanceDemo.empty_board 0%nat eq_refl eq_refl eq_refl Hm)
    as (r & td & _ & Hu & Hp & _).
  exists r, td. split; [exact Hu|exact Hp].
Defined.

Lemma deletion_happens_when_quiet_witness :
  let turns := [RootAdvanceDemo.still_pending; RootAdvanceDemo.all_quiet] in
  turns !! 1%nat = Some RootAdvanceDemo.all_quiet
  /\ RootAdvance.must_wait RootAdvanceDemo.two_detached RootAdvanceDemo.all_quiet = false
  /\ exists k',
       RootAdvance.run_task RootAdvanceDemo.two_detached turns
       = Some (k', flat_map RootAdvance.addrs
                     (RootAdvance.to_delete RootAdvanceDemo.two_detached))
       /\ (k' <= 1)%nat.
Proof.
  intros turns. split; [reflexivity|]. split; [reflexivity|].
  exact (deletion_happens_when_quiet RootAdvanceDemo.two_detached turns 1
           RootAdvanceDemo.all_quiet eq_refl eq_refl).
Defined.

(* ===================================================================== *)
(** * Further properties of the move choice *)
(* ===================================================================== *)

Section BestMoveMore.
Import BestMove.

Context {F : Type} `{FloatOps F}.
Variable S : search F.

Lemma should_resign_needs_permission (passflag : Z) (besteval : F) :
  should_resign S passflag besteval = true ->
  has_flag passflag (NORESIGN S) = false /\ cfg_resignpct S <> 0.
Proof.
  unfold should_resign.
  destruct (has_flag passflag (NORESIGN S)); [discriminate|].
  destruct (Z.eqb_spec (cfg_resignpct S) 0); [discriminate|].
  intros _. split; [reflexivity|assumption].
Qed.

(** X10. Whenever the root has a child to look at, [get_best_move]
    returns a move, and never one of its own making: it is the move of the
    first ordered child, or the move of the child [get_nopass_child] offers
    in place of a first child that passes, or a pass answering the
    opponent's pass (only without NOPASS and with [cfg_dumbpass] off), or
    RESIGN (only without NORESIGN and with [cfg_resignpct] other than 0). *)
Theorem get_best_move_returns_a_candidate
    (passflag : Z) (root_children : list (child F)) (first : child F)
    (rest : list (child F)) :
  ordered_children S root_children = first :: rest ->
  exists m,
    get_best_move S passflag root_children = Some m
    /\ (m = get_move first
        \/ (get_move first = PASS S
            /\ exists nopass,
                 get_nopass_child S (m_rootstate S) (first :: rest) = Some nopass
                 /\ m = get_move nopass)
        \/ (m = PASS S
            /\ get_last_move (m_rootstate S) = PASS S
            /\ has_flag passflag (NOPASS S) = false
            /\ cfg_dumbpass S = false)
        \/ (m = RESIGN S
            /\ has_flag passflag (NORESIGN S) = false
            /\ cfg_resignpct S <> 0)).
Proof.
  intros Ho.
  assert (Hfinal : forall bestmove besteval,
            (bestmove = get_move first
             \/ (get_move first = PASS S
                 /\ exists nopass,
                      get_nopass_child S (m_rootstate S) (first :: rest) = Some nopass
                      /\ bestmove = get_move nopass)
             \/ (bestmove = PASS S
                 /\ get_last_move (m_rootstate S) = PASS S
                 /\ has_flag passflag (NOPASS S) = false
                 /\ cfg_dumbpass S = false)) ->
            exists m,
              (if negb (bestmove =? PASS S) then
                 if should_resign S passflag besteval then Some (RESIGN S) else Some bestmove
               else Some bestmove) = Some m
              /\ (m = get_move first
                  \/ (get_move first = PASS S
                      /\ exists nopass,
                           get_nopass_child S (m_rootstate S) (first :: rest) = Some nopass
                           /\ m = get_move nopass)
                  \/ (m = PASS S
                      /\ get_last_move (m_rootstate S) = PASS S
                      /\ has_flag passflag (NOPASS S) = false
                      /\ cfg_dumbpass S = false)
                  \/ (m = RESIGN S
                      /\ has_flag passflag (NORESIGN S) = false
                      /\ cfg_resignpct S <> 0))).
  { intros bestmove besteval Hc.
    destruct (negb (bestmove =? PASS S)).
    - destruct (should_resign S passflag besteval) eqn:Hr.
      + exists (RESIGN S). split; [reflexivity|]. right. right. right.
        split; [reflexivity|]. exact (should_resign_needs_permission _ _ Hr).
      + exists bestmove. split; [reflexivity|]. tauto.
    - exists bestmove. split; [reflexivity|]. tauto. }
  unfold get_best_move, pass_rules. rewrite Ho.
  destruct (has_flag passflag (NOPASS S)) eqn:Hnp.
  - destruct (Z.eqb_spec (get_move first) (PASS S)) as [Hpass|Hmove].
    + destruct (get_nopass_child S (m_rootstate S) (first :: rest)) as [nopass|] eqn:Hn.
      * apply Hfinal. right. left. split; [exact Hpass|]. exists nopass. split; reflexivity.
      * apply Hfinal. left. reflexivity.
    + apply Hfinal. left. reflexivity.
  - destruct (cfg_dumbpass S) eqn:Hdumb; cbn [negb]; [apply Hfinal; left; reflexivity|].
    destruct (Z.eqb_spec (get_move first) (PASS S)) as [Hpass|Hmove].
    + destruct (flt (relative_score S) f_0).
      * destruct (get_nopass_child S (m_rootstate S) (first :: rest)) as [nopass|] eqn:Hn.
        -- apply Hfinal. right. left. split; [exact Hpass|]. exists nopass.
           split; reflexivity.
        -- apply Hfinal. left. reflexivity.
      * destruct (flt f_0 (relative_score S)); [apply Hfinal; left; reflexivity|].
        destruct (get_nopass_child S (m_rootstate S) (first :: rest)) as [nopass|] eqn:Hn;
          [|apply Hfinal; left; reflexivity].
        destruct (negb (first_visit nopass) && flt f_half _).
        -- apply Hfinal. right. left. split; [exact Hpass|]. exists nopass.
           split; reflexivity.
        -- apply Hfinal. left. reflexivity.
    + destruct (Z.eqb_spec (get_last_move (m_rootstate S)) (PASS S)) as [Hlast|Hlast];
        [|apply Hfinal; left; reflexivity].
      destruct (flt (relative_score S) f_0); [apply Hfinal; left; reflexivity|].
      destruct (flt f_0 (relative_score S)).
      * apply Hfinal. right. right. repeat split; assumption.
      * destruct (flt _ f_half).
        -- apply Hfinal. right. right. repeat split; assumption.
        -- apply Hfinal. left. reflexivity.
Qed.

(** X11. With the NOPASS flag (the search behind [kgs-genmove_cleanup]),
    a pass comes back only when it is forced: the first ordered child is a
    pass and [get_nopass_child] has no other move to offer. The final
    score and the opponent's last move are not consulted. *)
Theorem nopass_passes_only_when_forced
    (passflag : Z) (root_children : list (child F)) (first : child F)
    (rest : list (child F)) :
  ordered_children S root_children = first :: rest ->
  has_flag passflag (NOPASS S) = true ->
  PASS S <> RESIGN S ->
  (forall nopass,
     get_nopass_child S (m_rootstate S) (first :: rest) = Some nopass ->
     get_move nopass <> PASS S) ->
  (get_best_move S passflag root_children = Some (PASS S)
   <-> get_move first = PASS S
       /\ get_nopass_child S (m_rootstate S) (first :: rest) = None).
Proof.
  intros Ho Hnp Hpr Hnopass. unfold get_best_move, pass_rules. rewrite Ho, Hnp.
  destruct (Z.eqb_spec (get_move first) (PASS S)) as [Hpass|Hmove].
  - destruct (get_nopass_child S (m_rootstate S) (first :: rest)) as [nopass|] eqn:Hn.
    + specialize (Hnopass nopass eq_refl).
      destruct (Z.eqb_spec (get_move nopass) (PASS S)) as [E|_]; [contradiction|].
      cbn [negb]. split.
      * destruct (should_resign S passflag _); intros Heq; injection Heq as Heq;
          congruence.
      * intros [_ Hnone]. discriminate.
    + destruct (Z.eqb_spec (get_move first) (PASS S)) as [_|E]; [|contradiction].
      cbn [negb]. split; [intros _; split; [assumption|reflexivity]|].
      intros _. rewrite Hpass. reflexivity.
  - destruct (Z.eqb_spec (get_move first) (PASS S)) as [E|_]; [contradiction|].
    cbn [negb]. split.
    + destruct (should_resign S passflag _); intros Heq; injection Heq as Heq; congruence.
    + intros [Hpass _]. contradiction.
Qed.

End BestMoveMore.

Lemma get_best_move_returns_a_candidate_witness :
  let S := BestMoveDemo.demo_search 10 BestMoveDemo.passing_wins in
  let first := BestMoveDemo.visited 72 (3 # 5) in
  BestMove.ordered_children S [first] = [first]
  /\ exists m,
       BestMove.get_best_move S 0 [first] = Some m
       /\ (m = BestMove.get_move first
           \/ (BestMove.get_move first = BestMove.PASS S
               /\ exists nopass,
                    BestMove.get_nopass_child S (BestMove.m_rootstate S) [first]
                    = Some nopass
                    /\ m = BestMove.get_move nopass)
           \/ (m = BestMove.PASS S
               /\ BestMove.get_last_move (BestMove.m_rootstate S) = BestMove.PASS S
               /\ BestMove.has_flag 0 (BestMove.NOPASS S) = false
               /\ BestMove.cfg_dumbpass S = false)
           \/ (m = BestMove.RESIGN S
               /\ BestMove.has_flag 0 (BestMove.NORESIGN S) = false
               /\ BestMove.cfg_resignpct S <> 0)).
Proof.
  intros S first. split; [reflexivity|].
  exact (get_best_move_returns_a_candidate S 0 [first] first [] eq_refl).
Defined.

Lemma nopass_passes_only_when_forced_witness :
  let S := BestMoveDemo.demo_search 10 BestMoveDemo.passing_wins in
  let first := BestMoveDemo.visited (-1) (3 # 5) in
  BestMove.has_flag 1 (BestMove.NOPASS S) = true
  /\ BestMove.get_best_move S 1 [first] = Some (BestMove.PASS S).
Proof.
  intros S first. split; [reflexivity|].
  apply (nopass_passes_only_when_forced S 1 [first] first [] eq_refl eq_refl).
  - discriminate.
  - intros nopass Hn. discriminate Hn.
  - split; reflexivity.
Defined.

(* ===================================================================== *)
(** * Further properties of the option commands *)
(* ===================================================================== *)

Section GTPMore.
Import GTP.

Variable size_range MiB : Z.
Variable remove_overhead : Z -> Z.
Variable ENTRY_SIZE MIN_CACHE_COUNT MIN_TREE_SPACE DEFAULT_MAX_MEMORY : Z.
Variable UNLIMITED_PLAYOUTS : Z.
Variable base_memory : Z.

Abbreviation set_max_memory' :=
  (set_max_memory size_range MiB remove_overhead ENTRY_SIZE MIN_CACHE_COUNT
     MIN_TREE_SPACE DEFAULT_MAX_MEMORY base_memory).

Abbreviation execute_setoption' :=
  (execute_setoption size_range MiB remove_overhead ENTRY_SIZE MIN_CACHE_COUNT
     MIN_TREE_SPACE DEFAULT_MAX_MEMORY UNLIMITED_PLAYOUTS base_memory).

Lemma set_max_memory_cases (max_memory pct : Z) (g : globals) :
  let cap := if max_memory =? 0 then DEFAULT_MAX_MEMORY else max_memory in
  (exists reason, set_max_memory' max_memory pct g = (g, (false, reason)))
  \/ (exists tree cache reason,
        set_max_memory' max_memory pct g
        = (with_memory cap pct tree cache g, (true, reason))).
Proof.
  cbv zeta. unfold set_max_memory.
  destruct (_ <? base_memory); [left; eexists; reflexivity|].
  destruct (_ <? MIN_CACHE_COUNT); [left; eexists; reflexivity|].
  destruct (_ <? MIN_TREE_SPACE); [left; eexists; reflexivity|].
  right. eexists. eexists. eexists. reflexivity.
Qed.

(** X20. Applying [set_max_memory] to the values it has just stored
    changes nothing: after an accepted call, a second call with the stored
    cap and the stored percentage is accepted too, with the same answer and
    the same globals. (The two memory options rely on it: each passes one
    new value together with the stored other one.) *)
Theorem set_max_memory_again (max_memory pct : Z) (g g' : globals) (reason : string) :
  set_max_memory' max_memory pct g = (g', (true, reason)) ->
  set_max_memory' (cfg_max_memory g') (cfg_max_cache_ratio_percent g') g'
  = (g', (true, reason)).
Proof.
  unfold set_max_memory.
  set (cap := if max_memory =? 0 then DEFAULT_MAX_MEMORY else max_memory).
  destruct (cap <? base_memory) eqn:Hbase; [discriminate|].
  destruct (_ <? MIN_CACHE_COUNT) eqn:Hcache; [discriminate|].
  destruct (_ <? MIN_TREE_SPACE) eqn:Htree; [discriminate|].
  intros Heq. injection Heq as <- <-.
  cbn [cfg_max_memory cfg_max_cache_ratio_percent with_memory].
  assert (Hcap : (if cap =? 0 then DEFAULT_MAX_MEMORY else cap) = cap).
  { destruct (Z.eqb_spec cap 0) as [Hz|]; [|reflexivity].
    unfold cap in *. destruct (Z.eqb_spec max_memory 0); [reflexivity|contradiction]. }
  rewrite Hcap, Hbase, Hcache, Htree. reflexivity.
Qed.

(** X21. An option command that is answered with a failure leaves every
    setting as it was, with one exception: [playouts N] with [N] other
    than 0 while pondering is allowed is refused with "incorrect value",
    but has stored [N] in [cfg_max_playouts] before that. In no case does a
    refused command touch the limits installed in the search. *)
Theorem refused_option_changes_at_most_cfg_max_playouts
    (options_text : string) (command : list string) (g g' : globals) (message : string) :
  execute_setoption' options_text command g = (g', gtp_fail_printf message) ->
  m_maxplayouts g' = m_maxplayouts g
  /\ m_maxvisits g' = m_maxvisits g
  /\ (g' = g
      \/ (cfg_allow_pondering g = true
          /\ message = "incorrect value"%string
          /\ exists N, N <> 0 /\ g' = with_cfg_max_playouts N g)).
Proof.
  unfold execute_setoption.
  destruct command as [|tmp [|name_token rest]]; try discriminate.
  destruct (negb (starts_with "name" name_token));
    [intros Heq; injection Heq as <- <-; auto|].
  destruct (parse_option rest) as [name value].
  destruct (String.eqb name "maximum memory use (mib)").
  { destruct (read_int (first_word value)) as [mib failed].
    destruct (negb failed); [|intros Heq; injection Heq as <- <-; auto].
    destruct (_ || _); [intros Heq; injection Heq as <- <-; auto|].
    destruct (set_max_memory_cases (to_size_t size_range (mib * MiB))
                (cfg_max_cache_ratio_percent g) g)
      as [(reason & ->) | (tree & cache & reason & ->)];
      [intros Heq; injection Heq as <- <-; auto|discriminate]. }
  destruct (String.eqb name "percentage of memory for cache").
  { destruct (read_int (first_word value)) as [pct failed].
    destruct (_ || _); [intros Heq; injection Heq as <- <-; auto|].
    destruct (set_max_memory_cases (cfg_max_memory g) pct g)
      as [(reason & ->) | (tree & cache & reason & ->)];
      [intros Heq; injection Heq as <- <-; auto|discriminate]. }
  destruct (String.eqb name "visits").
  { destruct (read_int (first_word value)). discriminate. }
  destruct (String.eqb name "playouts").
  { destruct (read_int (first_word value)) as [playouts failed].
    cbn [cfg_max_playouts with_cfg_max_playouts cfg_allow_pondering].
    destruct (Z.eqb_spec playouts 0) as [|Hnz]; [discriminate|].
    destruct (cfg_allow_pondering g) eqn:Hp; [|discriminate].
    intros Heq. injection Heq as <- <-. repeat split.
    right. repeat split. exists playouts. split; [exact Hnz|reflexivity]. }
  destruct (String.eqb name "lagbuffer").
  { destruct (read_int (first_word value)). discriminate. }
  destruct (String.eqb name "pondering").
  { destruct (String.eqb (first_word value) "true").
    - destruct (negb _); [intros Heq; injection Heq as <- <-; auto|discriminate].
    - destruct (String.eqb (first_word value) "false"); [discriminate|].
      intros Heq; injection Heq as <- <-; auto. }
  destruct (String.eqb name "resign percentage").
  { destruct (read_int (first_word value)). discriminate. }
  intros Heq; injection Heq as <- <-; auto.
Qed.

(** X22. Every option command that is answered with success keeps
    pondering and the playout limit consistent: if pondering was allowed
    only with unlimited playouts before the command, it is so after it.
    ([pondering true] is accepted only when playouts are unlimited, and a
    playout limit only when pondering is off.) *)
Theorem accepted_option_keeps_pondering_unlimited
    (options_text : string) (command : list string) (g g' : globals) (text : string) :
  execute_setoption' options_text command g = (g', gtp_printf text) ->
  Options.pondering_is_unlimited UNLIMITED_PLAYOUTS g ->
  Options.pondering_is_unlimited UNLIMITED_PLAYOUTS g'.
Proof.
  unfold execute_setoption, Options.pondering_is_unlimited.
  destruct command as [|tmp [|name_token rest]];
    try (intros Heq; injection Heq as <- <-; auto; fail).
  destruct (negb (starts_with "name" name_token)); [discriminate|].
  destruct (parse_option rest) as [name value].
  destruct (String.eqb name "maximum memory use (mib)").
  { destruct (read_int (first_word value)) as [mib failed].
    destruct (negb failed); [|discriminate].
    destruct (_ || _); [discriminate|].
    destruct (set_max_memory_cases (to_size_t size_range (mib * MiB))
                (cfg_max_cache_ratio_percent g) g)
      as [(reason & ->) | (tree & cache & reason & ->)]; [discriminate|].
    intros Heq. injection Heq as <- <-. auto. }
  destruct (String.eqb name "percentage of memory for cache").
  { destruct (read_int (first_word value)) as [pct failed].
    destruct (_ || _); [discriminate|].
    destruct (set_max_memory_cases (cfg_max_memory g) pct g)
      as [(reason & ->) | (tree & cache & reason & ->)]; [discriminate|].
    intros Heq. injection Heq as <- <-. auto. }
  destruct (String.eqb name "visits").
  { destruct (read_int (first_word value)) as [visits failed].
    intros Heq. injection Heq as <- <-.
    destruct (_ =? 0); auto. }
  destruct (String.eqb name "playouts").
  { destruct (read_int (first_word value)) as [playouts failed].
    cbn [cfg_max_playouts with_cfg_max_playouts cfg_allow_pondering].
    destruct (Z.eqb_spec playouts 0) as [|Hnz].
    - intros Heq. injection Heq as <- <-. reflexivity.
    - destruct (cfg_allow_pondering g) eqn:Hp; [discriminate|].
      intros Heq. injection Heq as <- <-. simpl. rewrite Hp. discriminate. }
  destruct (String.eqb name "lagbuffer").
  { destruct (read_int (first_word value)). intros Heq. injection Heq as <- <-. auto. }
  destruct (String.eqb name "pondering").
  { destruct (String.eqb (first_word value) "true").
    - destruct (Z.eqb_spec (cfg_max_playouts g) UNLIMITED_PLAYOUTS) as [Hu|];
        cbn [negb]; [|discriminate].
      intros Heq. injection Heq as <- <-. intros _ _. exact Hu.
    - destruct (String.eqb (first_word value) "false"); [|discriminate].
      intros Heq. injection Heq as <- <-. simpl. discriminate. }
  destruct (String.eqb name "resign percentage").
  { destruct (read_int (first_word value)). intros Heq. injection Heq as <- <-. auto. }
  discriminate.
Qed.

Lemma split_at_value_app (name_tokens value_tokens : list string) :
  ~ In "value"%string name_tokens ->
  split_at_value (name_tokens ++ "value"%string :: value_tokens)
  = (name_tokens, value_tokens).
Proof.
  induction name_tokens as [|t ts IH]; intros Hn; simpl; [reflexivity|].
  destruct (String.eqb_spec t "value") as [->|_]; [exfalso; apply Hn; left; reflexivity|].
  rewrite IH; [reflexivity|]. intros Hin. apply Hn. right. exact Hin.
Qed.

Lemma split_at_value_none (tokens : list string) :
  ~ In "value"%string tokens -> split_at_value tokens = (tokens, []).
Proof.
  induction tokens as [|t ts IH]; intros Hn; simpl; [reflexivity|].
  destruct (String.eqb_spec t "value") as [->|_]; [exfalso; apply Hn; left; reflexivity|].
  rewrite IH; [reflexivity|]. intros Hin. apply Hn. right. exact Hin.
Qed.

(** X23. [parse_option] splits at the first word [value]: the words
    before it, joined by single blanks, are the option's name, whatever
    their number, and the words after it (further [value]s included) are
    its value; without the word [value] everything is name and the value
    is empty. *)
Theorem parse_option_splits_at_value (name_tokens value_tokens : list string) :
  ~ In "value"%string name_tokens ->
  parse_option (name_tokens ++ "value"%string :: value_tokens)
  = (join_tokens name_tokens, join_tokens value_tokens)
  /\ parse_option name_tokens = (join_tokens name_tokens, ""%string).
Proof.
  intros Hn. unfold parse_option.
  rewrite split_at_value_app, split_at_value_none by exact Hn. split; reflexivity.
Qed.

End GTPMore.

Section GTPMoreRuns.
Import GTP.

Abbreviation small_machine_options :=
  (execute_setoption 18446744073709551616 1048576 (fun x => x * 10 / 11) 3000 6000
     100000000 2147483648 1073741823 104857600 ""%string).

Lemma set_max_memory_again_witness :
  let g' := mkGlobals 2147483648 10 1671239494 61897 0 0 false 0 0 0 0 in
  let reason := "Setting max tree size to 1753 MiB and cache size to 194 MiB."%string in
  set_max_memory 18446744073709551616 1048576 (fun x => x * 10 / 11) 3000 6000 100000000
    2147483648 104857600 0 10 no_settings
  = (g', (true, reason))
  /\ set_max_memory 18446744073709551616 1048576 (fun x => x * 10 / 11) 3000 6000 100000000
       2147483648 104857600 (cfg_max_memory g') (cfg_max_cache_ratio_percent g') g'
     = (g', (true, reason)).
Proof.
  intros g' reason.
  assert (Hfirst :
    set_max_memory 18446744073709551616 1048576 (fun x => x * 10 / 11) 3000 6000 100000000
      2147483648 104857600 0 10 no_settings
    = (g', (true, reason))) by reflexivity.
  split; [exact Hfirst|].
  exact (set_max_memory_again 18446744073709551616 1048576 (fun x => x * 10 / 11) 3000 6000
           100000000 2147483648 104857600 0 10 no_settings g' reason Hfirst).
Defined.

Lemma refused_option_changes_at_most_cfg_max_playouts_witness :
  let g := mkGlobals 0 10 0 0 1073741823 1073741823 true 0 0 1073741823 1073741823 in
  let g' := with_cfg_max_playouts 100 g in
  small_machine_options ["lz-setoption"; "name"; "playouts"; "value"; "100"]%string g
  = (g', gtp_fail_printf "incorrect value")
  /\ m_maxplayouts g' = m_maxplayouts g
  /\ m_maxvisits g' = m_maxvisits g
  /\ (g' = g
      \/ (cfg_allow_pondering g = true
          /\ "incorrect value"%string = "incorrect value"%string
          /\ exists N, N <> 0 /\ g' = with_cfg_max_playouts N g)).
Proof.
  intros g g'.
  assert (Hrun :
    small_machine_options ["lz-setoption"; "name"; "playouts"; "value"; "100"]%string g
    = (g', gtp_fail_printf "incorrect value")) by reflexivity.
  split; [exact Hrun|].
  exact (refused_option_changes_at_most_cfg_max_playouts 18446744073709551616 1048576
           (fun x => x * 10 / 11) 3000 6000 100000000 2147483648 1073741823 104857600
           ""%string ["lz-setoption"; "name"; "playouts"; "value"; "100"]%string
           g g' "incorrect value"%string Hrun).
Defined.

Lemma accepted_option_keeps_pondering_unlimited_witness :
  let g := mkGlobals 0 10 0 0 1073741823 1073741823 false 0 0 1073741823 1073741823 in
  let g' := with_cfg_allow_pondering true g in
  small_machine_options ["lz-setoption"; "name"; "pondering"; "value"; "true"]%string g
  = (g', gtp_printf "")
  /\ Options.pondering_is_unlimited 1073741823 g
  /\ Options.pondering_is_unlimited 1073741823 g'.
Proof.
  intros g g'.
  assert (Hrun :
    small_machine_options ["lz-setoption"; "name"; "pondering"; "value"; "true"]%string g
    = (g', gtp_printf "")) by reflexivity.
  assert (Hinv : Options.pondering_is_unlimited 1073741823 g) by (intros _; reflexivity).
  split; [exact Hrun|]. split; [exact Hinv|].
  exact (accepted_option_keeps_pondering_unlimited 18446744073709551616 1048576
           (fun x => x * 10 / 11) 3000 6000 100000000 2147483648 1073741823 104857600
           ""%string ["lz-setoption"; "name"; "pondering"; "value"; "true"]%string
           g g' ""%string Hrun Hinv).
Defined.

Lemma parse_option_splits_at_value_witness :
  let name_tokens := ["maximum"; "memory"; "use"; "(mib)"]%string in
  ~ In "value"%string name_tokens
  /\ parse_option (name_tokens ++ "value"%string :: ["2048"%string])
     = ("maximum memory use (mib)"%string, "2048"%string).
Proof.
  intros name_tokens.
  assert (Hn : ~ In "value"%string name_tokens).
  { intros [Hc | [Hc | [Hc | [Hc | []]]]]; discriminate Hc. }
  split; [exact Hn|].
  exact (proj1 (parse_option_splits_at_value name_tokens ["2048"%string] Hn)).
Defined.

End GTPMoreRuns.

(* ===================================================================== *)
(** * Properties of the command line *)
(* ===================================================================== *)

Section GTPInputProofs.
Import GTPInput.

Lemma tolower_not_upper (c : ascii) : isupper (tolower c) = false.
Proof. destruct c as [[] [] [] [] [] [] [] []]; reflexivity. Qed.

Lemma tolower_fixed (c : ascii) : isupper c = false -> tolower c = c.
Proof. unfold tolower. intros ->. reflexivity. Qed.

Lemma tolower_kind (c : ascii) :
  skipped c = false -> (code c =? 9) = false ->
  skipped (tolower c) = false /\ (code (tolower c) =? 9) = false
  /\ isspace (tolower c) = isspace c.
Proof. destruct c as [[] [] [] [] [] [] [] []]; intros H1 H2; try discriminate; repeat split. Qed.

Lemma single_spaced_snoc (l : list ascii) (a c : ascii) :
  single_spaced (l ++ [a]) = true ->
  isspace a && isspace c = false ->
  single_spaced ((l ++ [a]) ++ [c]) = true.
Proof.
  intros Hl Hac. induction l as [|x l IH]; simpl in *.
  - rewrite Hac. reflexivity.
  - destruct (l ++ [a]) as [|y t] eqn:Hy; [destruct l; discriminate|].
    simpl in *. apply andb_prop in Hl. destruct Hl as [Hxy Ht].
    rewrite Hxy. simpl. apply IH. exact Ht.
Qed.

Lemma single_spaced_mid (l1 l2 : list ascii) (a c : ascii) :
  single_spaced (l1 ++ a :: c :: l2) = true -> isspace a && isspace c = false.
Proof.
  induction l1 as [|x l1 IH]; simpl.
  - intros Hs. apply andb_prop in Hs. destruct Hs as [Hs _].
    apply negb_true_iff in Hs. exact Hs.
  - destruct (l1 ++ a :: c :: l2) as [|y t] eqn:Hy; [destruct l1; discriminate|].
    intros Hs. apply andb_prop in Hs. destruct Hs as [_ Hs]. apply IH. exact Hs.
Qed.

(** One round keeps what has been built, up to the character it adds. *)
Lemma filter_char_step (b : bool) (acc : list ascii) (c : ascii) :
  filter_char b acc c = acc
  \/ exists c', filter_char b acc c = c' :: acc
                /\ passes b c'
                /\ match acc with
                   | a :: _ => isspace a && isspace c' = false
                   | [] => True
                   end.
Proof.
  unfold filter_char.
  assert (Heat : forall c', passes b c' ->
            eat_multi_whitespace (c' :: acc) = acc
            \/ exists c'', eat_multi_whitespace (c' :: acc) = c'' :: acc
                           /\ passes b c''
                           /\ match acc with
                              | a :: _ => isspace a && isspace c'' = false
                              | [] => True
                              end).
  { intros c' Hc'. unfold eat_multi_whitespace. destruct acc as [|a rest].
    - right. exists c'. repeat split; apply Hc'.
    - destruct (isspace a && isspace c') eqn:Hsp; [left; reflexivity|].
      right. exists c'. split; [reflexivity|]. split; [exact Hc'|exact Hsp]. }
  destruct (code c =? 9) eqn:Htab.
  - apply Heat. repeat split.
  - destruct (skipped c) eqn:Hskip; [left; reflexivity|].
    apply Heat. destruct (tolower_kind c Hskip Htab) as (H1 & H2 & _).
    destruct b.
    + split; [exact H1|]. split; [exact H2|]. intros _. apply tolower_not_upper.
    + split; [exact Hskip|]. split; [exact Htab|]. discriminate.
Qed.

Lemma filter_invariant (b : bool) (xinput : list ascii) :
  forall acc,
    Forall (passes b) acc ->
    single_spaced (rev acc) = true ->
    let acc' := fold_left (filter_char b) xinput acc in
    Forall (passes b) acc'
    /\ single_spaced (rev acc') = true
    /\ (length acc' <= length acc + length xinput)%nat
    /\ exists added, acc' = added ++ acc.
Proof.
  induction xinput as [|c xinput IH]; intros acc Hall Hsp; simpl.
  - repeat split; try assumption; try lia. exists []. reflexivity.
  - destruct (filter_char_step b acc c) as [-> | (c' & -> & Hc' & Hadj)].
    + destruct (IH acc Hall Hsp) as (H1 & H2 & H3 & H4).
      repeat split; try assumption. lia.
    + assert (Hsp' : single_spaced (rev (c' :: acc)) = true).
      { simpl. destruct acc as [|a rest]; [reflexivity|].
        simpl. apply single_spaced_snoc; assumption. }
      destruct (IH (c' :: acc) ltac:(constructor; assumption) Hsp')
        as (H1 & H2 & H3 & (added & H4)).
      repeat split; try assumption; [simpl in H3; lia|].
      exists (added ++ [c']). rewrite H4, <- app_assoc. reflexivity.
Qed.

Lemma filter_clean (b : bool) (xinput : list ascii) :
  Forall (passes b) (filter b xinput)
  /\ single_spaced (filter b xinput) = true
  /\ (length (filter b xinput) <= length xinput)%nat.
Proof.
  unfold filter.
  destruct (filter_invariant b xinput [] ltac:(constructor) eq_refl) as (H1 & H2 & H3 & _).
  split; [|split].
  - apply List.Forall_rev. exact H1.
  - exact H2.
  - rewrite length_rev. simpl in H3. exact H3.
Qed.

(** Text that is already filtered goes through unchanged. *)
Lemma filter_fixed (b : bool) (l : list ascii) :
  forall acc,
    Forall (passes b) l ->
    single_spaced (rev acc ++ l) = true ->
    fold_left (filter_char b) l acc = rev l ++ acc.
Proof.
  induction l as [|c l IH]; intros acc Hall Hsp; simpl; [reflexivity|].
  inversion Hall as [|c0 l0 (Hskip & Htab & Hup) Hall']. subst.
  assert (Hstep : filter_char b acc c = c :: acc).
  { unfold filter_char. rewrite Htab, Hskip.
    assert (Hc : (if b then tolower c else c) = c).
    { destruct b; [|reflexivity]. apply tolower_fixed. apply Hup. reflexivity. }
    rewrite Hc. unfold eat_multi_whitespace. destruct acc as [|a rest]; [reflexivity|].
    simpl in Hsp. rewrite <- app_assoc in Hsp. simpl in Hsp.
    rewrite (single_spaced_mid _ _ _ _ Hsp). reflexivity. }
  rewrite Hstep, IH.
  - rewrite <- app_assoc. reflexivity.
  - exact Hall'.
  - simpl. rewrite <- app_assoc. exact Hsp.
Qed.

Lemma passes_weaken (c : ascii) : passes true c -> passes false c.
Proof. intros (H1 & H2 & _). split; [exact H1|]. split; [exact H2|discriminate]. Qed.

Lemma filter_of_clean (b : bool) (l : list ascii) :
  Forall (passes b) l -> single_spaced l = true -> filter b l = l.
Proof.
  intros Hall Hsp. unfold filter. rewrite filter_fixed; try assumption.
  rewrite app_nil_r. apply rev_involutive.
Qed.

Lemma starts_with_spec (p s : string) :
  GTP.starts_with p s = true
  <-> exists t, list_ascii_of_string s = list_ascii_of_string p ++ t.
Proof.
  revert s. induction p as [|a p IH]; intros s; simpl.
  - split; [intros _; eexists; reflexivity|reflexivity].
  - destruct s as [|c s]; simpl.
    + split; [discriminate|]. intros (t & Ht). discriminate.
    + split.
      * intros Hs. apply andb_prop in Hs. destruct Hs as [Hac Hs].
        apply Ascii.eqb_eq in Hac. subst c. apply IH in Hs. destruct Hs as (t & ->).
        exists t. reflexivity.
      * intros (t & Ht). injection Ht as -> Ht. rewrite Ascii.eqb_refl. simpl.
        apply IH. exists t. exact Ht.
Qed.

Lemma contains_spec (needle hay : string) :
  contains needle hay = true
  <-> exists before after,
        list_ascii_of_string hay = before ++ list_ascii_of_string needle ++ after.
Proof.
  induction hay as [|c hay IH]; simpl.
  - rewrite orb_false_r, starts_with_spec. split.
    + intros (t & Ht). exists [], t. exact Ht.
    + intros (before & after & Hb). destruct before as [|x before]; [|discriminate].
      exists after. exact Hb.
  - rewrite orb_true_iff, starts_with_spec, IH. simpl. split.
    + intros [(t & Ht) | (before & after & Hb)].
      * exists [], t. exact Ht.
      * exists (c :: before), after. simpl. rewrite Hb. reflexivity.
    + intros (before & after & Hb). destruct before as [|x before].
      * left. exists after. exact Hb.
      * right. injection Hb as -> Hb. exists before, after. exact Hb.
Qed.

(** The filter without the lower-casing keeps every occurrence of the word
    [loadsgf]. *)
Lemma filter_keeps_loadsgf (xinput : string) :
  contains "loadsgf" xinput = true ->
  contains "loadsgf" (string_of_list_ascii (filter false (list_ascii_of_string xinput)))
  = true.
Proof.
  intros Hc. apply contains_spec in Hc. destruct Hc as (before & after & Hx).
  apply contains_spec. rewrite list_ascii_of_string_of_list_ascii, Hx.
  unfold filter. rewrite !fold_left_app.
  set (acc := fold_left (filter_char false) before []).
  assert (Hword : fold_left (filter_char false) (list_ascii_of_string "loadsgf") acc
                  = rev (list_ascii_of_string "loadsgf") ++ acc).
  { simpl. unfold filter_char at 1 2 3 4 5 6 7. simpl.
    unfold eat_multi_whitespace.
    destruct acc as [|a rest]; simpl; [reflexivity|].
    rewrite andb_false_r. reflexivity. }
  rewrite Hword.
  assert (Hsuf : forall l acc0, exists added,
            fold_left (filter_char false) l acc0 = added ++ acc0).
  { induction l as [|c l IH]; intros acc0; simpl; [exists []; reflexivity|].
    destruct (filter_char_step false acc0 c) as [-> | (c' & -> & _)]; [apply IH|].
    destruct (IH (c' :: acc0)) as (added & ->). exists (added ++ [c']).
    rewrite <- app_assoc. reflexivity. }
  destruct (Hsuf after (rev (list_ascii_of_string "loadsgf") ++ acc)) as (added & ->).
  exists (rev acc), (rev added).
  rewrite !rev_app_distr, rev_involutive, <- app_assoc. reflexivity.
Qed.

(** X24. The text [GTP::execute] works on, once its input filter has
    run: it holds no tab and none of the control characters 1..8, 11..31
    and 127; no two white-space characters stand next to each other; it is
    no longer than the line received; and unless the line contains the
    word [loadsgf], it holds no upper-case letter. *)
Theorem preprocess_is_clean (xinput : string) :
  let input := list_ascii_of_string (preprocess xinput) in
  Forall (fun c => skipped c = false /\ code c <> 9) input
  /\ single_spaced input = true
  /\ (length input <= String.length xinput)%nat
  /\ (contains "loadsgf" xinput = false -> Forall (fun c => isupper c = false) input).
Proof.
  cbv zeta. unfold preprocess. rewrite list_ascii_of_string_of_list_ascii.
  set (b := negb (contains "loadsgf" xinput)).
  destruct (filter_clean b (list_ascii_of_string xinput)) as (Hall & Hsp & Hlen).
  split; [|split; [exact Hsp|split]].
  - eapply List.Forall_impl; [|exact Hall]. intros c (H1 & H2 & _).
    split; [exact H1|]. apply Z.eqb_neq. exact H2.
  - rewrite Hlen. clear. induction xinput as [|c s IH]; simpl; lia.
  - intros Hno. unfold b in *. rewrite Hno in *. simpl in Hall |- *.
    eapply List.Forall_impl; [|exact Hall]. intros c (_ & _ & H3). apply H3. reflexivity.
Qed.

(** X25. The input filter is idempotent: a line that has gone through it
    comes out of it unchanged, also where the word [loadsgf] switches the
    lower-casing off. *)
Theorem preprocess_idempotent (xinput : string) :
  preprocess (preprocess xinput) = preprocess xinput.
Proof.
  set (once := preprocess xinput).
  assert (Honce : list_ascii_of_string once
                  = filter (negb (contains "loadsgf" xinput)) (list_ascii_of_string xinput)).
  { unfold once, preprocess. apply list_ascii_of_string_of_list_ascii. }
  destruct (filter_clean (negb (contains "loadsgf" xinput)) (list_ascii_of_string xinput))
    as (Hall & Hsp & _).
  rewrite <- Honce in Hall, Hsp.
  assert (Hfix : filter (negb (contains "loadsgf" once)) (list_ascii_of_string once)
                 = list_ascii_of_string once).
  { apply filter_of_clean; [|exact Hsp].
    destruct (contains "loadsgf" xinput) eqn:Hx; simpl in Hall.
    - assert (Hkeep : contains "loadsgf" once = true).
      { unfold once, preprocess. rewrite Hx. simpl. apply filter_keeps_loadsgf. exact Hx. }
      rewrite Hkeep. exact Hall.
    - destruct (negb (contains "loadsgf" once)); [exact Hall|].
      eapply List.Forall_impl; [|exact Hall]. apply passes_weaken. }
  unfold preprocess. rewrite Hfix. apply string_of_list_ascii_of_string.
Qed.

Lemma listed_entries (table : list string) (tmp : string) :
  listed table tmp = true <-> In tmp (entries table).
Proof.
  induction table as [|entry table IH]; simpl.
  - split; [discriminate|intros []].
  - destruct (String.length entry =? 0)%nat; [split; [discriminate|intros []]|].
    destruct (String.eqb_spec tmp entry) as [->|Hne].
    + split; [intros _; left; reflexivity|reflexivity].
    + rewrite IH. split; [intros Hin; right; exact Hin|].
      intros [Heq | Hin]; [congruence|exact Hin].
Qed.

(** X26. [known_command] answers [true] exactly for the words that
    [list_commands] prints, one per line, and each of them has its branch
    in [GTP::execute]. All but one of these branches end the call: the
    branch of [dyn_komi_test] does not return, so that command, after
    running its test, is answered with the failure "unknown command". *)
Theorem listed_commands_have_a_branch :
  let advertised := entries s_commands in
  (forall tmp, known_command tmp = true <-> In tmp advertised)
  /\ list_commands = String.concat (String (ascii_of_nat 10) EmptyString) advertised
  /\ forall tmp,
       In tmp advertised ->
       dispatch tmp <> no_branch
       /\ (reaches_unknown_command (dispatch tmp) = true <-> tmp = "dyn_komi_test"%string).
Proof.
  cbv zeta. split; [|split].
  - intros tmp. apply listed_entries.
  - reflexivity.
  - intros tmp Hin. simpl in Hin.
    repeat (destruct Hin as [<- | Hin];
            [split; [discriminate|split; [try discriminate; reflexivity
                                         |try discriminate; reflexivity]]|]).
    destruct Hin.
Qed.

(** X27. The branch is chosen on the beginning of the command alone:
    whatever follows the name of a listed command (a blank and arguments,
    or more letters) leads to the same branch as the bare name. The four
    commands tested with [==] are the exception: with anything after the
    name, a blank included, they have no branch and are answered with
    "unknown command". *)
Theorem branch_is_chosen_by_prefix (listed_name tail : string) :
  In listed_name (entries s_commands) ->
  if existsb (String.eqb listed_name) (firstn 4 s_commands)
  then forall c, dispatch (String.append listed_name (String c tail)) = no_branch
  else dispatch (String.append listed_name tail) = dispatch listed_name.
Proof.
  intros Hin. simpl in Hin.
  repeat (destruct Hin as [<- | Hin]; [try (intros c); reflexivity|]).
  destruct Hin.
Qed.

End GTPInputProofs.

Lemma branch_is_chosen_by_prefix_witness :
  In "play"%string (GTPInput.entries GTPInput.s_commands)
  /\ GTPInput.dispatch "play b q16" = GTPInput.dispatch "play".
Proof.
  assert (Hin : In "play"%string (GTPInput.entries GTPInput.s_commands)).
  { simpl. do 9 right. left. reflexivity. }
  split; [exact Hin|].
  exact (branch_is_chosen_by_prefix "play" " b q16" Hin).
Defined.
